(** * Dashboard controller of the channel pipeline: model and properties

  The development follows [frontend/app.js] (class [Dashboard]) and the two
  earlier dashboard scripts that share [applyUniqueEmailFilter].

  - [JS]        : the fragment of JavaScript values and coercions the
                  controller relies on (numbers with NaN and infinities,
                  [Number], [Boolean], [typeof], array [join], the value
                  level effect of a [JSON.stringify]/[JSON.parse] round).
  - [Text]      : [trim] and [split] on a character class, over strings
                  read as UTF-8 text, with the white space of JavaScript.
  - [Settings]  : discovery settings, their normalisation and persistence.
  - [Emails]    : the unique-email filter of the table view.
  - [Dash]      : the controller state, its handlers written in a small
                  state-and-log monad, the discovery loop and its
                  interleaving with user actions.

  Numbers that count things (runs, discovered channels, queued channels,
  version counters) are integers [Z]; numbers read from untyped input are
  [JS.num]. *)

From Stdlib Require Import ZArith QArith Qround String Ascii List Lia Bool.
From stdpp Require Import gmap strings list.

#[local] Set Warnings "-clear-no-such-hyp".

Open Scope string_scope.
Open Scope Z_scope.

(* ===================================================================== *)
(** ** JavaScript values                                                 *)
(* ===================================================================== *)

Module JS.

(** A JavaScript number: NaN, the two infinities, or a finite value.  Every
    finite double is a rational, and [Math.floor], [Math.max] and the
    comparisons used here are exact on doubles. *)
Inductive num : Type :=
| NaN
| PosInf
| NegInf
| Fin (q : Q).

Definition of_Z (z : Z) : num := Fin (inject_Z z).

Definition isNaN (n : num) : bool :=
  match n with NaN => true | _ => false end.

(** [a < b]; false as soon as one side is NaN. *)
Definition lt (a b : num) : bool :=
  match a, b with
  | NaN, _ | _, NaN => false
  | PosInf, _ => false
  | _, NegInf => false
  | NegInf, _ => true
  | _, PosInf => true
  | Fin x, Fin y => negb (Qle_bool y x)
  end.

(** [a <= b]; false as soon as one side is NaN. *)
Definition le (a b : num) : bool :=
  match a, b with
  | NaN, _ | _, NaN => false
  | NegInf, _ => true
  | _, PosInf => true
  | PosInf, _ => false
  | _, NegInf => false
  | Fin x, Fin y => Qle_bool x y
  end.

Definition gt (a b : num) : bool := lt b a.

(** [Math.floor]. *)
Definition floor (n : num) : num :=
  match n with
  | Fin q => Fin (inject_Z (Qfloor q))
  | other => other
  end.

(** [Math.max] of two arguments. *)
Definition max (a b : num) : num :=
  if isNaN a || isNaN b then NaN
  else if lt a b then b else a.

(** The values that reach the controller from JSON text, form fields and
    its own records.  [VObj] stands for any object that is not an array;
    the controller only ever coerces such a value. *)
#[warnings="-register-all"]
Inductive value : Type :=
| VUndefined
| VNull
| VBool (b : bool)
| VNum (n : num)
| VStr (s : string)
| VArr (items : list value)
| VObj.

(** An object read by property name; a missing property reads as
    [undefined]. *)
Abbreviation obj := (gmap string value).

Definition prop (o : obj) (k : string) : value :=
  default VUndefined (o !! k).

(** Object spread [{...a, ...b}]: the properties of [b] win. *)
Definition spread (a b : obj) : obj := b ∪ a.

(** What the engine supplies: the conversion of a string to a number, the
    printing of a number, [String.prototype.toLowerCase] with the case
    tables of Unicode, and the global, case-insensitive search for
    [/[A-Za-z0-9._%+-]+@[A-Za-z0-9.-]+\.[A-Za-z]{2,}/] inside a text
    ([None] is the [null] that [String.prototype.match] returns). *)
Class Host : Type := {
  string_to_number : string -> num;
  number_to_string : num -> string;
  to_lower_case : string -> string;
  match_email_regex : string -> option (list string);
}.

Fixpoint join (sep : string) (parts : list string) : string :=
  match parts with
  | [] => ""
  | [p] => p
  | p :: rest => p +:+ sep +:+ join sep rest
  end.

Section Coercions.
Context {host : Host}.

(** [String(v)]. *)
Fixpoint to_string (v : value) : string :=
  match v with
  | VUndefined => "undefined"
  | VNull => "null"
  | VBool true => "true"
  | VBool false => "false"
  | VNum n => number_to_string n
  | VStr s => s
  | VArr items =>
      join ","
        (List.map (fun item =>
                     match item with
                     | VUndefined | VNull => ""
                     | other => to_string other
                     end) items)
  | VObj => "[object Object]"
  end.

(** [items.join(sep)]: [null] and [undefined] print as nothing. *)
Definition array_join (sep : string) (items : list value) : string :=
  join sep
    (List.map (fun item =>
                 match item with
                 | VUndefined | VNull => ""
                 | other => to_string other
                 end) items).

(** [Number(v)]. *)
Definition to_number (v : value) : num :=
  match v with
  | VUndefined => NaN
  | VNull => of_Z 0
  | VBool true => of_Z 1
  | VBool false => of_Z 0
  | VNum n => n
  | VStr s => string_to_number s
  | VArr items => string_to_number (array_join "," items)
  | VObj => NaN
  end.
End Coercions.

(** [Boolean(v)]. *)
Definition truthy (v : value) : bool :=
  match v with
  | VUndefined | VNull => false
  | VBool b => b
  | VNum NaN => false
  | VNum (Fin q) => negb (Qeq_bool q 0)
  | VNum _ => true
  | VStr s => negb (String.eqb s "")
  | VArr _ | VObj => true
  end.

(** What [JSON.parse(JSON.stringify(v))] returns for a value inside an
    object or array: numbers that are not finite come back as [null], an
    [undefined] array item comes back as [null]. *)
Fixpoint json_value (v : value) : value :=
  match v with
  | VUndefined => VNull
  | VNum (Fin q) => VNum (Fin q)
  | VNum _ => VNull
  | VArr items => VArr (List.map json_value items)
  | other => other
  end.

(** The same for an object: a property whose value is [undefined] is left
    out of the text. *)
Definition json_object (o : obj) : obj :=
  omap (fun v => match v with
                 | VUndefined => None
                 | other => Some (json_value other)
                 end) o.

End JS.

(* ===================================================================== *)
(** ** Text helpers                                                      *)
(* ===================================================================== *)

Module Text.

(** A string is the list of the bytes of its UTF-8 form, so that a
    character is one byte or several.  The characters with a code below
    128 are one byte each, and no byte of a longer character is below
    128: splitting and comparing at such characters is the same on the
    bytes as on the characters. *)

Definition bytes (codes : list nat) : list ascii := List.map ascii_of_nat codes.

(** The white space of JavaScript, which [trim] strips and the class [\s]
    matches: the code points 9 to 13 and 32, U+00A0, U+1680, U+2000 to
    U+200A, U+2028, U+2029, U+202F, U+205F, U+3000 and U+FEFF, each as
    the bytes of its UTF-8 form. *)
Definition white_space : list (list ascii) :=
  List.map bytes
    [ [9]; [10]; [11]; [12]; [13]; [32];
      [194; 160];
      [225; 154; 128];
      [226; 128; 128]; [226; 128; 129]; [226; 128; 130]; [226; 128; 131];
      [226; 128; 132]; [226; 128; 133]; [226; 128; 134]; [226; 128; 135];
      [226; 128; 136]; [226; 128; 137]; [226; 128; 138];
      [226; 128; 168]; [226; 128; 169]; [226; 128; 175];
      [226; 129; 159];
      [227; 128; 128];
      [239; 187; 191] ]%nat.

(** What is left of [cs] after [mark], when [cs] begins with it. *)
Fixpoint after (mark cs : list ascii) : option (list ascii) :=
  match mark, cs with
  | [], _ => Some cs
  | m :: mark', c :: cs' => if Ascii.eqb m c then after mark' cs' else None
  | _ :: _, [] => None
  end.

(** What is left of [cs] after the first of [marks] it begins with. *)
Fixpoint after_one (marks : list (list ascii)) (cs : list ascii)
  : option (list ascii) :=
  match marks with
  | [] => None
  | mark :: others =>
      match after mark cs with
      | Some tail => Some tail
      | None => after_one others cs
      end
  end.

(** [cs] without the [marks] it begins with, one after the other; [fuel]
    bounds their number, and the length of [cs] is enough. *)
Fixpoint drop_go (fuel : nat) (marks : list (list ascii)) (cs : list ascii)
  : list ascii :=
  match fuel with
  | O => cs
  | S fuel' =>
      match after_one marks cs with
      | Some tail => drop_go fuel' marks tail
      | None => cs
      end
  end.

Definition drop (marks : list (list ascii)) (cs : list ascii) : list ascii :=
  drop_go (length cs) marks cs.

(** The white space read from the end of a string towards its start. *)
Definition white_space_back : list (list ascii) := List.map (@rev ascii) white_space.

(** [s.trim()]. *)
Definition trim (s : string) : string :=
  string_of_list_ascii
    (rev (drop white_space_back (rev (drop white_space (list_ascii_of_string s))))).

Definition lower_char (c : ascii) : ascii :=
  let n := nat_of_ascii c in
  if (Nat.leb 65 n && Nat.leb n 90)%bool then ascii_of_nat (n + 32) else c.

(** [s.toLowerCase()] for a string of characters below 128, as the
    matches of the address pattern are: the letters A to Z are the only
    ones of these that have a lower case.  Any other string is lowered by
    [to_lower_case] of the engine. *)
Fixpoint toLowerCase (s : string) : string :=
  match s with
  | EmptyString => EmptyString
  | String c rest => String (lower_char c) (toLowerCase rest)
  end.

(** [s.split(/[...]+/)] for a class [sep] of characters below 128: the
    pieces between maximal runs of separators.  [cur] is the piece being
    read, kept in reverse; [after_sep] tells that the previous character
    was a separator. *)
Fixpoint split_go (sep : ascii -> bool) (cur : list ascii) (after_sep : bool)
         (s : string) : list string :=
  match s with
  | EmptyString => [string_of_list_ascii (rev cur)]
  | String c rest =>
      if sep c then
        if after_sep then split_go sep [] true rest
        else string_of_list_ascii (rev cur) :: split_go sep [] true rest
      else split_go sep (c :: cur) false rest
  end.

Definition split (sep : ascii -> bool) (s : string) : list string :=
  split_go sep [] false s.

(** The same for a class that holds characters of several bytes, given by
    the byte strings [marks] of its characters; [fuel] bounds the number
    of steps, and one more than the length of [cs] is enough. *)
Fixpoint split_marks_go (fuel : nat) (marks : list (list ascii))
         (cur : list ascii) (after_sep : bool) (cs : list ascii) : list string :=
  match fuel, cs with
  | O, _ | _, [] => [string_of_list_ascii (rev cur)]
  | S fuel', c :: rest =>
      match after_one marks cs with
      | Some tail =>
          if after_sep then split_marks_go fuel' marks [] true tail
          else string_of_list_ascii (rev cur)
               :: split_marks_go fuel' marks [] true tail
      | None => split_marks_go fuel' marks (c :: cur) false rest
      end
  end.

Definition split_marks (marks : list (list ascii)) (s : string) : list string :=
  let cs := list_ascii_of_string s in
  split_marks_go (S (length cs)) marks [] false cs.

Definition nonempty (s : string) : bool := negb (String.eqb s "").

End Text.


(* ===================================================================== *)
(** ** Discovery settings                                                *)
(* ===================================================================== *)

Module Settings.
Import JS.

Definition DEFAULT_DISCOVERY_KEYWORDS : string :=
  "crypto, bitcoin, ethereum, defi, altcoin, memecoin, onchain, crypto trading".

(** The class [[\n,]]. *)
Definition keyword_separator (c : ascii) : bool :=
  let n := nat_of_ascii c in (Nat.eqb n 10 || Nat.eqb n 44)%bool.

(** The class [[\s,]]. *)
Definition language_separator : list (list ascii) :=
  (Text.white_space ++ [Text.bytes [44%nat]])%list.

Definition parseDiscoveryKeywords (text : string) : list string :=
  if String.eqb text "" then []
  else List.filter Text.nonempty
         (List.map Text.trim (Text.split keyword_separator text)).

Definition parseDiscoveryDenyLanguages {host : Host} (text : string)
  : list string :=
  if String.eqb text "" then []
  else List.filter Text.nonempty
         (List.map (fun value => to_lower_case (Text.trim value))
            (Text.split_marks language_separator text)).

Record DiscoverySettings : Type := {
  keywordsText : string;
  keywords : list string;
  perKeyword : num;
  lastUploadMaxAgeDays : option num;
  denyLanguagesText : string;
  denyLanguages : list string;
  enrichLimit : option num;
  autoEnrichEnabled : bool;
  autoEnrichMode : string;
  runUntilStopped : bool;
}.

Definition defaultDiscoverySettingsState : DiscoverySettings := {|
  keywordsText := DEFAULT_DISCOVERY_KEYWORDS;
  keywords := parseDiscoveryKeywords DEFAULT_DISCOVERY_KEYWORDS;
  perKeyword := of_Z 5;
  lastUploadMaxAgeDays := None;
  denyLanguagesText := "";
  denyLanguages := [];
  autoEnrichEnabled := false;
  autoEnrichMode := "email_only";
  enrichLimit := None;
  runUntilStopped := false;
|}.

Definition nullable (n : option num) : value :=
  match n with Some x => VNum x | None => VNull end.

(** A settings record seen as the JavaScript object it is. *)
Definition as_object (s : DiscoverySettings) : obj :=
  <["keywordsText" := VStr (keywordsText s)]>
  (<["keywords" := VArr (List.map VStr (keywords s))]>
  (<["perKeyword" := VNum (perKeyword s)]>
  (<["lastUploadMaxAgeDays" := nullable (lastUploadMaxAgeDays s)]>
  (<["denyLanguagesText" := VStr (denyLanguagesText s)]>
  (<["denyLanguages" := VArr (List.map VStr (denyLanguages s))]>
  (<["enrichLimit" := nullable (enrichLimit s)]>
  (<["autoEnrichEnabled" := VBool (autoEnrichEnabled s)]>
  (<["autoEnrichMode" := VStr (autoEnrichMode s)]>
  (<["runUntilStopped" := VBool (runUntilStopped s)]> ∅))))))))).

Section Normalise.
Context {host : Host}.

(** The block that [normalizeDiscoverySettings] runs once for
    [lastUploadMaxAgeDays] and once for [enrichLimit]: a number is kept when
    it is positive, a non-blank string when it converts to a positive
    number, and the kept value is rounded down. *)
Definition positiveOrNull (raw : value) : option num :=
  match raw with
  | VNum n => if gt n (of_Z 0) then Some (floor n) else None
  | VStr s =>
      if Text.nonempty (Text.trim s) then
        let parsed := to_number (VStr s) in
        if negb (isNaN parsed) && gt parsed (of_Z 0) then Some (floor parsed)
        else None
      else None
  | _ => None
  end.

Definition normalizeDiscoverySettings (raw : obj) : DiscoverySettings :=
  let defaults := defaultDiscoverySettingsState in
  let keywordsText :=
    match prop raw "keywordsText" with
    | VStr s => s
    | _ => match prop raw "keywords" with
           | VArr items => array_join ", " items
           | _ => keywordsText defaults
           end
    end in
  let keywords := parseDiscoveryKeywords keywordsText in
  let perKeywordRaw := to_number (prop raw "perKeyword") in
  let perKeyword :=
    if isNaN perKeywordRaw || le perKeywordRaw (of_Z 0)
    then perKeyword defaults
    else max (of_Z 1) (floor perKeywordRaw) in
  let lastUploadMaxAgeDays := positiveOrNull (prop raw "lastUploadMaxAgeDays") in
  let denyLanguagesText :=
    match prop raw "denyLanguagesText" with
    | VStr s => s
    | _ => match prop raw "denyLanguages" with
           | VArr items => array_join ", " items
           | _ => ""
           end
    end in
  let denyLanguages := parseDiscoveryDenyLanguages denyLanguagesText in
  let enrichLimit := positiveOrNull (prop raw "enrichLimit") in
  let autoEnrichMode :=
    match prop raw "autoEnrichMode" with
    | VStr s => if String.eqb s "full" then "full" else "email_only"
    | _ => "email_only"
    end in
  let autoEnrichEnabled := truthy (prop raw "autoEnrichEnabled") in
  let runUntilStopped := truthy (prop raw "runUntilStopped") in
  {| keywordsText := keywordsText;
     keywords := keywords;
     perKeyword := perKeyword;
     lastUploadMaxAgeDays := lastUploadMaxAgeDays;
     denyLanguagesText := denyLanguagesText;
     denyLanguages := denyLanguages;
     enrichLimit := enrichLimit;
     autoEnrichEnabled := autoEnrichEnabled;
     autoEnrichMode := autoEnrichMode;
     runUntilStopped := runUntilStopped |}.

(** What [localStorage] holds under the settings key, as [JSON.parse] sees
    it. *)
Inductive Stored : Type :=
| NoItem                 (* no storage, no item, or an empty text *)
| BadJson                (* a text that [JSON.parse] rejects *)
| JsonObject (o : obj)   (* a text that parses to a plain object *)
| JsonOther.             (* a text that parses to a primitive or an array *)

Definition loadDiscoverySettings (stored : Stored) : DiscoverySettings :=
  let defaults := defaultDiscoverySettingsState in
  match stored with
  | NoItem => defaults
  | BadJson => defaults
  | JsonObject parsed =>
      normalizeDiscoverySettings (spread (as_object defaults) parsed)
  | JsonOther =>
      normalizeDiscoverySettings (spread (as_object defaults) ∅)
  end.

(** [setItem(key, JSON.stringify(settings))], read back through
    [JSON.parse]. *)
Definition saveDiscoverySettings (settings : DiscoverySettings) : Stored :=
  JsonObject (json_object (as_object settings)).

(** [collectDiscoveryInputsFromSettings]: [None] is the [null] returned,
    after the notice, when there is no keyword. *)
Record DiscoveryInputs : Type := {
  in_keywords : list string;
  in_perKeyword : num;
  in_denyLanguages : list string;
  in_lastUploadMaxAgeDays : option num;
}.

Definition collectDiscoveryInputsFromSettings (settings : DiscoverySettings)
  : option DiscoveryInputs :=
  match keywords settings with
  | [] => None
  | _ :: _ =>
      let n := perKeyword settings in
      let n_or_1 := if truthy (VNum n) then n else of_Z 1 in
      Some {| in_keywords := keywords settings;
              in_perKeyword := max (of_Z 1) (floor n_or_1);
              in_denyLanguages := denyLanguages settings;
              in_lastUploadMaxAgeDays := lastUploadMaxAgeDays settings |}
  end.

(** The object found in storage after a save, under the defaults. *)
Definition stored_object (s : DiscoverySettings) : obj :=
  spread (as_object defaultDiscoverySettingsState) (json_object (as_object s)).

End Normalise.

(** The shape the settings are meant to have: a number that counts is a
    whole number, one or more. *)
Definition whole_positive (n : num) : Prop :=
  exists z : Z, n = of_Z z /\ 1 <= z.

Definition optional_whole_positive (n : option num) : Prop :=
  forall x, n = Some x -> whole_positive x.

Definition well_shaped (s : DiscoverySettings) : Prop :=
  whole_positive (perKeyword s)
  /\ optional_whole_positive (lastUploadMaxAgeDays s)
  /\ optional_whole_positive (enrichLimit s)
  /\ (autoEnrichMode s = "full" \/ autoEnrichMode s = "email_only")
  /\ keywords s = parseDiscoveryKeywords (keywordsText s).

(** Inputs on which the rounding of [positiveOrNull] cannot leave the
    integers from one on: not between 0 and 1, not infinite. *)
Definition tame (n : num) : bool :=
  match n with
  | PosInf => false
  | Fin q => Qle_bool q 0 || Qle_bool 1 q
  | _ => true
  end.

(** The stored object [{ "enrichLimit": 0.5 }], over the defaults. *)
Definition half_limit : JS.obj :=
  <["enrichLimit" := VNum (Fin (1 # 2))]> (as_object defaultDiscoverySettingsState).

Definition tame_value {host : Host} (v : value) : Prop :=
  match v with
  | VNum n => tame n = true
  | VStr s => tame (string_to_number s) = true
  | _ => True
  end.

End Settings.


(* ===================================================================== *)
(** ** The unique-email filter                                           *)
(* ===================================================================== *)

Module Emails.
Import JS.

(** A table row: its [emails] column ([None] when the column is [null] or
    missing) and everything else. *)
Record Row (Fields : Type) : Type := {
  fields : Fields;
  emails : option string;
}.
Arguments fields {Fields} _.
Arguments emails {Fields} _.

Section Filter.
Context {host : Host} {Fields : Type}.

Definition extractEmails (text : string) : list string :=
  if String.eqb text "" then []
  else match match_email_regex text with
       | Some matches =>
           List.filter Text.nonempty (List.map Text.trim matches)
       | None => []
       end.

(** [extractEmails(item.emails || '')]. *)
Definition found_in (item : Row Fields) : list string :=
  extractEmails (default "" (emails item)).

(** The inner loop: [seen] and the row's [unique] list after one email. *)
Definition keep_unseen (acc : gset string * list string) (email : string)
  : gset string * list string :=
  let key := Text.toLowerCase email in
  if decide (key ∈ acc.1) then acc
  else ({[key]} ∪ acc.1, (acc.2 ++ [email])%list).

(** The outer loop: [seen] and [filtered] after one row. *)
Definition visit_row (acc : gset string * list (Row Fields)) (item : Row Fields)
  : gset string * list (Row Fields) :=
  match found_in item with
  | [] => acc
  | found =>
      let inner := fold_left keep_unseen found (acc.1, []) in
      match inner.2 with
      | [] => (inner.1, acc.2)
      | unique =>
          (inner.1,
           (acc.2 ++ [{| fields := fields item;
                         emails := Some (join ", " unique) |}])%list)
      end
  end.

Definition applyUniqueEmailFilter (items : list (Row Fields))
  : list (Row Fields) :=
  (fold_left visit_row items (∅, [])).2.

(** The same walk, keeping next to each retained row the list [unique] that
    was joined into its [emails] column. *)
Fixpoint unseen (seen : gset string) (found : list string) : list string :=
  match found with
  | [] => []
  | email :: rest =>
      let key := Text.toLowerCase email in
      if decide (key ∈ seen) then unseen seen rest
      else email :: unseen ({[key]} ∪ seen) rest
  end.

Definition keys_of (found : list string) : gset string :=
  list_to_set (List.map Text.toLowerCase found).

Fixpoint retained (seen : gset string) (items : list (Row Fields))
  : list (Row Fields * list string) :=
  match items with
  | [] => []
  | item :: rest =>
      let found := found_in item in
      match unseen seen found with
      | [] => retained (keys_of found ∪ seen) rest
      | unique => (item, unique) :: retained (keys_of found ∪ seen) rest
      end
  end.

Definition rendered (kept : Row Fields * list string) : Row Fields :=
  {| fields := fields kept.1; emails := Some (join ", " kept.2) |}.

(** First occurrence wins, said directly: an address is kept when no
    earlier address of the whole table has the same lower-case form. *)
Fixpoint first_occurrences (earlier : list string) (found : list string)
  : list string :=
  match found with
  | [] => []
  | email :: rest =>
      if decide (Text.toLowerCase email ∈ List.map Text.toLowerCase earlier)
      then first_occurrences earlier rest
      else email :: first_occurrences (earlier ++ [email])%list rest
  end.

End Filter.
End Emails.


(* ===================================================================== *)
(** ** The dashboard controller                                          *)
(* ===================================================================== *)

Module Dash.
Import JS Settings.

Inductive Category : Type := Active | Archived | Blacklisted.

Inductive Menu : Type := EnrichMenu | ImportExportMenu.

Inductive Tone : Type := Info | Success | Error.

(** [discoveryLoopStats]. *)
Record LoopStats : Type := { runs : Z; found : Z }.

(** The record kept in [discoveryLoopCompletionPayload], and the body sent
    to [notifyDiscoveryLoopComplete]: both have the fields [runs],
    [discovered], [reason], [error], [message]. *)
Record Completion : Type := {
  c_runs : Z;
  c_discovered : Z;
  c_reason : option string;
  c_error : bool;
  c_message : option string;
}.

(** The fields of [this] that the handlers below read or write.  Writes to
    the page (buttons, progress and summary bars, counters, table rows) are
    left out; what the status bar shows and what is asked of the server is
    kept in the log of effects. *)

Record Dashboard : Type := {
  activeTab : Category;
  activeDropdown : option Menu;
  enrichmentBusy : bool;
  discoveryLoopActive : bool;
  discoveryLoopStopping : bool;
  discoveryLoopStats : LoopStats;
  pendingAutoEnrich : Z;
  autoEnrichQueuedNotified : bool;
  discoverySettings : DiscoverySettings;
  statsPromise : bool;
  lastLoopCompletionVersion : option Z;
  discoveryLoopCompletionPayload : option Completion;
  finalizingDiscoveryLoop : bool;
  discoveryLoopCompletionSent : bool;
}.

Definition set_activeDropdown (v : option Menu) (d : Dashboard) : Dashboard :=
  {| activeTab := activeTab d; activeDropdown := v; enrichmentBusy :=
     enrichmentBusy d; discoveryLoopActive := discoveryLoopActive d;
     discoveryLoopStopping := discoveryLoopStopping d; discoveryLoopStats
     := discoveryLoopStats d; pendingAutoEnrich := pendingAutoEnrich d;
     autoEnrichQueuedNotified := autoEnrichQueuedNotified d;
     discoverySettings := discoverySettings d; statsPromise :=
     statsPromise d; lastLoopCompletionVersion :=
     lastLoopCompletionVersion d; discoveryLoopCompletionPayload :=
     discoveryLoopCompletionPayload d; finalizingDiscoveryLoop :=
     finalizingDiscoveryLoop d; discoveryLoopCompletionSent :=
     discoveryLoopCompletionSent d |}.

Definition set_enrichmentBusy (v : bool) (d : Dashboard) : Dashboard :=
  {| activeTab := activeTab d; activeDropdown := activeDropdown d;
     enrichmentBusy := v; discoveryLoopActive := discoveryLoopActive d;
     discoveryLoopStopping := discoveryLoopStopping d; discoveryLoopStats
     := discoveryLoopStats d; pendingAutoEnrich := pendingAutoEnrich d;
     autoEnrichQueuedNotified := autoEnrichQueuedNotified d;
     discoverySettings := discoverySettings d; statsPromise :=
     statsPromise d; lastLoopCompletionVersion :=
     lastLoopCompletionVersion d; discoveryLoopCompletionPayload :=
     discoveryLoopCompletionPayload d; finalizingDiscoveryLoop :=
     finalizingDiscoveryLoop d; discoveryLoopCompletionSent :=
     discoveryLoopCompletionSent d |}.

Definition set_discoveryLoopActive (v : bool) (d : Dashboard) : Dashboard :=
  {| activeTab := activeTab d; activeDropdown := activeDropdown d;
     enrichmentBusy := enrichmentBusy d; discoveryLoopActive := v;
     discoveryLoopStopping := discoveryLoopStopping d; discoveryLoopStats
     := discoveryLoopStats d; pendingAutoEnrich := pendingAutoEnrich d;
     autoEnrichQueuedNotified := autoEnrichQueuedNotified d;
     discoverySettings := discoverySettings d; statsPromise :=
     statsPromise d; lastLoopCompletionVersion :=
     lastLoopCompletionVersion d; discoveryLoopCompletionPayload :=
     discoveryLoopCompletionPayload d; finalizingDiscoveryLoop :=
     finalizingDiscoveryLoop d; discoveryLoopCompletionSent :=
     discoveryLoopCompletionSent d |}.

Definition set_discoveryLoopStopping (v : bool) (d : Dashboard) : Dashboard :=
  {| activeTab := activeTab d; activeDropdown := activeDropdown d;
     enrichmentBusy := enrichmentBusy d; discoveryLoopActive :=
     discoveryLoopActive d; discoveryLoopStopping := v; discoveryLoopStats
     := discoveryLoopStats d; pendingAutoEnrich := pendingAutoEnrich d;
     autoEnrichQueuedNotified := autoEnrichQueuedNotified d;
     discoverySettings := discoverySettings d; statsPromise :=
     statsPromise d; lastLoopCompletionVersion :=
     lastLoopCompletionVersion d; discoveryLoopCompletionPayload :=
     discoveryLoopCompletionPayload d; finalizingDiscoveryLoop :=
     finalizingDiscoveryLoop d; discoveryLoopCompletionSent :=
     discoveryLoopCompletionSent d |}.

Definition set_discoveryLoopStats (v : LoopStats) (d : Dashboard) : Dashboard :=
  {| activeTab := activeTab d; activeDropdown := activeDropdown d;
     enrichmentBusy := enrichmentBusy d; discoveryLoopActive :=
     discoveryLoopActive d; discoveryLoopStopping := discoveryLoopStopping
     d; discoveryLoopStats := v; pendingAutoEnrich := pendingAutoEnrich d;
     autoEnrichQueuedNotified := autoEnrichQueuedNotified d;
     discoverySettings := discoverySettings d; statsPromise :=
     statsPromise d; lastLoopCompletionVersion :=
     lastLoopCompletionVersion d; discoveryLoopCompletionPayload :=
     discoveryLoopCompletionPayload d; finalizingDiscoveryLoop :=
     finalizingDiscoveryLoop d; discoveryLoopCompletionSent :=
     discoveryLoopCompletionSent d |}.

Definition set_pendingAutoEnrich (v : Z) (d : Dashboard) : Dashboard :=
  {| activeTab := activeTab d; activeDropdown := activeDropdown d;
     enrichmentBusy := enrichmentBusy d; discoveryLoopActive :=
     discoveryLoopActive d; discoveryLoopStopping := discoveryLoopStopping
     d; discoveryLoopStats := discoveryLoopStats d; pendingAutoEnrich :=
     v; autoEnrichQueuedNotified := autoEnrichQueuedNotified d;
     discoverySettings := discoverySettings d; statsPromise :=
     statsPromise d; lastLoopCompletionVersion :=
     lastLoopCompletionVersion d; discoveryLoopCompletionPayload :=
     discoveryLoopCompletionPayload d; finalizingDiscoveryLoop :=
     finalizingDiscoveryLoop d; discoveryLoopCompletionSent :=
     discoveryLoopCompletionSent d |}.

Definition set_autoEnrichQueuedNotified (v : bool) (d : Dashboard) : Dashboard :=
  {| activeTab := activeTab d; activeDropdown := activeDropdown d;
     enrichmentBusy := enrichmentBusy d; discoveryLoopActive :=
     discoveryLoopActive d; discoveryLoopStopping := discoveryLoopStopping
     d; discoveryLoopStats := discoveryLoopStats d; pendingAutoEnrich :=
     pendingAutoEnrich d; autoEnrichQueuedNotified := v; discoverySettings
     := discoverySettings d; statsPromise := statsPromise d;
     lastLoopCompletionVersion := lastLoopCompletionVersion d;
     discoveryLoopCompletionPayload := discoveryLoopCompletionPayload d;
     finalizingDiscoveryLoop := finalizingDiscoveryLoop d;
     discoveryLoopCompletionSent := discoveryLoopCompletionSent d |}.

Definition set_statsPromise (v : bool) (d : Dashboard) : Dashboard :=
  {| activeTab := activeTab d; activeDropdown := activeDropdown d;
     enrichmentBusy := enrichmentBusy d; discoveryLoopActive :=
     discoveryLoopActive d; discoveryLoopStopping := discoveryLoopStopping
     d; discoveryLoopStats := discoveryLoopStats d; pendingAutoEnrich :=
     pendingAutoEnrich d; autoEnrichQueuedNotified :=
     autoEnrichQueuedNotified d; discoverySettings := discoverySettings d;
     statsPromise := v; lastLoopCompletionVersion :=
     lastLoopCompletionVersion d; discoveryLoopCompletionPayload :=
     discoveryLoopCompletionPayload d; finalizingDiscoveryLoop :=
     finalizingDiscoveryLoop d; discoveryLoopCompletionSent :=
     discoveryLoopCompletionSent d |}.

Definition set_lastLoopCompletionVersion (v : option Z) (d : Dashboard) : Dashboard :=
  {| activeTab := activeTab d; activeDropdown := activeDropdown d;
     enrichmentBusy := enrichmentBusy d; discoveryLoopActive :=
     discoveryLoopActive d; discoveryLoopStopping := discoveryLoopStopping
     d; discoveryLoopStats := discoveryLoopStats d; pendingAutoEnrich :=
     pendingAutoEnrich d; autoEnrichQueuedNotified :=
     autoEnrichQueuedNotified d; discoverySettings := discoverySettings d;
     statsPromise := statsPromise d; lastLoopCompletionVersion := v;
     discoveryLoopCompletionPayload := discoveryLoopCompletionPayload d;
     finalizingDiscoveryLoop := finalizingDiscoveryLoop d;
     discoveryLoopCompletionSent := discoveryLoopCompletionSent d |}.

Definition set_discoveryLoopCompletionPayload (v : option Completion) (d : Dashboard) : Dashboard :=
  {| activeTab := activeTab d; activeDropdown := activeDropdown d;
     enrichmentBusy := enrichmentBusy d; discoveryLoopActive :=
     discoveryLoopActive d; discoveryLoopStopping := discoveryLoopStopping
     d; discoveryLoopStats := discoveryLoopStats d; pendingAutoEnrich :=
     pendingAutoEnrich d; autoEnrichQueuedNotified :=
     autoEnrichQueuedNotified d; discoverySettings := discoverySettings d;
     statsPromise := statsPromise d; lastLoopCompletionVersion :=
     lastLoopCompletionVersion d; discoveryLoopCompletionPayload := v;
     finalizingDiscoveryLoop := finalizingDiscoveryLoop d;
     discoveryLoopCompletionSent := discoveryLoopCompletionSent d |}.

Definition set_finalizingDiscoveryLoop (v : bool) (d : Dashboard) : Dashboard :=
  {| activeTab := activeTab d; activeDropdown := activeDropdown d;
     enrichmentBusy := enrichmentBusy d; discoveryLoopActive :=
     discoveryLoopActive d; discoveryLoopStopping := discoveryLoopStopping
     d; discoveryLoopStats := discoveryLoopStats d; pendingAutoEnrich :=
     pendingAutoEnrich d; autoEnrichQueuedNotified :=
     autoEnrichQueuedNotified d; discoverySettings := discoverySettings d;
     statsPromise := statsPromise d; lastLoopCompletionVersion :=
     lastLoopCompletionVersion d; discoveryLoopCompletionPayload :=
     discoveryLoopCompletionPayload d; finalizingDiscoveryLoop := v;
     discoveryLoopCompletionSent := discoveryLoopCompletionSent d |}.

Definition set_discoveryLoopCompletionSent (v : bool) (d : Dashboard) : Dashboard :=
  {| activeTab := activeTab d; activeDropdown := activeDropdown d;
     enrichmentBusy := enrichmentBusy d; discoveryLoopActive :=
     discoveryLoopActive d; discoveryLoopStopping := discoveryLoopStopping
     d; discoveryLoopStats := discoveryLoopStats d; pendingAutoEnrich :=
     pendingAutoEnrich d; autoEnrichQueuedNotified :=
     autoEnrichQueuedNotified d; discoverySettings := discoverySettings d;
     statsPromise := statsPromise d; lastLoopCompletionVersion :=
     lastLoopCompletionVersion d; discoveryLoopCompletionPayload :=
     discoveryLoopCompletionPayload d; finalizingDiscoveryLoop :=
     finalizingDiscoveryLoop d; discoveryLoopCompletionSent := v |}.

#[export] Instance Category_eq_dec : EqDecision Category.
Proof. solve_decision. Defined.

#[export] Instance Menu_eq_dec : EqDecision Menu.
Proof. solve_decision. Defined.

(** The texts shown in the status bar. *)
Inductive Notice : Type :=
| LoopAlreadyRunning          (* 'Discovery loop is already running.' *)
| ProvideKeyword              (* 'Please provide at least one keyword.' *)
| LoopStarted                 (* 'Discovery loop started. Click stop to finish.' *)
| StoppingAfterRun            (* 'Stopping discovery after current run…' *)
| DiscoveryStarting (label : option Z)
                              (* 'Starting discovery…', after 'Run #i: ' in a loop *)
| Discovered (label : option Z) (found blacklisted : Z)
                              (* 'Discovered n new channels.' and its variants *)
| DiscoveryFailed (label : option Z)
                              (* the error text, or 'Discovery failed.' *)
| RunTotal (runIndex discovered total : Z)
                              (* 'Run #i: Discovered n new channels. Total discovered: t.' *)
| LoopStoppedAfter (finalRuns finalFound : Z)
                              (* 'Discovery loop stopped after r runs with n new channels.' *)
| LoopStopped                 (* 'Discovery loop stopped.' *)
| AutoEnrichQueued            (* 'Auto-enrich queued until the current enrichment finishes.' *)
| EnrichLimitMustBePositive   (* 'Enrichment limit must be a positive number.' *)
| EnrichmentStarted (job : string) (auto : bool) (limit : option num) (skipped : Z)
                              (* 'Enrichment job j started.' and its variants *)
| EnrichmentFailed            (* the error text, or 'Failed to start enrichment.' *)
| SkippedRecently (skipped : Z)
                              (* 'Skipped n channels because they were recently enriched without emails.' *)
| ConnectionLost              (* 'Connection lost to enrichment stream.' *)
| StatsFailed                 (* 'Failed to load statistics.' *)
| LoopFinishedRefreshed       (* 'Discovery loop finished. Data refreshed.' *)
| LoopStoppedRefreshed        (* 'Discovery loop stopped. Data refreshed.' *)
| LoopCompletedRefreshed      (* 'Discovery loop completed. Data refreshed.' *)
| LoopErrorsRefreshed.        (* 'Discovery loop ended with errors. Data refreshed.' *)

(** Requests to the server, by the function of [api.js] that sends them. *)
Inductive Api : Type :=
| discoverChannels (inputs : DiscoveryInputs)
| startEnrichment (mode : string) (limit : option num)
| fetchStats
| fetchChannels (category : Category)
| notifyDiscoveryLoopStart
| notifyDiscoveryLoopProgress (runs discovered : Z)
| notifyDiscoveryLoopStop
| notifyDiscoveryLoopComplete (request : Completion).

Inductive Callback : Type := RetryFinalize.

Inductive Effect : Type :=
| StatusBar (notice : Notice) (tone : Tone)
| Call (request : Api)
| OpenStream (job : string) (total : Z)
| Wait (ms : Z)                      (* [this.delay(ms)] *)
| SetTimeout (callback : Callback) (ms : Z).

(** *** A handler: a step on the controller that logs its effects *)

Definition M (A : Type) : Type := Dashboard -> A * Dashboard * list Effect.

#[export] Instance M_ret : MRet M := fun A (a : A) d => (a, d, []).

#[export] Instance M_bind : MBind M := fun A B (f : A -> M B) (m : M A) d =>
  let '(a, d1, log1) := m d in
  let '(b, d2, log2) := f a d1 in
  (b, d2, (log1 ++ log2)%list).

Definition this : M Dashboard := fun d => (d, d, []).

Definition update (f : Dashboard -> Dashboard) : M unit := fun d => (tt, f d, []).

Definition emit (e : Effect) : M unit := fun d => (tt, d, [e]).

Definition skip : M unit := mret tt.

Definition updateStatusBar (notice : Notice) (tone : Tone) : M unit :=
  emit (StatusBar notice tone).

(** The state and the log a handler leaves. *)
Definition state_after {A} (m : M A) (d : Dashboard) : Dashboard := (m d).1.2.
Definition log_of {A} (m : M A) (d : Dashboard) : list Effect := (m d).2.
Definition result_of {A} (m : M A) (d : Dashboard) : A := (m d).1.1.

(** *** Enrichment: manual start, automatic start, the queue *)

Definition closeDropdown (menu : Menu) : M unit :=
  d ← this;
  if decide (activeDropdown d = Some menu)
  then update (set_activeDropdown None)
  else skip.

(** The two ways [handleEnrich] is called: from the enrich buttons, with no
    overrides, and from [triggerAutoEnrich], with
    [{ limitOverride: count, autoTriggered: true }]. *)
Inductive Overrides : Type :=
| ByUser
| AutoTriggered (limitOverride : Z).

(** The answer of [startEnrichment]. *)
Record EnrichmentJob : Type := { jobId : string; total : Z; skipped : Z }.

Definition non_positive (limitValue : option num) : bool :=
  match limitValue with
  | Some n => isNaN n || le n (of_Z 0)
  | None => false
  end.

(** [handleEnrich] up to the request: [Some limitValue] when
    [startEnrichment(mode, limitValue, options)] has been sent. *)
Definition handleEnrich_begin (mode : string) (overrides : Overrides)
  : M (option (option num)) :=
  closeDropdown EnrichMenu;;
  d ← this;
  if enrichmentBusy d then mret None
  else
    let limitValue :=
      match overrides with
      | AutoTriggered limitOverride => Some (of_Z limitOverride)
      | ByUser => enrichLimit (discoverySettings d)
      end in
    if non_positive limitValue then
      updateStatusBar EnrichLimitMustBePositive Error;;
      mret None
    else
      update (set_enrichmentBusy true);;
      update (set_autoEnrichQueuedNotified false);;
      emit (Call (startEnrichment mode limitValue));;
      mret (Some limitValue).

(** [handleEnrich] from the answer on; [None] is a rejected request. *)
Definition handleEnrich_resume (overrides : Overrides) (limitValue : option num)
           (answer : option EnrichmentJob) : M unit :=
  match answer with
  | Some job =>
      let auto := match overrides with AutoTriggered _ => true | ByUser => false end in
      updateStatusBar (EnrichmentStarted (jobId job) auto limitValue (skipped job)) Success;;
      emit (OpenStream (jobId job) (total job))
  | None =>
      update (set_enrichmentBusy false);;
      match overrides, limitValue with
      | AutoTriggered limitOverride, Some n =>
          if gt n (of_Z 0) then
            d ← this;
            update (set_pendingAutoEnrich (pendingAutoEnrich d + limitOverride));;
            update (set_autoEnrichQueuedNotified false)
          else skip
      | _, _ => skip
      end;;
      updateStatusBar EnrichmentFailed Error
  end.

Definition handleEnrich (mode : string) (overrides : Overrides)
           (answer : option EnrichmentJob) : M unit :=
  sent ← handleEnrich_begin mode overrides;
  match sent with
  | Some limitValue => handleEnrich_resume overrides limitValue answer
  | None => skip
  end.

Definition isAutoEnrichEnabled (d : Dashboard) : bool :=
  autoEnrichEnabled (discoverySettings d).

Definition triggerAutoEnrich (newChannelsCount : Z)
           (answer : option EnrichmentJob) : M unit :=
  let count := newChannelsCount in
  if count <=? 0 then skip
  else
    d ← this;
    if negb (isAutoEnrichEnabled d) then update (set_pendingAutoEnrich 0)
    else if enrichmentBusy d then
      update (set_pendingAutoEnrich (pendingAutoEnrich d + count));;
      if negb (autoEnrichQueuedNotified d) then
        updateStatusBar AutoEnrichQueued Info;;
        update (set_autoEnrichQueuedNotified true)
      else skip
    else
      let mode :=
        if String.eqb (autoEnrichMode (discoverySettings d)) "full"
        then "full" else "email_only" in
      handleEnrich mode (AutoTriggered count) answer.

Definition processPendingAutoEnrich (answer : option EnrichmentJob) : M unit :=
  d ← this;
  if (pendingAutoEnrich d =? 0) || (pendingAutoEnrich d <=? 0) then
    update (set_pendingAutoEnrich 0)
  else if negb (isAutoEnrichEnabled d) then
    update (set_pendingAutoEnrich 0)
  else
    let queued := pendingAutoEnrich d in
    update (set_pendingAutoEnrich 0);;
    update (set_autoEnrichQueuedNotified false);;
    triggerAutoEnrich queued answer.

(** *** Reporting the end of a loop *)

(** [tryFinalizeDiscoveryLoop] up to the request: [Some request] when
    [notifyDiscoveryLoopComplete(request)] has been sent. *)
Definition tryFinalizeDiscoveryLoop_begin : M (option Completion) :=
  d ← this;
  match discoveryLoopCompletionPayload d with
  | None => mret None
  | Some payload =>
      if discoveryLoopActive d || enrichmentBusy d || (0 <? pendingAutoEnrich d)
      then mret None
      else if finalizingDiscoveryLoop d then mret None
      else
        update (set_finalizingDiscoveryLoop true);;
        let request :=
          {| c_runs := c_runs payload;
             c_discovered := c_discovered payload;
             c_reason := c_reason payload;
             c_error := c_error payload;
             c_message := c_message payload |} in
        emit (Call (notifyDiscoveryLoopComplete request));;
        mret (Some request)
  end.

(** [tryFinalizeDiscoveryLoop] from the answer on: [delivered] is false when
    the request was rejected. *)
Definition tryFinalizeDiscoveryLoop_resume (delivered : bool) : M unit :=
  (if delivered then
     update (set_discoveryLoopCompletionPayload None);;
     update (set_discoveryLoopCompletionSent true)
   else emit (SetTimeout RetryFinalize 3000));;
  update (set_finalizingDiscoveryLoop false).

Definition tryFinalizeDiscoveryLoop (delivered : bool) : M unit :=
  sent ← tryFinalizeDiscoveryLoop_begin;
  match sent with
  | Some _ => tryFinalizeDiscoveryLoop_resume delivered
  | None => skip
  end.

(** [queueDiscoveryLoopCompletion({ runs, discovered, reason, error })]; the
    call of [tryFinalizeDiscoveryLoop] that ends it is not awaited, so it
    runs up to its request. *)
Definition queueDiscoveryLoopCompletion (runs discovered : Z) (reason : string)
           (error : bool) : M (option Completion) :=
  update (set_discoveryLoopCompletionPayload
            (Some {| c_runs := runs;
                     c_discovered := discovered;
                     c_reason := if Text.nonempty reason then Some reason else None;
                     c_error := error;
                     c_message := None |}));;
  update (set_discoveryLoopCompletionSent false);;
  tryFinalizeDiscoveryLoop_begin.

(** The attempt made by the timer set after a failure, [attempts] times in
    a row with every request rejected. *)
Fixpoint rejected_attempts (attempts : nat) : M unit :=
  match attempts with
  | O => skip
  | S n => tryFinalizeDiscoveryLoop false;; rejected_attempts n
  end.

(** *** Statistics polling and the refresh after a loop *)

(** What [maybeRefreshAfterLoop] reads in the answer of [fetchStats]:
    [discoveryLoop.running], [discoveryLoop.last_completed_at] ([None] when
    missing or empty), [discoveryLoop.version] ([Some v] when it is a
    number), [discoveryLoop.last_reason], and the two counts
    [Number(statusTotals.processing ?? 0) || 0] and
    [Number(enrichment.activeJobs ?? 0) || 0]. *)
Record Stats : Type := {
  running : bool;
  last_completed_at : option string;
  version : option Z;
  last_reason : string;
  processing : Z;
  activeJobs : Z;
}.

Inductive StatsAnswer : Type :=
| StatsRejected                 (* [fetchStats] threw *)
| StatsEmpty                    (* it returned a falsy body *)
| StatsBody (stats : Stats).

Definition loadTable (category : Category) : M unit :=
  emit (Call (fetchChannels category)).

Definition same_version (version : option Z) (lastSeen : option Z) : bool :=
  match version, lastSeen with
  | Some v, Some seen => v =? seen
  | _, _ => false
  end.

Definition refreshed_notice (reason : string) : Notice * Tone :=
  if String.eqb reason "stopped" then (LoopStoppedRefreshed, Success)
  else if String.eqb reason "completed" then (LoopCompletedRefreshed, Success)
  else if String.eqb reason "error" then (LoopErrorsRefreshed, Error)
  else (LoopFinishedRefreshed, Success).

(** [now] is the value of [Date.now()]. *)
Definition maybeRefreshAfterLoop (stats : option Stats) (now : Z) : M unit :=
  match stats with
  | None => skip
  | Some stats =>
      if running stats then skip
      else if negb (match last_completed_at stats with
                    | Some at_ => Text.nonempty at_
                    | None => false
                    end) then skip
      else if (0 <? processing stats) || (0 <? activeJobs stats) then skip
      else
        d ← this;
        if same_version (version stats) (lastLoopCompletionVersion d) then skip
        else
          update (set_lastLoopCompletionVersion
                    (Some (match version stats with Some v => v | None => now end)));;
          loadTable Active;;
          (if decide (activeTab d = Active) then skip else loadTable (activeTab d));;
          let '(message, tone) := refreshed_notice (last_reason stats) in
          updateStatusBar message tone
  end.

(** [loadStats] up to the request; [false] when a request was already in
    flight and its promise is handed back. *)
Definition loadStats_begin : M bool :=
  d ← this;
  if statsPromise d then mret false
  else
    update (set_statsPromise true);;
    emit (Call fetchStats);;
    mret true.

Definition loadStats_resume (answer : StatsAnswer) (now : Z) : M unit :=
  match answer with
  | StatsBody stats => maybeRefreshAfterLoop (Some stats) now
  | StatsEmpty => maybeRefreshAfterLoop None now
  | StatsRejected => updateStatusBar StatsFailed Error
  end;;
  update (set_statsPromise false).

Definition loadStats (answer : StatsAnswer) (now : Z) : M unit :=
  sent ← loadStats_begin;
  if (sent : bool) then loadStats_resume answer now else skip.

(** *** The enrichment stream *)

(** A ['progress'] message of the stream. *)
Record Progress : Type := {
  p_completed : Z;
  p_skipped : Z;
  p_done : bool;
}.

(** The [done] branch of [onmessage], first part: the job is over, the
    statistics and the tables are reloaded. *)
Definition streamDone_refresh (p : Progress) (stats : StatsAnswer) (now : Z)
  : M unit :=
  update (set_enrichmentBusy false);;
  (if 0 <? p_skipped p then updateStatusBar (SkippedRecently (p_skipped p)) Info
   else skip);;
  loadStats stats now;;
  loadTable Active;;
  d ← this;
  if decide (activeTab d = Active) then skip else loadTable (activeTab d).

(** Second part: the queue of automatic enrichments, then the report of a
    finished loop. *)
Definition streamDone_settle (answer : option EnrichmentJob) (delivered : bool)
  : M unit :=
  update (set_autoEnrichQueuedNotified false);;
  processPendingAutoEnrich answer;;
  tryFinalizeDiscoveryLoop delivered.

(** A ['progress'] message handled with nothing else called on the
    controller before its handler ends; [streamDone], further down, lets
    calls land while the handler waits for the reloads. *)
Definition streamProgress (p : Progress) (stats : StatsAnswer) (now : Z)
           (answer : option EnrichmentJob) (delivered : bool) : M unit :=
  if p_done p then
    streamDone_refresh p stats now;;
    streamDone_settle answer delivered
  else skip.

(** [onerror] of the stream. *)
Definition streamError : M unit :=
  updateStatusBar ConnectionLost Error;;
  update (set_enrichmentBusy false).

(** *** The discovery loop *)

Definition setDiscoveryLoopRunningState (running : bool) : M unit :=
  update (set_discoveryLoopActive running).

Definition stopDiscoveryLoop : M unit :=
  d ← this;
  if negb (discoveryLoopActive d) || discoveryLoopStopping d then skip
  else
    update (set_discoveryLoopStopping true);;
    updateStatusBar StoppingAfterRun Info;;
    emit (Call notifyDiscoveryLoopStop).

(** [startDiscoveryLoop] up to [notifyDiscoveryLoopStart]: [Some inputs]
    when a loop has begun. *)
Definition startDiscoveryLoop_begin (initialInputs : option DiscoveryInputs)
  : M (option DiscoveryInputs) :=
  d ← this;
  if discoveryLoopActive d then
    updateStatusBar LoopAlreadyRunning Info;;
    mret None
  else
    inputs ← match initialInputs with
             | Some given => mret (Some given)
             | None =>
                 match collectDiscoveryInputsFromSettings (discoverySettings d) with
                 | Some collected => mret (Some collected)
                 | None => updateStatusBar ProvideKeyword Error;; mret None
                 end
             end;
    match inputs with
    | None => mret None
    | Some inputs =>
        update (set_discoveryLoopStats {| runs := 0; found := 0 |});;
        update (set_discoveryLoopStopping false);;
        update (set_discoveryLoopCompletionPayload None);;
        update (set_discoveryLoopCompletionSent false);;
        update (set_finalizingDiscoveryLoop false);;
        setDiscoveryLoopRunningState true;;
        updateStatusBar LoopStarted Info;;
        emit (Call notifyDiscoveryLoopStart);;
        mret (Some inputs)
    end.

(** *** One discovery run *)

(** The answer of [discoverChannels]. *)
Record Discovery : Type := { d_found : Z; d_blacklisted : Z }.

(** [performDiscoveryRun] up to the request; [statusLabel] is the number
    of the run when a loop makes it. *)
Definition performDiscoveryRun_begin (inputs : DiscoveryInputs)
           (statusLabel : option Z) : M unit :=
  updateStatusBar (DiscoveryStarting statusLabel) Info;;
  emit (Call (discoverChannels inputs)).

(** [performDiscoveryRun] from the answer on: [None] is a rejected request,
    and the [null] returned for it.  The statistics, the table and the
    automatic enrichment follow with their own answers. *)
Definition performDiscoveryRun_resume (statusLabel : option Z)
           (deferStatusUpdate : bool) (answer : option Discovery)
           (stats : StatsAnswer) (now : Z) (enrich : option EnrichmentJob)
  : M (option Discovery) :=
  match answer with
  | Some response =>
      (if deferStatusUpdate then skip
       else updateStatusBar
              (Discovered statusLabel (d_found response) (d_blacklisted response))
              Success);;
      loadStats stats now;;
      loadTable Active;;
      triggerAutoEnrich (d_found response) enrich;;
      mret (Some response)
  | None =>
      updateStatusBar (DiscoveryFailed statusLabel) Error;;
      mret None
  end.

(** What can be called on the controller while the loop waits: the two
    loop buttons, and the handlers of the enrichment and of the
    statistics, each with the answers it gets. *)
Inductive Interruption : Type :=
| StopCalled                       (* [stopDiscoveryLoop()] *)
| StartCalled (initialInputs : option DiscoveryInputs)
                                   (* [startDiscoveryLoop(..)] *)
| EnrichCalled (mode : string) (answer : option EnrichmentJob)
                                   (* [handleEnrich(mode)] from a button *)
| AutoEnrichCalled (count : Z) (answer : option EnrichmentJob)
                                   (* [triggerAutoEnrich(count)] of an earlier run *)
| StreamProgressed (p : Progress) (stats : StatsAnswer) (now : Z)
                   (answer : option EnrichmentJob) (delivered : bool)
                                   (* a ['progress'] message of the stream *)
| StreamFailed                     (* [onerror] of the stream *)
| StatsPolled (answer : StatsAnswer) (now : Z)
                                   (* [loadStats()] from the poll timer *)
| TimerFired (delivered : bool).   (* the retry of [tryFinalizeDiscoveryLoop] *)

Definition interrupt (i : Interruption) : M unit :=
  match i with
  | StopCalled => stopDiscoveryLoop
  | StartCalled initialInputs => startDiscoveryLoop_begin initialInputs;; skip
  | EnrichCalled mode answer => handleEnrich mode ByUser answer
  | AutoEnrichCalled count answer => triggerAutoEnrich count answer
  | StreamProgressed p stats now answer delivered =>
      streamProgress p stats now answer delivered
  | StreamFailed => streamError
  | StatsPolled answer now => loadStats answer now
  | TimerFired delivered => tryFinalizeDiscoveryLoop delivered
  end.

Fixpoint interrupts (l : list Interruption) : M unit :=
  match l with
  | [] => skip
  | i :: rest => interrupt i;; interrupts rest
  end.


(** One turn of the [while] loop as the environment shapes it: what is
    called while [discoverChannels] is awaited, the answers the run gets
    (from [discoverChannels], [fetchStats], [Date.now()] and
    [startEnrichment]), what is called while the progress report is
    awaited, and what is called during the delay. *)
Record Turn : Type := {
  during_run : list Interruption;
  discovered : option Discovery;
  run_stats : StatsAnswer;
  run_now : Z;
  run_enrich : option EnrichmentJob;
  during_report : list Interruption;
  during_delay : list Interruption;
}.

(** The found-count of the run, when it comes back with a response. *)
Definition run_found (turn : Turn) : option Z :=
  match discovered turn with
  | Some response => Some (d_found response)
  | None => None
  end.

Inductive WhileExit : Type :=
| Waiting                                   (* the script ends at an [await] *)
| Left (loopError : bool) (unused : list Turn).

Definition reportDiscoveryLoopProgress : M unit :=
  d ← this;
  emit (Call (notifyDiscoveryLoopProgress (runs (discoveryLoopStats d))
                                          (found (discoveryLoopStats d)))).

(** The [while (!this.discoveryLoopStopping)] loop of [startDiscoveryLoop]. *)
Fixpoint discovery_while (inputs : DiscoveryInputs) (turns : list Turn)
  : M WhileExit :=
  d ← this;
  if discoveryLoopStopping d then mret (Left false turns)
  else
    let runIndex := runs (discoveryLoopStats d) + 1 in
    performDiscoveryRun_begin inputs (Some runIndex);;
    match turns with
    | [] => mret Waiting
    | turn :: rest =>
        interrupts (during_run turn);;
        result ← performDiscoveryRun_resume (Some runIndex) true
                   (discovered turn) (run_stats turn) (run_now turn)
                   (run_enrich turn);
        match result with
        | None => mret (Left true rest)
        | Some response =>
            d ← this;
            update (set_discoveryLoopStats
                      {| runs := runs (discoveryLoopStats d) + 1;
                         found := found (discoveryLoopStats d) + d_found response |});;
            reportDiscoveryLoopProgress;;
            interrupts (during_report turn);;
            d ← this;
            updateStatusBar
              (RunTotal runIndex (d_found response) (found (discoveryLoopStats d)))
              Success;;
            if discoveryLoopStopping d then mret (Left false rest)
            else
              emit (Wait 2000);;
              interrupts (during_delay turn);;
              d ← this;
              if discoveryLoopStopping d then mret (Left false rest)
              else discovery_while inputs rest
        end
    end.

(** The [finally] block. *)
Definition leaveDiscoveryLoop (loopError : bool) : M (option Completion) :=
  d ← this;
  let stopRequested := discoveryLoopStopping d in
  let finalRuns := runs (discoveryLoopStats d) in
  let finalFound := found (discoveryLoopStats d) in
  update (set_discoveryLoopStopping false);;
  setDiscoveryLoopRunningState false;;
  (if negb loopError then
     if 0 <? finalRuns then updateStatusBar (LoopStoppedAfter finalRuns finalFound) Info
     else updateStatusBar LoopStopped Info
   else skip);;
  let completionReason :=
    if loopError then "error" else if stopRequested then "stopped" else "completed" in
  queueDiscoveryLoopCompletion finalRuns finalFound completionReason loopError.

(** A whole call of [startDiscoveryLoop], driven by what happens while it
    waits for [notifyDiscoveryLoopStart] and by the turns of its loop. *)
Record Script : Type := {
  during_start : list Interruption;
  turns : list Turn;
}.

Inductive Outcome : Type :=
| NotStarted
| StillLooping
| Exited (unused : list Turn).

Definition startDiscoveryLoop (initialInputs : option DiscoveryInputs)
           (script : Script) : M Outcome :=
  started ← startDiscoveryLoop_begin initialInputs;
  match started with
  | None => mret NotStarted
  | Some inputs =>
      interrupts (during_start script);;
      left ← discovery_while inputs (turns script);
      match left with
      | Waiting => mret StillLooping
      | Left loopError unused => leaveDiscoveryLoop loopError;; mret (Exited unused)
      end
  end.

(** The found-counts of the runs that came back with a response. *)
Definition completed (used : list Turn) : list Z :=
  omap run_found used.


Definition is_stop (i : Interruption) : bool :=
  match i with StopCalled => true | _ => false end.

Definition stop_in (l : list Interruption) : bool := existsb is_stop l.







(** A loop can begin: inputs are passed, or the settings have a keyword. *)
Definition can_start (initialInputs : option DiscoveryInputs) (d : Dashboard) : bool :=
  match initialInputs, keywords (discoverySettings d) with
  | None, [] => false
  | _, _ => true
  end.

(** The controller as its constructor leaves it. *)
Definition constructed : Dashboard := {|
  activeTab := Active;
  activeDropdown := None;
  enrichmentBusy := false;
  discoveryLoopActive := false;
  discoveryLoopStopping := false;
  discoveryLoopStats := {| runs := 0; found := 0 |};
  pendingAutoEnrich := 0;
  autoEnrichQueuedNotified := false;
  discoverySettings := defaultDiscoverySettingsState;
  statsPromise := false;
  lastLoopCompletionVersion := None;
  discoveryLoopCompletionPayload := None;
  finalizingDiscoveryLoop := false;
  discoveryLoopCompletionSent := false;
|}.

(** [setDiscoverySettings] as far as the stored record and the queue go;
    [normalized] is the record computed by [normalizeDiscoverySettings]. *)
Definition setDiscoverySettings (normalized : DiscoverySettings) : M unit :=
  update (fun d =>
    {| activeTab := activeTab d; activeDropdown := activeDropdown d;
       enrichmentBusy := enrichmentBusy d;
       discoveryLoopActive := discoveryLoopActive d;
       discoveryLoopStopping := discoveryLoopStopping d;
       discoveryLoopStats := discoveryLoopStats d;
       pendingAutoEnrich := pendingAutoEnrich d;
       autoEnrichQueuedNotified := autoEnrichQueuedNotified d;
       discoverySettings := normalized;
       statsPromise := statsPromise d;
       lastLoopCompletionVersion := lastLoopCompletionVersion d;
       discoveryLoopCompletionPayload := discoveryLoopCompletionPayload d;
       finalizingDiscoveryLoop := finalizingDiscoveryLoop d;
       discoveryLoopCompletionSent := discoveryLoopCompletionSent d |});;
  if negb (autoEnrichEnabled normalized) then
    update (set_pendingAutoEnrich 0);;
    update (set_autoEnrichQueuedNotified false)
  else skip.



(** *** Scripts used as examples *)

(** A turn in which nothing is called and the run finds [n] channels. *)
Definition plain_turn (n : Z) : Turn :=
  {| during_run := [];
     discovered := Some {| d_found := n; d_blacklisted := 0 |};
     run_stats := StatsEmpty; run_now := 0; run_enrich := None;
     during_report := []; during_delay := [] |}.

(** The same, with [stopDiscoveryLoop] called once during the run. *)
Definition stopped_turn (n : Z) : Turn :=
  {| during_run := [StopCalled];
     discovered := Some {| d_found := n; d_blacklisted := 0 |};
     run_stats := StatsEmpty; run_now := 0; run_enrich := None;
     during_report := []; during_delay := [] |}.

(** The same, with [stopDiscoveryLoop] called twice during the run. *)
Definition stopped_twice_turn (n : Z) : Turn :=
  {| during_run := [StopCalled; StopCalled];
     discovered := Some {| d_found := n; d_blacklisted := 0 |};
     run_stats := StatsEmpty; run_now := 0; run_enrich := None;
     during_report := []; during_delay := [] |}.

(** Three runs of two channels each, a stop during the second. *)
Definition three_runs_stop_in_second : Script :=
  {| during_start := [];
     turns := [plain_turn 2; stopped_turn 2; plain_turn 2] |}.

(** The defaults with automatic enrichment switched on. *)
Definition automatic_settings : DiscoverySettings := {|
  keywordsText := DEFAULT_DISCOVERY_KEYWORDS;
  keywords := parseDiscoveryKeywords DEFAULT_DISCOVERY_KEYWORDS;
  perKeyword := of_Z 5;
  lastUploadMaxAgeDays := None;
  denyLanguagesText := "";
  denyLanguages := [];
  autoEnrichEnabled := true;
  autoEnrichMode := "email_only";
  enrichLimit := None;
  runUntilStopped := false;
|}.

(** The controller after these settings are set. *)
Definition automatic : Dashboard :=
  state_after (setDiscoverySettings automatic_settings) constructed.

(** The last ['progress'] message of a job of three channels. *)
Definition finished : Progress :=
  {| p_completed := 3; p_skipped := 0; p_done := true |}.

(** Statistics after a loop that was stopped, at version 7. *)
Definition stopped_at_7 : Stats :=
  {| running := false;
     last_completed_at := Some "2024-05-01T10:00:00Z";
     version := Some 7;
     last_reason := "stopped";
     processing := 0;
     activeJobs := 0 |}.

(** *** Reading a log *)

(** The discovery requests sent. *)
Definition discoveries (log : list Effect) : list DiscoveryInputs :=
  omap (fun e => match e with
                 | Call (discoverChannels inputs) => Some inputs
                 | _ => None
                 end) log.

(** The enrichments started: mode and limit. *)
Definition starts (log : list Effect) : list (string * option num) :=
  omap (fun e => match e with
                 | Call (startEnrichment mode limit) => Some (mode, limit)
                 | _ => None
                 end) log.

(** The loop completions reported to the server. *)
Definition reports (log : list Effect) : list Completion :=
  omap (fun e => match e with
                 | Call (notifyDiscoveryLoopComplete request) => Some request
                 | _ => None
                 end) log.

(** The delays of the timers set. *)
Definition timers (log : list Effect) : list Z :=
  omap (fun e => match e with SetTimeout _ ms => Some ms | _ => None end) log.

Definition silent (log : list Effect) : Prop :=
  starts log = [] /\ reports log = [] /\ timers log = [].

(** *** Sequences of calls *)

(** [triggerAutoEnrich] called once per count, in order. *)
Fixpoint requests (counts : list Z) : M unit :=
  match counts with
  | [] => skip
  | count :: rest => triggerAutoEnrich count None;; requests rest
  end.

(** [maybeRefreshAfterLoop] called once per answer of [fetchStats], each
    with its own [Date.now()]. *)
Fixpoint polled (polls : list (Stats * Z)) : M unit :=
  match polls with
  | [] => skip
  | (stats, now) :: rest => maybeRefreshAfterLoop (Some stats) now;; polled rest
  end.

(** The mode [triggerAutoEnrich] passes on. *)
Definition autoMode (d : Dashboard) : string :=
  if String.eqb (autoEnrichMode (discoverySettings d)) "full" then "full" else "email_only".

(** [discoveryLoop.last_completed_at] is there. *)
Definition present (stats : Stats) : Prop :=
  exists at_, last_completed_at stats = Some at_ /\ at_ <> "".

(** *** Shapes of the state used in the proofs *)

(** [d] once [closeDropdown(enrichMenu)] has run. *)
Definition closed (d : Dashboard) : Dashboard :=
  if decide (activeDropdown d = Some EnrichMenu) then set_activeDropdown None d else d.

(** What the loop reads and writes between two of its [await]s. *)
Definition loop_view (d : Dashboard) : bool * bool * LoopStats :=
  (discoveryLoopActive d, discoveryLoopStopping d, discoveryLoopStats d).


(** A handler that leaves the loop fields alone and sends no discovery
    request. *)
Definition aside {A} (m : M A) : Prop :=
  forall d,
    loop_view (state_after m d) = loop_view d
    /\ discoveries (log_of m d) = [].




(** What the report of a finished loop waits for, and the record kept. *)
Definition report_view (d : Dashboard)
  : option Completion * bool * bool * Z * bool * bool :=
  (discoveryLoopCompletionPayload d, discoveryLoopCompletionSent d,
   enrichmentBusy d, pendingAutoEnrich d, discoveryLoopActive d,
   finalizingDiscoveryLoop d).

(** The statistics polls that come by themselves, one per answer of
    [fetchStats]. *)
Definition stats_polls (answers : list (StatsAnswer * Z)) : list Interruption :=
  List.map (fun poll => StatsPolled poll.1 poll.2) answers.

(** A handler that only moves [lastLoopCompletionVersion], starts no
    enrichment, reports no loop and sets no timer. *)
Definition bystander (m : M unit) : Prop :=
  forall d, exists seen log,
    m d = (tt, set_lastLoopCompletionVersion seen d, log) /\ silent log.

End Dash.

(* ===================================================================== *)
(** ** Lists typed as text                                               *)
(* ===================================================================== *)

From stdpp Require pretty.

Module Words.
Import JS.

(** The bytes of a string. *)
Definition chars (s : string) : list ascii := list_ascii_of_string s.

(** No byte of [w] is in the class [sep], a class of characters below
    128. *)
Definition free_of (sep : ascii -> bool) (w : string) : bool :=
  forallb (fun c => negb (sep c)) (chars w).

(** A keyword as [parseDiscoveryKeywords] hands it out: not empty, no
    white space at either end, no comma and no line feed. *)
Definition keyword (w : string) : Prop :=
  w <> "" /\ Text.trim w = w /\ free_of Settings.keyword_separator w = true.

(** An engine for the examples: it converts a text of decimal digits,
    reads an empty or blank text as 0 and any other as NaN, prints whole
    numbers, lowers the letters A to Z, and takes for addresses the
    pieces between commas and blanks that hold an [@]. *)
Fixpoint digits (acc : Z) (s : string) : option Z :=
  match s with
  | EmptyString => Some acc
  | String c rest =>
      let n := nat_of_ascii c in
      if (Nat.leb 48 n && Nat.leb n 57)%bool
      then digits (10 * acc + Z.of_nat (n - 48)) rest
      else None
  end.

Definition has_at (s : string) : bool :=
  existsb (Ascii.eqb "@") (chars s).

Definition comma_or_blank (c : ascii) : bool :=
  (Ascii.eqb c "," || Ascii.eqb c " ")%bool.

Definition example_host : Host := {|
  string_to_number := fun s =>
    match digits 0 (Text.trim s) with
    | Some z => of_Z z
    | None => NaN
    end;
  number_to_string := fun n =>
    match n with
    | NaN => "NaN"
    | PosInf => "Infinity"
    | NegInf => "-Infinity"
    | Fin q => pretty.pretty (Qfloor q)
    end;
  to_lower_case := Text.toLowerCase;
  match_email_regex := fun s =>
    match List.filter has_at (Text.split comma_or_blank s) with
    | [] => None
    | found => Some found
    end;
|}.

End Words.

(* ===================================================================== *)
(** ** Text put into markup                                              *)
(* ===================================================================== *)

Module Html.
Import JS.

(** [s.replace(/c/g, by)] for one character [c] and a replacement text
    without [$]. *)
Fixpoint replaceAll (c : ascii) (by_ : string) (s : string) : string :=
  match s with
  | EmptyString => EmptyString
  | String x rest =>
      if Ascii.eqb x c then by_ +:+ replaceAll c by_ rest
      else String x (replaceAll c by_ rest)
  end.

(** The double quote. *)
Definition quote : ascii := ascii_of_nat 34.

(** The five replacements of [escapeHtml], in its order. *)
Definition escaped (s : string) : string :=
  replaceAll "'" "&#39;"
    (replaceAll quote "&quot;"
       (replaceAll ">" "&gt;"
          (replaceAll "<" "&lt;"
             (replaceAll "&" "&amp;" s)))).

Definition escapeHtml {host : Host} (v : value) : string :=
  match v with
  | VUndefined | VNull => ""
  | other => escaped (to_string other)
  end.

(** What one character becomes. *)
Definition escape_char (c : ascii) : string :=
  if Ascii.eqb c "&" then "&amp;"
  else if Ascii.eqb c "<" then "&lt;"
  else if Ascii.eqb c ">" then "&gt;"
  else if Ascii.eqb c quote then "&quot;"
  else if Ascii.eqb c "'" then "&#39;"
  else String c EmptyString.

Fixpoint escape_each (s : string) : string :=
  match s with
  | EmptyString => EmptyString
  | String c rest => escape_char c +:+ escape_each rest
  end.

(** The characters that open or close a tag or an attribute value. *)
Definition markup (c : ascii) : bool :=
  (Ascii.eqb c "<" || Ascii.eqb c ">" || Ascii.eqb c quote || Ascii.eqb c "'")%bool.

(** The reading back of an escaped text, entity by entity.  The page has
    no such function; it is the inverse the proofs compare with. *)
Fixpoint unescape (s : string) : string :=
  match s with
  | String "&" (String "a" (String "m" (String "p" (String ";" rest)))) =>
      String "&" (unescape rest)
  | String "&" (String "l" (String "t" (String ";" rest))) =>
      String "<" (unescape rest)
  | String "&" (String "g" (String "t" (String ";" rest))) =>
      String ">" (unescape rest)
  | String "&" (String "q" (String "u" (String "o" (String "t" (String ";" rest))))) =>
      String quote (unescape rest)
  | String "&" (String "#" (String "3" (String "9" (String ";" rest)))) =>
      String "'" (unescape rest)
  | String c rest => String c (unescape rest)
  | EmptyString => EmptyString
  end.

End Html.

(* ===================================================================== *)
(** ** The state of one table                                            *)
(* ===================================================================== *)

Module Table.
Import JS.

(** [defaultFilters]: the two subscriber bounds are [''] when not set. *)
Record Filters : Type := {
  query : string;
  languages : list string;
  statuses : list string;
  minSubscribers : option num;
  maxSubscribers : option num;
  emailsOnly : bool;
  uniqueEmails : bool;
  emailGateOnly : bool;
}.

Definition defaultFilters : Filters := {|
  query := "";
  languages := [];
  statuses := [];
  minSubscribers := None;
  maxSubscribers := None;
  emailsOnly := false;
  uniqueEmails := false;
  emailGateOnly := false;
|}.

(** A row is the object the server sends. *)
Record TableState : Type := {
  filters : Filters;
  sort : string;
  order : string;
  page : Z;
  limit : Z;
  rows : list obj;
  total : Z;
  loading : bool;
  error : option string;
}.

Definition createTableState : TableState := {|
  filters := defaultFilters;
  sort := "created_at";
  order := "desc";
  page := 0;
  limit := 50;
  rows := [];
  total := 0;
  loading := false;
  error := None;
|}.

Definition set_page (v : Z) (t : TableState) : TableState :=
  {| filters := filters t; sort := sort t; order := order t; page := v;
     limit := limit t; rows := rows t; total := total t; loading := loading t;
     error := error t |}.

Definition set_loading (v : bool) (t : TableState) : TableState :=
  {| filters := filters t; sort := sort t; order := order t; page := page t;
     limit := limit t; rows := rows t; total := total t; loading := v;
     error := error t |}.

Definition set_rows (v : list obj) (t : TableState) : TableState :=
  {| filters := filters t; sort := sort t; order := order t; page := page t;
     limit := limit t; rows := v; total := total t; loading := loading t;
     error := error t |}.

Definition set_total (v : Z) (t : TableState) : TableState :=
  {| filters := filters t; sort := sort t; order := order t; page := page t;
     limit := limit t; rows := rows t; total := v; loading := loading t;
     error := error t |}.

Definition set_error (v : option string) (t : TableState) : TableState :=
  {| filters := filters t; sort := sort t; order := order t; page := page t;
     limit := limit t; rows := rows t; total := total t; loading := loading t;
     error := v |}.

(** [Math.ceil(total / limit)].  The limit of every table is the 50 of
    [createTableState], which nothing assigns again; the quotient is that
    of a limit above zero. *)
Definition pageCount (total limit : Z) : Z :=
  Qceiling (inject_Z total / inject_Z limit).

(** What [fetchChannels] is asked for. *)
Record Request : Type := {
  r_filters : Filters;
  r_sort : string;
  r_order : string;
  r_limit : Z;
  r_page : Z;
}.

Definition request_of (snapshot : TableState) : Request :=
  {| r_filters := filters snapshot; r_sort := sort snapshot;
     r_order := order snapshot; r_limit := limit snapshot;
     r_page := page snapshot |}.

(** The answer of [fetchChannels]: items and total, or a rejection with
    the message of its error, if it is one. *)
Inductive Answer : Type :=
| Fetched (items : list obj) (total : Z)
| Rejected (message : option string).

(** The last page there is for a total. *)
Definition maxPage (effectiveTotal limit : Z) : Z :=
  if 0 <? effectiveTotal then Z.max 0 (pageCount effectiveTotal limit - 1) else 0.

(** [loadTable] on the table of its category.  [answers] are the answers
    of the requests it makes, in order; when they run out the table is
    left as it is while the request is awaited.  The result is the table
    and the requests made. *)
Fixpoint loadTable (mutate : TableState -> TableState) (answers : list Answer)
         (table : TableState) : TableState * list Request :=
  let snapshot := set_loading true (mutate table) in
  match answers with
  | [] => (snapshot, [request_of snapshot])
  | Fetched items total :: later =>
      let effectiveTotal := total in
      let maxPage := maxPage effectiveTotal (limit snapshot) in
      if maxPage <? page snapshot then
        let newPage := Z.max 0 maxPage in
        let nextState := set_loading true (set_page newPage snapshot) in
        let '(final, requests) :=
          loadTable (fun state => set_loading true (set_page newPage state))
                    later nextState in
        (final, request_of snapshot :: requests)
      else
        (set_error None
           (set_loading false (set_total effectiveTotal (set_rows items snapshot))),
         [request_of snapshot])
  | Rejected message :: _ =>
      (set_error (Some (default "Failed to load channels" message))
         (set_loading false (set_rows [] snapshot)),
       [request_of snapshot])
  end.

(** [changePage]: [None] when it returns without a change; otherwise the
    table with the new page, which [loadTable] is then called on. *)
Definition changePage_begin (delta : Z) (table : TableState) : option TableState :=
  let nextPage := page table + delta in
  if nextPage <? 0 then None
  else
    let totalPages := pageCount (total table) (limit table) in
    if negb (totalPages =? 0) && (totalPages <=? nextPage) then None
    else Some (set_page nextPage table).

Definition changePage (delta : Z) (answers : list Answer) (table : TableState)
  : TableState * list Request :=
  match changePage_begin delta table with
  | None => (table, [])
  | Some moved =>
      loadTable (fun state => set_loading true (set_page (page moved) state))
                answers moved
  end.

(** What [updatePagination] shows. *)
Record Pagination : Type := {
  currentPage : Z;
  totalPages : Z;
  prevDisabled : bool;
  nextDisabled : bool;
}.

Definition updatePagination (table : TableState) : Pagination :=
  let totalPages := Z.max 1 (pageCount (total table) (limit table)) in
  {| currentPage := Z.min (page table + 1) totalPages;
     totalPages := totalPages;
     prevDisabled := page table =? 0;
     nextDisabled := totalPages <=? page table + 1 |}.

(** The page is one of those the total has. *)
Definition in_range (table : TableState) : Prop :=
  0 <= page table
  /\ (page table = 0 \/ page table * limit table < total table).

(** The pages asked for go down, one request after the other. *)
Fixpoint descending (pages : list Z) : Prop :=
  match pages with
  | a :: (b :: _) as rest => b < a /\ descending rest
  | _ => True
  end.

End Table.

(* ===================================================================== *)
(** ** Rows brought up to date by the stream                             *)
(* ===================================================================== *)

Module Rows.
Import JS Table.

(** [a === b] for what a channel id can be: two primitives of the same
    kind and value.  An array or an object that comes from a message is
    never the one that came with a row. *)
Definition strict_eq (a b : value) : bool :=
  match a, b with
  | VUndefined, VUndefined => true
  | VNull, VNull => true
  | VBool x, VBool y => Bool.eqb x y
  | VNum (Fin x), VNum (Fin y) => Qeq_bool x y
  | VNum PosInf, VNum PosInf => true
  | VNum NegInf, VNum NegInf => true
  | VStr x, VStr y => String.eqb x y
  | _, _ => false
  end.

(** [key in o]. *)
Definition has (o : obj) (key : string) : bool :=
  match o !! key with Some _ => true | None => false end.

(** [v != null]. *)
Definition given (v : value) : bool :=
  match v with VUndefined | VNull => false | _ => true end.

(** [v || null]. *)
Definition or_null (v : value) : value := if truthy v then v else VNull.

(** [rows.findIndex(p)]; [None] is the [-1]. *)
Fixpoint findIndex (p : obj -> bool) (rows : list obj) : option nat :=
  match rows with
  | [] => None
  | row :: rest => if p row then Some 0%nat else S <$> findIndex p rest
  end.

Section Update.
Context {host : Host}.

Definition mapEmails (v : value) : value :=
  if negb (truthy v) then VNull
  else match v with
       | VArr [] => VNull
       | VArr items => VStr (array_join ", " items)
       | other => VStr (to_string other)
       end.

(** The row that takes the place of [current]. *)
Definition nextRow (update current : obj) : obj :=
  let row := current in
  let row := if truthy (prop update "status")
             then <["status" := prop update "status"]> row else row in
  let row := if has update "statusReason"
             then <["status_reason" := or_null (prop update "statusReason")]> row
             else row in
  let row := if has update "lastStatusChange"
             then <["last_status_change" := or_null (prop update "lastStatusChange")]> row
             else row in
  let row := if has update "emails"
             then <["emails" := mapEmails (prop update "emails")]> row else row in
  let row := if has update "subscribers" && given (prop update "subscribers")
             then <["subscribers" := prop update "subscribers"]> row else row in
  let row := if has update "language" && given (prop update "language")
             then <["language" := prop update "language"]> row else row in
  let row := if has update "languageConfidence"
                && given (prop update "languageConfidence")
             then <["language_confidence" := prop update "languageConfidence"]> row
             else row in
  let row := if has update "lastUpdated" && truthy (prop update "lastUpdated")
             then <["last_updated" := prop update "lastUpdated"]> row else row in
  let row := if has update "emailGatePresent"
             then <["email_gate_present" := prop update "emailGatePresent"]> row
             else row in
  row.

(** The same, as the list of its writes: whether the field is written,
    its name, its value. *)
Definition writes (update : obj) : list (bool * string * value) :=
  [ (truthy (prop update "status"), "status", prop update "status");
    (has update "statusReason", "status_reason",
     or_null (prop update "statusReason"));
    (has update "lastStatusChange", "last_status_change",
     or_null (prop update "lastStatusChange"));
    (has update "emails", "emails", mapEmails (prop update "emails"));
    (has update "subscribers" && given (prop update "subscribers"),
     "subscribers", prop update "subscribers");
    (has update "language" && given (prop update "language"),
     "language", prop update "language");
    (has update "languageConfidence" && given (prop update "languageConfidence"),
     "language_confidence", prop update "languageConfidence");
    (has update "lastUpdated" && truthy (prop update "lastUpdated"),
     "last_updated", prop update "lastUpdated");
    (has update "emailGatePresent", "email_gate_present",
     prop update "emailGatePresent") ].

Definition write (row : obj) (w : bool * string * value) : obj :=
  let '(wanted, key, v) := w in if wanted then <[key := v]> row else row.

(** What [applyChannelUpdate] does to the table of one category: [None]
    when it leaves it, for want of rows or of a row with the channel id. *)
Definition updateTable (update : obj) (channelId : value) (table : TableState)
  : option TableState :=
  match findIndex (fun row => strict_eq (prop row "channel_id") channelId)
                  (rows table) with
  | None => None
  | Some index =>
      match rows table !! index with
      | Some current =>
          Some (set_rows (<[index := nextRow update current]> (rows table)) table)
      | None => None
      end
  end.

(** [applyChannelUpdate]: the tables, and whether the table shown is drawn
    again.  [None] is a message without update. *)
Definition applyChannelUpdate (update : option obj) (activeTab : Dash.Category)
           (tables : Dash.Category -> TableState)
  : (Dash.Category -> TableState) * bool :=
  match update with
  | None => (tables, false)
  | Some update =>
      let channelId := prop update "channelId" in
      if negb (truthy channelId) then (tables, false)
      else
        (fun category =>
           default (tables category) (updateTable update channelId (tables category)),
         match updateTable update channelId (tables activeTab) with
         | Some _ => true
         | None => false
         end)
  end.

End Update.

(** The fields [applyChannelUpdate] writes. *)
Definition written : list string :=
  ["status"; "status_reason"; "last_status_change"; "emails"; "subscribers";
   "language"; "language_confidence"; "last_updated"; "email_gate_present"].

(** The channel ids of the rows, in order. *)
Definition ids (table : TableState) : list value :=
  List.map (fun row => prop row "channel_id") (rows table).

End Rows.

(* ===================================================================== *)
(** ** What the handlers ask of the server                               *)
(* ===================================================================== *)

Module Flow.
Import JS Settings Dash.

(** The handler asks for no enrichment. *)
Definition startless {A} (m : M A) : Prop :=
  forall d, starts (log_of m d) = [].

(** A limit a request may carry: none, or a number above zero. *)
Definition sound (start : string * option num) : Prop :=
  non_positive start.2 = false.

(** The handler asks for one enrichment at most, with a limit that is
    sound. *)
Definition tidy {A} (m : M A) : Prop :=
  forall d,
    (length (starts (log_of m d)) <= 1)%nat /\ Forall sound (starts (log_of m d)).

(** The progress reports of a loop: runs and discovered. *)
Definition progress (log : list Effect) : list (Z * Z) :=
  omap (fun e => match e with
                 | Call (notifyDiscoveryLoopProgress runs discovered) =>
                     Some (runs, discovered)
                 | _ => None
                 end) log.

(** The handler reports no progress of a loop. *)
Definition reportless {A} (m : M A) : Prop :=
  forall d, progress (log_of m d) = [].

(** The counters after each of the runs counted, one after the other. *)
Fixpoint totals (st : LoopStats) (counts : list Z) : list (Z * Z) :=
  match counts with
  | [] => []
  | n :: rest =>
      (runs st + 1, found st + n)
      :: totals {| runs := runs st + 1; found := found st + n |} rest
  end.

(** The statistics requests sent. *)
Definition polls (log : list Effect) : nat :=
  length (List.filter (fun e => match e with Call fetchStats => true | _ => false end)
                      log).

End Flow.

(* ===================================================================== *)
(** ** The two dropdown menus                                            *)
(* ===================================================================== *)

Module Menus.
Import Dash.

(** Which menus are drawn (a menu is drawn when it has no [hidden]
    attribute), and [this.activeDropdown].  Each menu has its own toggle,
    and every call passes the two together, so [this.activeDropdownToggle]
    is the toggle of the active menu. *)
Record Dropdowns : Type := {
  drawn : Menu -> bool;
  active : option Menu;
}.

Definition closeDropdown (menu : Menu) (s : Dropdowns) : Dropdowns :=
  {| drawn := fun m => if decide (m = menu) then false else drawn s m;
     active := if decide (active s = Some menu) then None else active s |}.

Definition closeAllDropdowns (s : Dropdowns) : Dropdowns :=
  match active s with
  | Some menu => closeDropdown menu s
  | None => s
  end.

(** [disabled] is the state of the toggle. *)
Definition toggleDropdown (disabled : bool) (menu : Menu) (s : Dropdowns)
  : Dropdowns :=
  if disabled then s
  else if decide (active s = Some menu) then closeDropdown menu s
  else
    let closed := closeAllDropdowns s in
    {| drawn := fun m => if decide (m = menu) then true else drawn closed m;
       active := Some menu |}.

(** [inside] tells that the click hit the active menu or its toggle. *)
Definition handleDocumentClick (inside : bool) (s : Dropdowns) : Dropdowns :=
  match active s with
  | None => s
  | Some _ => if inside then s else closeAllDropdowns s
  end.

Definition handleDocumentKeydown (key : string) (s : Dropdowns) : Dropdowns :=
  if String.eqb key "Escape" then closeAllDropdowns s else s.

(** What the page and the handlers do to the menus. *)
Inductive Action : Type :=
| Toggle (disabled : bool) (menu : Menu)
| Close (menu : Menu)
| CloseAll
| Click (inside : bool)
| Key (key : string).

Definition act (a : Action) : Dropdowns -> Dropdowns :=
  match a with
  | Toggle disabled menu => toggleDropdown disabled menu
  | Close menu => closeDropdown menu
  | CloseAll => closeAllDropdowns
  | Click inside => handleDocumentClick inside
  | Key key => handleDocumentKeydown key
  end.

Definition acts (l : list Action) (s : Dropdowns) : Dropdowns :=
  fold_left (fun s a => act a s) l s.

(** A page with both menus hidden. *)
Definition loaded : Dropdowns := {| drawn := fun _ => false; active := None |}.

(** The menu drawn is the active one, and no other. *)
Definition consistent (s : Dropdowns) : Prop :=
  forall m, drawn s m = true <-> active s = Some m.

End Menus.

(* ===================================================================== *)
(** ** The settings dialog                                               *)
(* ===================================================================== *)

Module Dialog.
Import JS Settings Dash.

(** The fields of the dialog, all present on the page: the values of the
    five text inputs and of the mode select, and the state of the two
    check boxes. *)
Record Form : Type := {
  f_keywords : string;
  f_perKeyword : string;
  f_denyLanguages : string;
  f_lastUploadMaxAge : string;
  f_enrichLimit : string;
  f_autoEnrichToggle : bool;
  f_autoEnrichMode : string;
  f_runUntilStopped : bool;
}.

(** The three notices [collectDiscoverySettingsFromDialog] returns [null]
    with. *)
Inductive Refusal : Type :=
| NoKeyword          (* 'Please provide at least one keyword.' *)
| MaxAgeBelowZero    (* 'Last upload max age must be zero or greater.' *)
| LimitNotPositive.  (* 'Enrichment limit must be a positive number.' *)

Inductive Collected : Type :=
| Refused (why : Refusal)
| Settings (settings : DiscoverySettings).

Inductive Submitted : Type :=
| LoopRunning                       (* the notice that a loop is running *)
| NotAccepted (why : Refusal)
| Accepted (settings : DiscoverySettings) (inputs : option DiscoveryInputs)
           (loop : bool).

(** A number that counts: whole and one or more, or infinite. *)
Definition counting (n : num) : Prop := n = PosInf \/ whole_positive n.

(** A number that is whole and not negative, or infinite. *)
Definition whole (n : num) : Prop :=
  n = PosInf \/ exists z : Z, n = of_Z z /\ 0 <= z.

Section Collect.
Context {host : Host}.

Definition collectDiscoverySettingsFromDialog (form : Form)
           (current : DiscoverySettings) : Collected :=
  let keywordsText := f_keywords form in
  let keywords := parseDiscoveryKeywords keywordsText in
  match keywords with
  | [] => Refused NoKeyword
  | _ :: _ =>
      let perKeywordRaw := to_number (VStr (f_perKeyword form)) in
      let perKeyword :=
        if isNaN perKeywordRaw || le perKeywordRaw (of_Z 0)
        then (if truthy (VNum (perKeyword current)) then perKeyword current
              else of_Z 5)
        else max (of_Z 1) (floor perKeywordRaw) in
      let denyLanguagesText := f_denyLanguages form in
      let denyLanguages := parseDiscoveryDenyLanguages denyLanguagesText in
      let maxAgeRaw := f_lastUploadMaxAge form in
      let maxAge :=
        if Text.nonempty (Text.trim maxAgeRaw) then
          let parsed := to_number (VStr maxAgeRaw) in
          if isNaN parsed || lt parsed (of_Z 0) then None
          else Some (if gt parsed (of_Z 0) then Some (floor parsed) else None)
        else Some None in
      match maxAge with
      | None => Refused MaxAgeBelowZero
      | Some lastUploadMaxAgeDays =>
          let enrichLimitRaw := f_enrichLimit form in
          let limit :=
            if Text.nonempty (Text.trim enrichLimitRaw) then
              let parsed := to_number (VStr enrichLimitRaw) in
              if isNaN parsed || le parsed (of_Z 0) then None
              else Some (Some (floor parsed))
            else Some None in
          match limit with
          | None => Refused LimitNotPositive
          | Some enrichLimit =>
              Settings
                {| keywordsText := keywordsText;
                   keywords := keywords;
                   perKeyword := perKeyword;
                   lastUploadMaxAgeDays := lastUploadMaxAgeDays;
                   denyLanguagesText := denyLanguagesText;
                   denyLanguages := denyLanguages;
                   enrichLimit := enrichLimit;
                   autoEnrichEnabled := f_autoEnrichToggle form;
                   autoEnrichMode :=
                     if String.eqb (f_autoEnrichMode form) "full"
                     then "full" else "email_only";
                   runUntilStopped := f_runUntilStopped form |}
          end
      end
  end.

(** The settings [setDiscoverySettings(settings)] keeps: the current ones
    under the new ones, normalised. *)
Definition kept (current settings : DiscoverySettings) : DiscoverySettings :=
  normalizeDiscoverySettings (spread (as_object current) (as_object settings)).

(** [handleDiscoverSettingsSubmit] up to its last test: the settings it
    has set, the inputs collected from them, and whether a loop or one run
    is started with these. *)
Definition handleDiscoverSettingsSubmit_begin (form : Form) (d : Dashboard)
  : Submitted :=
  if discoveryLoopActive d then LoopRunning
  else
    match collectDiscoverySettingsFromDialog form (discoverySettings d) with
    | Refused why => NotAccepted why
    | Settings settings =>
        let set := kept (discoverySettings d) settings in
        Accepted set (collectDiscoveryInputsFromSettings set)
                 (runUntilStopped settings)
    end.

End Collect.

(** A form as the page shows it first, with a limit typed in. *)
Definition typed_limit (limit : string) : Form := {|
  f_keywords := DEFAULT_DISCOVERY_KEYWORDS;
  f_perKeyword := "5";
  f_denyLanguages := "";
  f_lastUploadMaxAge := "";
  f_enrichLimit := limit;
  f_autoEnrichToggle := false;
  f_autoEnrichMode := "email_only";
  f_runUntilStopped := false;
|}.

End Dialog.

(* ===================================================================== *)
(** ** The table of the earlier dashboard                                *)
(* ===================================================================== *)

Module Legacy.
Import JS Table Emails.

(** An item as [applyUniqueEmailFilter] reads it.  [item.emails || ''] is
    handed to [extractEmails], which calls [text.match] on what is not
    empty: an [emails] that is truthy and not a string has no such method,
    and the call throws a TypeError ([None]). *)
Definition as_row (item : obj) : option (Row obj) :=
  match prop item "emails" with
  | VStr text => Some {| fields := item; emails := Some text |}
  | other =>
      if truthy other then None
      else Some {| fields := item; emails := None |}
  end.

(** [{ ...item, emails }]. *)
Definition of_row (row : Row obj) : obj :=
  match emails row with
  | Some text => <["emails" := VStr text]> (fields row)
  | None => fields row
  end.

Section Load.
Context {host : Host}.

(** [applyUniqueEmailFilter(items)] on the items of an answer; [None] when
    it throws. *)
Definition uniqueRows (items : list obj) : option (list obj) :=
  rows ← mapM as_row items;
  Some (List.map of_row (applyUniqueEmailFilter rows)).

(** [loadTable] as the earlier dashboard has it: with the two filters
    [emailsOnly] and [uniqueEmails] on, the rows are those the unique-email
    filter keeps and the total is their number.  [thrown] is the message
    of the TypeError of the engine, which the [catch] block shows like the
    message of a rejected request. *)
Fixpoint loadTable (thrown : string) (mutate : TableState -> TableState)
         (answers : list Answer) (table : TableState)
  : TableState * list Request :=
  let snapshot := set_loading true (mutate table) in
  let caught (message : string) :=
    (set_error (Some message) (set_loading false (set_rows [] snapshot)),
     [request_of snapshot]) in
  match answers with
  | [] => (snapshot, [request_of snapshot])
  | Fetched items total :: later =>
      let unique :=
        emailsOnly (filters snapshot) && uniqueEmails (filters snapshot) in
      match (if unique then uniqueRows items else Some items) with
      | None => caught thrown
      | Some rows =>
          let effectiveTotal :=
            if unique then Z.of_nat (length rows) else total in
          let maxPage := maxPage effectiveTotal (limit snapshot) in
          if maxPage <? page snapshot then
            let newPage := Z.max 0 maxPage in
            let nextState := set_loading true (set_page newPage snapshot) in
            let '(final, requests) :=
              loadTable thrown
                        (fun state => set_loading true (set_page newPage state))
                        later nextState in
            (final, request_of snapshot :: requests)
          else
            (set_error None
               (set_loading false
                  (set_total effectiveTotal (set_rows rows snapshot))),
             [request_of snapshot])
      end
  | Rejected message :: _ =>
      caught (default "Failed to load channels" message)
  end.

End Load.

(** Every answer has items, no more of them than [limit]. *)
Definition within (limit : Z) (answers : list Answer) : Prop :=
  Forall (fun answer =>
            match answer with
            | Fetched items _ => Z.of_nat (length items) <= limit
            | Rejected _ => False
            end) answers.

(** The [emails] of every item sent is a string, or is falsy. *)
Definition readable (answers : list Answer) : Prop :=
  Forall (fun answer =>
            match answer with
            | Fetched items _ => Forall (fun item => is_Some (as_row item)) items
            | Rejected _ => True
            end) answers.

(** Two channels with the same address, in two spellings. *)
Definition two_channels : list obj :=
  [ <["emails" := VStr "Team@Example.org, press@example.org"]>
      {["channel_id" := VStr "UC-1"]};
    <["emails" := VStr "team@example.org"]> {["channel_id" := VStr "UC-2"]} ].

End Legacy.


(* ===================================================================== *)
(** ** Properties of the discovery settings                              *)
(* ===================================================================== *)

Module SettingsFacts.
Import JS Settings.

Section WithHost.
Context {host : Host}.

(** *** Numbers *)

Lemma le_of_Z (a b : Z) : le (of_Z a) (of_Z b) = (a <=? b).
Proof.
  unfold le, of_Z. apply eq_true_iff_eq.
  rewrite Qle_bool_iff, <- Zle_Qle, Z.leb_le. reflexivity.
Qed.

Lemma lt_of_Z (a b : Z) : lt (of_Z a) (of_Z b) = (a <? b).
Proof.
  unfold lt, of_Z. rewrite Z.ltb_antisym. f_equal.
  apply eq_true_iff_eq. rewrite Qle_bool_iff, <- Zle_Qle, Z.leb_le. reflexivity.
Qed.

Lemma gt_of_Z (a b : Z) : gt (of_Z a) (of_Z b) = (b <? a).
Proof. unfold gt. apply lt_of_Z. Qed.

Lemma floor_of_Z z : floor (of_Z z) = of_Z z.
Proof. unfold floor, of_Z. rewrite Qfloor_Z. reflexivity. Qed.

Lemma floor_one_up q : Qle_bool 1 q = true -> 1 <= Qfloor q.
Proof.
  intros H. apply Qle_bool_iff in H. apply Qfloor_resp_le in H.
  change (Qfloor 1) with 1 in H. exact H.
Qed.

(** *** What normalisation returns on tame input *)

Lemma tame_floor n :
  tame n = true -> gt n (of_Z 0) = true -> whole_positive (floor n).
Proof.
  destruct n as [| | |q]; cbn; try discriminate.
  intros Htame Hpos. apply negb_true_iff in Hpos.
  unfold Qle_bool in Hpos at 1. change (inject_Z 0) with 0%Q in Hpos.
  fold (Qle_bool q 0) in Hpos. rewrite Hpos in Htame. cbn in Htame.
  exists (Qfloor q). split; [reflexivity|]. apply floor_one_up, Htame.
Qed.

Lemma tame_positiveOrNull v :
  tame_value v -> optional_whole_positive (positiveOrNull v).
Proof.
  intros Htame x. unfold positiveOrNull.
  destruct v as [| |b|n|s|items|]; try discriminate; cbn in Htame.
  - destruct (gt n (of_Z 0)) eqn:Hpos; [|discriminate].
    intros [= <-]. apply tame_floor; assumption.
  - destruct (Text.nonempty _); [|discriminate]. cbn [to_number].
    destruct (isNaN _); [discriminate|]. cbn [negb andb].
    destruct (gt _ (of_Z 0)) eqn:Hpos; [|discriminate].
    intros [= <-]. apply tame_floor; assumption.
Qed.

Lemma tame_perKeyword n :
  tame n = true ->
  whole_positive
    (if isNaN n || le n (of_Z 0) then of_Z 5 else max (of_Z 1) (floor n)).
Proof.
  intros Htame. destruct n as [| | |q]; try discriminate.
  - exists 5. split; [reflexivity|lia].
  - exists 5. split; [reflexivity|lia].
  - cbn [isNaN orb le of_Z]. change (inject_Z 0) with 0%Q.
    destruct (Qle_bool q 0) eqn:Hle; [exists 5; split; [reflexivity|lia]|].
    cbn in Htame. rewrite Hle in Htame. cbn in Htame.
    pose proof (floor_one_up q Htame) as Hone.
    cbn [floor]. fold (of_Z (Qfloor q)). unfold max. cbn [isNaN of_Z orb].
    fold (of_Z 1) (of_Z (Qfloor q)). rewrite lt_of_Z.
    destruct (Z.ltb_spec 1 (Qfloor q)).
    + exists (Qfloor q). split; [reflexivity|lia].
    + exists 1. split; [reflexivity|lia].
Qed.

(** On input whose numeric fields are tame, the settings have the intended
    shape. *)
Lemma normalize_well_shaped (raw : obj) :
  tame (to_number (prop raw "perKeyword")) = true ->
  tame_value (prop raw "lastUploadMaxAgeDays") ->
  tame_value (prop raw "enrichLimit") ->
  well_shaped (normalizeDiscoverySettings raw).
Proof.
  intros Hper Hlast Hlimit. unfold well_shaped, normalizeDiscoverySettings.
  cbn [keywordsText keywords perKeyword lastUploadMaxAgeDays enrichLimit
       autoEnrichEnabled autoEnrichMode runUntilStopped
       defaultDiscoverySettingsState].
  repeat split.
  - apply tame_perKeyword, Hper.
  - apply tame_positiveOrNull, Hlast.
  - apply tame_positiveOrNull, Hlimit.
  - destruct (prop raw "autoEnrichMode"); auto. destruct (String.eqb _ _); auto.
Qed.

(** *** Saving and loading *)

Lemma stored_prop (s : DiscoverySettings) (k : string) (v : value) :
  as_object s !! k = Some v -> v <> VUndefined ->
  prop (stored_object s) k = json_value v.
Proof.
  intros Hk Hv. unfold prop, stored_object, spread, json_object.
  rewrite lookup_union, lookup_omap, Hk. clear Hk.
  destruct v; try congruence; destruct (_ !! k); reflexivity.
Qed.

Lemma read_keywordsText s :
  prop (stored_object s) "keywordsText" = VStr (keywordsText s).
Proof.
  rewrite (stored_prop s _ (VStr (keywordsText s)));
    [reflexivity|reflexivity|discriminate].
Qed.

Lemma read_perKeyword s :
  prop (stored_object s) "perKeyword" = json_value (VNum (perKeyword s)).
Proof. apply stored_prop; [reflexivity|discriminate]. Qed.

Lemma read_lastUpload s :
  prop (stored_object s) "lastUploadMaxAgeDays"
  = json_value (nullable (lastUploadMaxAgeDays s)).
Proof.
  apply stored_prop; [reflexivity|destruct (lastUploadMaxAgeDays s); discriminate].
Qed.

Lemma read_enrichLimit s :
  prop (stored_object s) "enrichLimit" = json_value (nullable (enrichLimit s)).
Proof.
  apply stored_prop; [reflexivity|destruct (enrichLimit s); discriminate].
Qed.

Lemma read_mode s :
  prop (stored_object s) "autoEnrichMode" = VStr (autoEnrichMode s).
Proof.
  rewrite (stored_prop s _ (VStr (autoEnrichMode s)));
    [reflexivity|reflexivity|discriminate].
Qed.

Lemma read_enabled s :
  prop (stored_object s) "autoEnrichEnabled" = VBool (autoEnrichEnabled s).
Proof.
  rewrite (stored_prop s _ (VBool (autoEnrichEnabled s)));
    [reflexivity|reflexivity|discriminate].
Qed.

Lemma read_loop s :
  prop (stored_object s) "runUntilStopped" = VBool (runUntilStopped s).
Proof.
  rewrite (stored_prop s _ (VBool (runUntilStopped s)));
    [reflexivity|reflexivity|discriminate].
Qed.

Lemma whole_positive_kept n :
  whole_positive n -> positiveOrNull (VNum n) = Some n.
Proof.
  intros (z & -> & Hz). unfold positiveOrNull. rewrite gt_of_Z, floor_of_Z.
  destruct (Z.ltb_spec 0 z); [reflexivity|lia].
Qed.

Lemma whole_positive_perKeyword n :
  whole_positive n ->
  (if isNaN n || le n (of_Z 0) then of_Z 5 else max (of_Z 1) (floor n)) = n.
Proof.
  intros (z & -> & Hz). rewrite le_of_Z, floor_of_Z. cbn [isNaN of_Z orb].
  destruct (Z.leb_spec z 0); [lia|]. unfold max. cbn [isNaN of_Z orb].
  rewrite lt_of_Z. destruct (Z.ltb_spec 1 z); [reflexivity|].
  replace z with 1 by lia. reflexivity.
Qed.

(** Settings of the intended shape come back from storage as they were. *)
Lemma reload_well_shaped (s : DiscoverySettings) :
  well_shaped s ->
  let reloaded := loadDiscoverySettings (saveDiscoverySettings s) in
  keywordsText reloaded = keywordsText s
  /\ keywords reloaded = keywords s
  /\ perKeyword reloaded = perKeyword s
  /\ lastUploadMaxAgeDays reloaded = lastUploadMaxAgeDays s
  /\ enrichLimit reloaded = enrichLimit s
  /\ autoEnrichEnabled reloaded = autoEnrichEnabled s
  /\ autoEnrichMode reloaded = autoEnrichMode s
  /\ runUntilStopped reloaded = runUntilStopped s.
Proof.
  intros (Hper & Hlast & Hlimit & Hmode & Hkeys) reloaded. subst reloaded.
  unfold loadDiscoverySettings, saveDiscoverySettings. fold (stored_object s).
  unfold normalizeDiscoverySettings.
  rewrite read_keywordsText, read_perKeyword, read_lastUpload, read_enrichLimit,
    read_mode, read_enabled, read_loop.
  cbn [keywordsText keywords perKeyword lastUploadMaxAgeDays enrichLimit
       autoEnrichEnabled autoEnrichMode runUntilStopped truthy].
  repeat split.
  - symmetry. exact Hkeys.
  - destruct Hper as (z & E & Hz). rewrite E. cbn [json_value of_Z to_number].
    apply whole_positive_perKeyword. exists z. auto.
  - destruct (lastUploadMaxAgeDays s) as [n|] eqn:E; [|reflexivity].
    destruct (Hlast n eq_refl) as (z & -> & Hz). cbn [nullable json_value of_Z].
    apply (whole_positive_kept (of_Z z)). exists z. auto.
  - destruct (enrichLimit s) as [n|] eqn:E; [|reflexivity].
    destruct (Hlimit n eq_refl) as (z & -> & Hz). cbn [nullable json_value of_Z].
    apply (whole_positive_kept (of_Z z)). exists z. auto.
  - destruct Hmode as [-> | ->]; reflexivity.
Qed.

(** *** A limit between 0 and 1 in storage *)

(** C9.  [normalizeDiscoverySettings] is meant to return [enrichLimit] (and
    [lastUploadMaxAgeDays]) as null or a whole number from one on.  On the
    stored object [{ "enrichLimit": 0.5 }] it returns [enrichLimit = 0]: the
    value passes the test [> 0] and is then rounded down, where
    [perKeyword] is clamped with [Math.max(1, ...)]. *)
Theorem normalize_keeps_zero_limit :
  enrichLimit (normalizeDiscoverySettings half_limit) = Some (of_Z 0)
  /\ ~ well_shaped (normalizeDiscoverySettings half_limit).
Proof.
  split; [reflexivity|].
  intros (_ & _ & Hlimit & _).
  destruct (Hlimit (of_Z 0) eq_refl) as (z & E & Hz).
  injection E as <-. lia.
Qed.


End WithHost.
End SettingsFacts.


(* ===================================================================== *)
(** ** Properties of the unique-email filter                             *)
(* ===================================================================== *)

Module EmailsFacts.
Import JS Emails.

Section WithHost.
Context {host : Host} {Fields : Type}.
Implicit Types (seen : gset string) (found unique : list string)
  (items : list (Row Fields)).


Lemma keys_of_cons email found :
  keys_of (email :: found) = {[Text.toLowerCase email]} ∪ keys_of found.
Proof. reflexivity. Qed.

Lemma inner_loop found : forall seen unique,
  fold_left keep_unseen found (seen, unique)
  = (keys_of found ∪ seen, (unique ++ unseen seen found)%list).
Proof.
  induction found as [|email found IH]; intros seen unique.
  - cbn. rewrite app_nil_r. f_equal. unfold keys_of. cbn. set_solver.
  - cbn [fold_left unseen]. unfold keep_unseen at 2. cbn [fst snd].
    destruct (decide (Text.toLowerCase email ∈ seen)) as [Hin|Hout].
    + rewrite IH. f_equal. rewrite keys_of_cons. set_solver.
    + rewrite IH, <- app_assoc. f_equal. rewrite keys_of_cons. set_solver.
Qed.

Lemma visit_row_run seen (filtered : list (Row Fields)) item :
  visit_row (seen, filtered) item
  = (keys_of (found_in item) ∪ seen,
     (filtered ++ match unseen seen (found_in item) with
                  | [] => []
                  | unique => [rendered (item, unique)]
                  end)%list).
Proof.
  unfold visit_row. cbn [fst snd].
  destruct (found_in item) as [|email found] eqn:Hfound.
  - cbn. rewrite app_nil_r. f_equal. unfold keys_of. cbn. set_solver.
  - rewrite inner_loop. cbn [fst snd app].
    destruct (unseen seen (email :: found)); [rewrite app_nil_r|]; reflexivity.
Qed.

Lemma outer_loop items : forall seen (filtered : list (Row Fields)),
  (fold_left visit_row items (seen, filtered)).2
  = (filtered ++ List.map rendered (retained seen items))%list.
Proof.
  induction items as [|item items IH]; intros seen filtered.
  - cbn. rewrite app_nil_r. reflexivity.
  - cbn [fold_left retained]. rewrite visit_row_run, IH.
    destruct (unseen seen (found_in item)); cbn [List.map]; rewrite <- ?app_assoc; 
      [rewrite app_nil_l|]; reflexivity.
Qed.

Lemma retained_sublist items : forall seen,
  sublist (List.map fst (retained seen items)) items.
Proof.
  induction items as [|item items IH]; intros seen; [constructor|].
  cbn [retained]. destruct (unseen seen (found_in item)).
  - apply sublist_cons, IH.
  - cbn. apply sublist_skip, IH.
Qed.

Lemma retained_nonempty items : forall seen,
  Forall (fun kept : Row Fields * list string => kept.2 <> []) (retained seen items).
Proof.
  induction items as [|item items IH]; intros seen; [constructor|].
  cbn [retained]. destruct (unseen seen (found_in item)) eqn:E; [apply IH|].
  constructor; [discriminate|apply IH].
Qed.

Lemma unseen_sublist found : forall seen, sublist (unseen seen found) found.
Proof.
  induction found as [|email found IH]; intros seen; [constructor|].
  cbn [unseen]. destruct (decide _); [apply sublist_cons|apply sublist_skip]; apply IH.
Qed.

Lemma retained_from_row items : forall seen,
  Forall (fun kept : Row Fields * list string => sublist kept.2 (found_in kept.1))
         (retained seen items).
Proof.
  induction items as [|item items IH]; intros seen; [constructor|].
  cbn [retained]. destruct (unseen seen (found_in item)) eqn:E; [apply IH|].
  constructor; [rewrite <- E; apply unseen_sublist|apply IH].
Qed.

Lemma unseen_first found : forall seen earlier,
  seen = list_to_set (List.map Text.toLowerCase earlier) ->
  unseen seen found = first_occurrences earlier found
  /\ keys_of found ∪ seen
     = list_to_set (List.map Text.toLowerCase (earlier ++ unseen seen found)).
Proof.
  induction found as [|email found IH]; intros seen earlier Hseen.
  - cbn. rewrite app_nil_r. split; [reflexivity|]. rewrite <- Hseen. unfold keys_of. cbn. set_solver.
  - cbn [unseen first_occurrences]. rewrite keys_of_cons.
    destruct (decide (Text.toLowerCase email ∈ seen)) as [Hin|Hout];
      destruct (decide (Text.toLowerCase email ∈ List.map Text.toLowerCase earlier)) as [Hin'|Hout'].
    + destruct (IH seen earlier Hseen) as [-> <-]. split; [reflexivity|]. set_solver.
    + exfalso. apply Hout'. subst seen. apply elem_of_list_to_set in Hin. exact Hin.
    + exfalso. apply Hout. subst seen. apply elem_of_list_to_set. exact Hin'.
    + destruct (IH ({[Text.toLowerCase email]} ∪ seen) (earlier ++ [email])%list) as [-> E].
      { subst seen. rewrite map_app, list_to_set_app_L. cbn. set_solver. }
      split; [reflexivity|]. rewrite <- app_assoc in E. cbn in E. rewrite <- E. set_solver.
Qed.

Lemma first_occurrences_app l1 : forall earlier l2,
  first_occurrences earlier (l1 ++ l2)
  = (first_occurrences earlier l1
     ++ first_occurrences (earlier ++ first_occurrences earlier l1) l2)%list.
Proof.
  induction l1 as [|email l1 IH]; intros earlier l2.
  - cbn. rewrite app_nil_r. reflexivity.
  - cbn [app first_occurrences]. destruct (decide _).
    + apply IH.
    + rewrite IH, <- app_assoc. reflexivity.
Qed.

Lemma retained_first items : forall seen earlier,
  seen = list_to_set (List.map Text.toLowerCase earlier) ->
  concat (List.map snd (retained seen items))
  = first_occurrences earlier (concat (List.map found_in items)).
Proof.
  induction items as [|item items IH]; intros seen earlier Hseen; [reflexivity|].
  cbn [retained List.map concat]. rewrite first_occurrences_app.
  destruct (unseen_first (found_in item) seen earlier Hseen) as [Hu Hafter].
  rewrite <- Hu.
  rewrite <- (IH _ _ Hafter).
  destruct (unseen seen (found_in item)); reflexivity.
Qed.

Lemma first_occurrences_fresh found : forall earlier,
  NoDup (List.map Text.toLowerCase (first_occurrences earlier found))
  /\ forall email, email ∈ first_occurrences earlier found ->
                   Text.toLowerCase email ∉ List.map Text.toLowerCase earlier.
Proof.
  induction found as [|email found IH]; intros earlier.
  - split; [constructor|]. intros ? H. inversion H.
  - cbn [first_occurrences]. destruct (decide _) as [Hin|Hout]; [apply IH|].
    destruct (IH (earlier ++ [email])%list) as [Hnd Hfresh]. split.
    + cbn. constructor; [|exact Hnd].
      intros Hdup. apply list_elem_of_fmap in Hdup as (other & Hkey & Hother).
      apply (Hfresh other Hother). rewrite map_app. apply elem_of_app. right.
      cbn. rewrite <- Hkey. left.
    + intros other Hother. apply elem_of_cons in Hother as [->|Hother]; [exact Hout|].
      intros Hbad. apply (Hfresh other Hother). rewrite map_app. apply elem_of_app. left. exact Hbad.
Qed.

(** C10.  [applyUniqueEmailFilter] returns the rows of [retained ∅ items],
    each with its [emails] column replaced by its own list joined with
    [', ']: these rows are a sublist of the input in the input order; every
    list has an address; no address, compared in lower case, occurs twice in
    the lists taken together, so none occurs in two rows; every list is a
    sublist of the addresses extracted from that row's own [emails]; and the
    lists taken together are the first occurrences, in lower case, among all
    the addresses extracted from the table in order. *)
Theorem unique_email_filter items :
  let kept := retained ∅ items in
  applyUniqueEmailFilter items = List.map rendered kept
  /\ sublist (List.map fst kept) items
  /\ Forall (fun k : Row Fields * list string => k.2 <> []) kept
  /\ NoDup (List.map Text.toLowerCase (concat (List.map snd kept)))
  /\ Forall (fun k : Row Fields * list string => sublist k.2 (found_in k.1)) kept
  /\ concat (List.map snd kept)
     = first_occurrences [] (concat (List.map found_in items)).
Proof.
  intros kept. subst kept.
  assert (Hfirst := retained_first items ∅ [] eq_refl).
  repeat split.
  - unfold applyUniqueEmailFilter. rewrite outer_loop. reflexivity.
  - apply retained_sublist.
  - apply retained_nonempty.
  - rewrite Hfirst. apply first_occurrences_fresh.
  - apply retained_from_row.
  - exact Hfirst.
Qed.

End WithHost.
End EmailsFacts.


(* ===================================================================== *)
(** ** Properties of the dashboard controller                            *)
(* ===================================================================== *)

Module DashFacts.
Import JS Settings Dash.

Ltac run_m :=
  unfold mbind, mret, M_bind, M_ret, this, update, emit, skip,
    updateStatusBar, loadTable, setDiscoveryLoopRunningState; cbn.

(** *** Running handlers one after the other *)

Lemma bind_run {A B} (m : M A) (f : A -> M B) (d : Dashboard) :
  (m ≫= f) d = let '(a, d1, log1) := m d in
               let '(b, d2, log2) := f a d1 in (b, d2, (log1 ++ log2)%list).
Proof. reflexivity. Qed.

Lemma this_run (d : Dashboard) : this d = (d, d, []).
Proof. reflexivity. Qed.

Lemma state_after_bind {A B} (m : M A) (f : A -> M B) d :
  state_after (m ≫= f) d = state_after (f (result_of m d)) (state_after m d).
Proof.
  unfold state_after, result_of. rewrite bind_run.
  destruct (m d) as [[a d1] l1]. cbn. destruct (f a d1) as [[b d2] l2].
  reflexivity.
Qed.

Lemma log_of_bind {A B} (m : M A) (f : A -> M B) d :
  log_of (m ≫= f) d
  = (log_of m d ++ log_of (f (result_of m d)) (state_after m d))%list.
Proof.
  unfold log_of, state_after, result_of. rewrite bind_run.
  destruct (m d) as [[a d1] l1]. cbn. destruct (f a d1) as [[b d2] l2].
  reflexivity.
Qed.

Lemma discoveries_app l1 l2 :
  discoveries (l1 ++ l2) = (discoveries l1 ++ discoveries l2)%list.
Proof. apply omap_app. Qed.

Lemma discoveries_request inputs l :
  discoveries (Call (discoverChannels inputs) :: l) = inputs :: discoveries l.
Proof. reflexivity. Qed.

Lemma discoveries_other e l :
  discoveries [e] = [] -> discoveries (e :: l) = discoveries l.
Proof.
  intros He. change (e :: l)%list with ([e] ++ l)%list.
  rewrite discoveries_app, He. reflexivity.
Qed.

Ltac count_requests :=
  repeat first
    [ rewrite discoveries_app
    | rewrite discoveries_request
    | rewrite discoveries_other by reflexivity ].

Lemma silent_nil : silent [].
Proof. repeat split. Qed.

Lemma silent_app l1 l2 : silent l1 -> silent l2 -> silent (l1 ++ l2).
Proof.
  unfold silent, starts, reports, timers.
  intros (S1 & R1 & T1) (S2 & R2 & T2).
  rewrite !omap_app, S1, S2, R1, R2, T1, T2. auto.
Qed.

(** *** Numbers passed as limits *)

Lemma positive_limit z : 0 < z -> non_positive (Some (of_Z z)) = false.
Proof.
  intros H. unfold non_positive. cbn [isNaN of_Z orb].
  rewrite (SettingsFacts.le_of_Z z 0). lia.
Qed.

(** *** Handlers that leave the loop alone *)

Lemma aside_ret {A} (a : A) : aside (mret a).
Proof. intros d. split; reflexivity. Qed.

Lemma aside_this : aside this.
Proof. intros d. split; reflexivity. Qed.

Lemma aside_update f :
  (forall d, loop_view (f d) = loop_view d) -> aside (update f).
Proof. intros Hf d. split; [apply Hf|reflexivity]. Qed.

Lemma aside_emit e : discoveries [e] = [] -> aside (emit e).
Proof. intros He d. split; [reflexivity|exact He]. Qed.

Lemma aside_bind {A B} (m : M A) (k : A -> M B) :
  aside m -> (forall a, aside (k a)) -> aside (m ≫= k).
Proof.
  intros Hm Hk d. rewrite state_after_bind, log_of_bind, discoveries_app.
  destruct (Hm d) as [Hview Hlog].
  destruct (Hk (result_of m d) (state_after m d)) as [Hview' Hlog'].
  rewrite Hview', Hview, Hlog, Hlog'. split; reflexivity.
Qed.

Ltac asides :=
  repeat first
    [ apply aside_ret
    | apply aside_this
    | apply aside_emit; reflexivity
    | apply aside_update; intros []; reflexivity
    | apply aside_bind; [|intros ?]
    | match goal with
      | |- aside (if ?c then _ else _) => destruct c
      | |- aside (match ?x with _ => _ end) => destruct x
      end ].

Lemma aside_closeDropdown menu : aside (closeDropdown menu).
Proof. unfold closeDropdown, skip. asides. Qed.

Lemma aside_handleEnrich mode overrides answer :
  aside (handleEnrich mode overrides answer).
Proof.
  unfold handleEnrich, handleEnrich_begin, handleEnrich_resume, updateStatusBar, skip.
  apply aside_bind.
  - apply aside_bind; [apply aside_closeDropdown|intros ?]. asides.
  - intros sent. asides.
Qed.

Lemma aside_triggerAutoEnrich count answer : aside (triggerAutoEnrich count answer).
Proof.
  unfold triggerAutoEnrich, updateStatusBar, skip.
  destruct (count <=? 0); [asides|].
  apply aside_bind; [asides|intros d0].
  destruct (negb _); [asides|]. destruct (enrichmentBusy d0); [asides|].
  apply aside_handleEnrich.
Qed.

Lemma aside_processPending answer : aside (processPendingAutoEnrich answer).
Proof.
  unfold processPendingAutoEnrich.
  apply aside_bind; [asides|intros d0].
  destruct (_ || _); [asides|]. destruct (negb _); [asides|].
  apply aside_bind; [asides|intros ?]. apply aside_bind; [asides|intros ?].
  apply aside_triggerAutoEnrich.
Qed.

Lemma aside_finalize delivered : aside (tryFinalizeDiscoveryLoop delivered).
Proof.
  unfold tryFinalizeDiscoveryLoop, tryFinalizeDiscoveryLoop_begin,
    tryFinalizeDiscoveryLoop_resume, skip.
  asides.
Qed.

Lemma aside_refresh stats now : aside (maybeRefreshAfterLoop stats now).
Proof.
  unfold maybeRefreshAfterLoop, loadTable, updateStatusBar, skip.
  destruct stats as [stats|]; [|asides].
  destruct (running stats); [asides|]. destruct (negb _); [asides|].
  destruct (_ || _); [asides|].
  apply aside_bind; [asides|intros d0].
  destruct (same_version _ _); [asides|].
  destruct (refreshed_notice _). asides.
Qed.

Lemma aside_loadStats answer now : aside (loadStats answer now).
Proof.
  unfold loadStats, loadStats_begin, loadStats_resume, updateStatusBar, skip.
  apply aside_bind; [asides|intros sent]. destruct sent; [|asides].
  apply aside_bind; [|intros ?; asides].
  destruct answer; try apply aside_refresh. asides.
Qed.

Lemma aside_streamProgress p stats now answer delivered :
  aside (streamProgress p stats now answer delivered).
Proof.
  unfold streamProgress, streamDone_refresh, streamDone_settle, loadTable,
    updateStatusBar, skip.
  destruct (p_done p); [|asides].
  apply aside_bind.
  - apply aside_bind; [asides|intros ?]. apply aside_bind; [asides|intros ?].
    apply aside_bind; [apply aside_loadStats|intros ?]. asides.
  - intros ?. apply aside_bind; [asides|intros ?].
    apply aside_bind; [apply aside_processPending|intros ?]. apply aside_finalize.
Qed.

Lemma aside_streamError : aside streamError.
Proof. unfold streamError, updateStatusBar. asides. Qed.

Lemma aside_run_resume label defer answer stats now enrich :
  aside (performDiscoveryRun_resume label defer answer stats now enrich).
Proof.
  unfold performDiscoveryRun_resume, loadTable, updateStatusBar, skip.
  destruct answer as [response|]; [|asides].
  apply aside_bind; [asides|intros ?].
  apply aside_bind; [apply aside_loadStats|intros ?].
  apply aside_bind; [asides|intros ?].
  apply aside_bind; [apply aside_triggerAutoEnrich|intros ?]. asides.
Qed.

Lemma run_resume_result label defer answer stats now enrich d :
  result_of (performDiscoveryRun_resume label defer answer stats now enrich) d
  = answer.
Proof.
  unfold performDiscoveryRun_resume. destruct answer as [response|]; [|reflexivity].
  unfold result_of. rewrite bind_run. destruct (_ d) as [[? d1] l1].
  rewrite bind_run. destruct (loadStats stats now d1) as [[? d2] l2].
  rewrite bind_run. destruct (loadTable Active d2) as [[? d3] l3].
  rewrite bind_run. destruct (triggerAutoEnrich _ _ d3) as [[? d4] l4].
  reflexivity.
Qed.

(** *** Starting and stopping the loop *)

(** C4.  When the loop is running, [startDiscoveryLoop] returns at its
    first test: the whole state is as before, no loop is begun (the call
    returns without inputs and asks nothing of the server), and the only
    effect is the notice 'Discovery loop is already running.'. *)
Theorem start_while_running_changes_nothing
        (d : Dashboard) (initialInputs : option DiscoveryInputs) :
  discoveryLoopActive d = true ->
  startDiscoveryLoop_begin initialInputs d
  = (None, d, [StatusBar LoopAlreadyRunning Info]).
Proof.
  intros Hactive. unfold startDiscoveryLoop_begin. run_m.
  rewrite Hactive. reflexivity.
Qed.

Lemma start_while_running_witness :
  let d := set_discoveryLoopStopping true
             (set_discoveryLoopStats {| runs := 2; found := 4 |}
                (set_discoveryLoopActive true constructed)) in
  discoveryLoopActive d = true
  /\ startDiscoveryLoop_begin None d = (None, d, [StatusBar LoopAlreadyRunning Info]).
Proof.
  split; [reflexivity|].
  apply start_while_running_changes_nothing. reflexivity.
Defined.

Lemma stop_twice d :
  (stopDiscoveryLoop;; stopDiscoveryLoop) d = stopDiscoveryLoop d.
Proof.
  unfold stopDiscoveryLoop. run_m.
  destruct (discoveryLoopActive d) eqn:Ha, (discoveryLoopStopping d) eqn:Hs; cbn;
    rewrite ?Ha, ?Hs; cbn; rewrite ?Ha, ?Hs; reflexivity.
Qed.

Lemma stop_view d :
  discoveryLoopActive d = true ->
  loop_view (state_after stopDiscoveryLoop d) = (true, true, discoveryLoopStats d)
  /\ discoveries (log_of stopDiscoveryLoop d) = [].
Proof.
  intros Ha. unfold loop_view, state_after, log_of, stopDiscoveryLoop. run_m.
  rewrite Ha. cbn. destruct (discoveryLoopStopping d) eqn:Hs; cbn.
  - rewrite Ha, Hs. split; reflexivity.
  - destruct d; cbn in *. subst. split; reflexivity.
Qed.

Lemma start_view initialInputs d :
  discoveryLoopActive d = true ->
  loop_view (state_after (startDiscoveryLoop_begin initialInputs;; skip) d) = loop_view d
  /\ discoveries (log_of (startDiscoveryLoop_begin initialInputs;; skip) d) = [].
Proof.
  intros Ha. unfold state_after, log_of.
  rewrite bind_run. unfold startDiscoveryLoop_begin. run_m. rewrite Ha.
  split; reflexivity.
Qed.

(** While the loop runs, what is called from outside can only raise the
    stop flag, and sends no discovery request. *)
Lemma interrupt_view i d :
  discoveryLoopActive d = true ->
  loop_view (state_after (interrupt i) d)
  = (true, discoveryLoopStopping d || is_stop i, discoveryLoopStats d)
  /\ discoveries (log_of (interrupt i) d) = [].
Proof.
  intros Ha.
  assert (Hsame : forall m : M unit, aside m ->
            loop_view (state_after m d)
            = (true, discoveryLoopStopping d || false, discoveryLoopStats d)
            /\ discoveries (log_of m d) = []).
  { intros m Hm. destruct (Hm d) as [-> ->]. unfold loop_view.
    rewrite Ha, orb_false_r. split; reflexivity. }
  destruct i; cbn [interrupt is_stop].
  - destruct (stop_view d Ha) as [-> ->]. rewrite orb_true_r. split; reflexivity.
  - destruct (start_view initialInputs d Ha) as [-> ->]. unfold loop_view.
    rewrite Ha, orb_false_r. split; reflexivity.
  - apply Hsame, aside_handleEnrich.
  - apply Hsame, aside_triggerAutoEnrich.
  - apply Hsame, aside_streamProgress.
  - apply Hsame, aside_streamError.
  - apply Hsame, aside_loadStats.
  - apply Hsame, aside_finalize.
Qed.

Lemma interrupts_view l : forall d,
  discoveryLoopActive d = true ->
  loop_view (state_after (interrupts l) d)
  = (true, discoveryLoopStopping d || stop_in l, discoveryLoopStats d)
  /\ discoveries (log_of (interrupts l) d) = [].
Proof.
  induction l as [|i l IH]; intros d Ha.
  - unfold loop_view. cbn. rewrite Ha, orb_false_r. split; reflexivity.
  - cbn [interrupts stop_in existsb].
    rewrite state_after_bind, log_of_bind, discoveries_app.
    destruct (interrupt_view i d Ha) as [Hview Hlog].
    injection Hview as Ha1 Hs1 Hst1.
    destruct (IH (state_after (interrupt i) d) Ha1) as [Hview' Hlog'].
    rewrite Hview', Hlog, Hlog', Hs1, Hst1, orb_assoc. split; reflexivity.
Qed.

Lemma interrupts_stop_twice d :
  interrupts [StopCalled; StopCalled] d = interrupts [StopCalled] d.
Proof.
  pose proof (stop_twice d) as Htwice.
  cbn [interrupts interrupt]. rewrite bind_run in Htwice. rewrite !bind_run.
  destruct (stopDiscoveryLoop d) as [[[] d1] l1].
  rewrite bind_run. destruct (stopDiscoveryLoop d1) as [[[] d2] l2].
  injection Htwice as -> Hlog.
  rewrite <- (app_nil_r l1) in Hlog at 2. apply app_inv_head in Hlog. subst l2.
  reflexivity.
Qed.

(** *** Counting runs *)

Lemma completed_cons_some turn n used :
  run_found turn = Some n -> completed (turn :: used) = n :: completed used.
Proof. intros H. unfold completed. cbn. rewrite H. reflexivity. Qed.

Lemma completed_cons_none turn used :
  run_found turn = None -> completed (turn :: used) = completed used.
Proof. intros H. unfold completed. cbn. rewrite H. reflexivity. Qed.






(** *** One turn of the loop *)

Lemma discovery_while_nil inputs d :
  discovery_while inputs [] d =
  if discoveryLoopStopping d then (Left false [], d, [])
  else (Waiting, d,
        [StatusBar (DiscoveryStarting (Some (runs (discoveryLoopStats d) + 1))) Info;
         Call (discoverChannels inputs)]).
Proof.
  cbn [discovery_while]. unfold performDiscoveryRun_begin. run_m.
  destruct (discoveryLoopStopping d); reflexivity.
Qed.

Lemma discovery_while_step inputs turn rest d :
  discovery_while inputs (turn :: rest) d =
  if discoveryLoopStopping d then (Left false (turn :: rest), d, [])
  else
    let runIndex := runs (discoveryLoopStats d) + 1 in
    let starting := StatusBar (DiscoveryStarting (Some runIndex)) Info in
    let request := Call (discoverChannels inputs) in
    let '(_, d1, log1) := interrupts (during_run turn) d in
    let '(result, d2, log2) :=
      performDiscoveryRun_resume (Some runIndex) true (discovered turn)
        (run_stats turn) (run_now turn) (run_enrich turn) d1 in
    match result with
    | None => (Left true rest, d2, starting :: request :: log1 ++ log2 ++ [])%list
    | Some response =>
        let counted :=
          {| runs := runs (discoveryLoopStats d2) + 1;
             found := found (discoveryLoopStats d2) + d_found response |} in
        let d3 := set_discoveryLoopStats counted d2 in
        let report := Call (notifyDiscoveryLoopProgress (runs counted) (found counted)) in
        let '(_, d4, log4) := interrupts (during_report turn) d3 in
        let shown :=
          StatusBar (RunTotal runIndex (d_found response) (found (discoveryLoopStats d4)))
                    Success in
        if discoveryLoopStopping d4 then
          (Left false rest, d4,
           starting :: request :: log1 ++ log2 ++ report :: log4 ++ [shown])%list
        else
          let '(_, d5, log5) := interrupts (during_delay turn) d4 in
          if discoveryLoopStopping d5 then
            (Left false rest, d5,
             starting :: request :: log1 ++ log2 ++ report :: log4
               ++ shown :: Wait 2000 :: log5 ++ [])%list
          else
            let '(exit, d6, log6) := discovery_while inputs rest d5 in
            (exit, d6,
             starting :: request :: log1 ++ log2 ++ report :: log4
               ++ shown :: Wait 2000 :: log5 ++ log6)%list
    end.
Proof.
  cbn [discovery_while].
  unfold reportDiscoveryLoopProgress, performDiscoveryRun_begin. run_m.
  destruct (discoveryLoopStopping d); [reflexivity|].
  destruct (interrupts (during_run turn) d) as [[[] d1] log1].
  destruct (performDiscoveryRun_resume _ _ _ _ _ _ d1) as [[[response|] d2] log2];
    [|reflexivity].
  cbn.
  destruct (interrupts (during_report turn) _) as [[[] d4] log4]. cbn.
  destruct (discoveryLoopStopping d4); [reflexivity|].
  destruct (interrupts (during_delay turn) d4) as [[[] d5] log5]. cbn.
  destruct (discoveryLoopStopping d5); [reflexivity|].
  destruct (discovery_while inputs rest d5) as [[exit d6] log6]. reflexivity.
Qed.

(** What a list of calls made from outside leaves of the loop fields. *)
Lemma interrupts_run l d u d1 log1 :
  discoveryLoopActive d = true ->
  interrupts l d = (u, d1, log1) ->
  discoveryLoopActive d1 = true
  /\ discoveryLoopStopping d1 = discoveryLoopStopping d || stop_in l
  /\ discoveryLoopStats d1 = discoveryLoopStats d
  /\ discoveries log1 = [].
Proof.
  intros Ha Hrun. destruct (interrupts_view l d Ha) as [Hview Hlog].
  unfold state_after, log_of in *. rewrite Hrun in *. cbn [fst snd] in *.
  injection Hview as -> -> ->. auto.
Qed.

(** The run after its answer: the answer is handed on, the loop fields
    stay. *)
Lemma resume_run label defer answer stats now enrich d result d2 log2 :
  performDiscoveryRun_resume label defer answer stats now enrich d
  = (result, d2, log2) ->
  result = answer
  /\ discoveryLoopActive d2 = discoveryLoopActive d
  /\ discoveryLoopStopping d2 = discoveryLoopStopping d
  /\ discoveryLoopStats d2 = discoveryLoopStats d
  /\ discoveries log2 = [].
Proof.
  intros Hrun.
  pose proof (run_resume_result label defer answer stats now enrich d) as Hres.
  destruct (aside_run_resume label defer answer stats now enrich d) as [Hview Hlog].
  unfold result_of, state_after, log_of in *. rewrite Hrun in *. cbn [fst snd] in *.
  injection Hview as -> -> ->. auto.
Qed.

Lemma counted_view st d :
  discoveryLoopActive (set_discoveryLoopStats st d) = discoveryLoopActive d
  /\ discoveryLoopStopping (set_discoveryLoopStats st d) = discoveryLoopStopping d
  /\ discoveryLoopStats (set_discoveryLoopStats st d) = st.
Proof. destruct d. auto. Qed.

(** *** When the loop is left *)



(** A stop called during a run: the run is counted, no other run begins. *)
Lemma discovery_while_stopped_during_run inputs turn rest d n :
  discoveryLoopActive d = true -> discoveryLoopStopping d = false ->
  stop_in (during_run turn) = true -> run_found turn = Some n ->
  exists d' log,
    discovery_while inputs (turn :: rest) d = (Left false rest, d', log)
    /\ loop_view d'
       = (true, true, {| runs := runs (discoveryLoopStats d) + 1;
                         found := found (discoveryLoopStats d) + n |})
    /\ discoveries log = [inputs].
Proof.
  intros Ha Hs Hstop Hfound.
  unfold run_found in Hfound.
  destruct (discovered turn) as [response|] eqn:Hanswer; [|discriminate].
  injection Hfound as <-.
  rewrite discovery_while_step, Hs. cbn zeta.
  destruct (interrupts (during_run turn) d) as [[u1 d1] log1] eqn:E1.
  destruct (interrupts_run _ _ _ _ _ Ha E1) as (Ha1 & Hs1 & Hst1 & L1).
  destruct (performDiscoveryRun_resume _ _ _ _ _ _ d1) as [[result d2] log2] eqn:E2.
  destruct (resume_run _ _ _ _ _ _ _ _ _ _ E2) as (-> & Ha2 & Hs2 & Hst2 & L2).
  rewrite Ha1 in Ha2. rewrite Hs1, Hs, Hstop in Hs2. rewrite Hst1 in Hst2.
  cbn [orb] in Hs2.
  rewrite Hanswer, Hst2.
  set (counted := {| runs := runs (discoveryLoopStats d) + 1;
                     found := found (discoveryLoopStats d) + d_found response |}).
  destruct (counted_view counted d2) as (Ha3 & Hs3 & Hst3).
  rewrite Ha2 in Ha3. rewrite Hs2 in Hs3.
  destruct (interrupts (during_report turn) _) as [[u4 d4] log4] eqn:E4.
  destruct (interrupts_run _ _ _ _ _ Ha3 E4) as (Ha4 & Hs4 & Hst4 & L4).
  rewrite Hs3 in Hs4. rewrite Hst3 in Hst4. cbn [orb] in Hs4.
  rewrite Hs4.
  eexists _, _. split; [reflexivity|]. split.
  - unfold loop_view. rewrite Ha4, Hs4, Hst4. reflexivity.
  - count_requests. rewrite L1, L2, L4. reflexivity.
Qed.


(** A start while no loop runs: with inputs it begins a loop with both
    counters at zero and no stop requested. *)
Lemma begin_inactive initialInputs d :
  discoveryLoopActive d = false ->
  if can_start initialInputs d then
    exists inputs d1 log,
      startDiscoveryLoop_begin initialInputs d = (Some inputs, d1, log)
      /\ loop_view d1 = (true, false, {| runs := 0; found := 0 |})
  else
    exists log, startDiscoveryLoop_begin initialInputs d = (None, d, log).
Proof.
  intros Ha.
  unfold startDiscoveryLoop_begin, can_start, collectDiscoveryInputsFromSettings.
  run_m. rewrite Ha.
  destruct initialInputs as [given|]; cbn.
  - eexists _, _, _. split; [reflexivity|]. destruct d; reflexivity.
  - destruct (keywords (discoverySettings d)); cbn.
    + eexists. reflexivity.
    + eexists _, _, _. split; [reflexivity|]. destruct d; reflexivity.
Qed.



(** C2.  With the loop running and no stop requested yet: two calls of
    [stopDiscoveryLoop] in a row leave the state and the log of one call;
    any calls made from outside among which [stopDiscoveryLoop] occurs,
    however often, leave the loop fields as one call of it does; and a run
    during which it is called, once or more, is taken to its end: if it
    comes back with a response it is counted with its found-count, the loop
    is then left with the turns that follow unused, and the one discovery
    request of that run is the only one sent. *)
Theorem stop_twice_is_stop_once
        (inputs : DiscoveryInputs) (d : Dashboard) (turn : Turn) (rest : list Turn)
        (n : Z) :
  discoveryLoopActive d = true ->
  discoveryLoopStopping d = false ->
  stop_in (during_run turn) = true ->
  run_found turn = Some n ->
  (stopDiscoveryLoop;; stopDiscoveryLoop) d = stopDiscoveryLoop d
  /\ (forall calls,
        stop_in calls = true ->
        loop_view (state_after (interrupts calls) d)
        = loop_view (state_after stopDiscoveryLoop d))
  /\ exists d' log,
       discovery_while inputs (turn :: rest) d = (Left false rest, d', log)
       /\ loop_view d'
          = (true, true, {| runs := runs (discoveryLoopStats d) + 1;
                            found := found (discoveryLoopStats d) + n |})
       /\ discoveries log = [inputs].
Proof.
  intros Ha Hs Hstop Hfound. split; [apply stop_twice|]. split.
  - intros calls Hcalls.
    destruct (interrupts_view calls d Ha) as [-> _].
    destruct (stop_view d Ha) as [-> _].
    rewrite Hcalls, orb_true_r. reflexivity.
  - apply discovery_while_stopped_during_run; assumption.
Qed.

Lemma stop_twice_is_stop_once_witness :
  let d := state_after (startDiscoveryLoop_begin None) constructed in
  let inputs :=
    {| in_keywords := keywords defaultDiscoverySettingsState;
       in_perKeyword := perKeyword defaultDiscoverySettingsState;
       in_denyLanguages := [];
       in_lastUploadMaxAgeDays := None |} in
  discoveryLoopActive d = true
  /\ discoveryLoopStopping d = false
  /\ (stopDiscoveryLoop;; stopDiscoveryLoop) d = stopDiscoveryLoop d
  /\ exists d' log,
       discovery_while inputs [stopped_twice_turn 2; plain_turn 2] d
       = (Left false [plain_turn 2], d', log)
       /\ loop_view d' = (true, true, {| runs := 1; found := 2 |})
       /\ discoveries log = [inputs].
Proof.
  intros d inputs.
  split; [reflexivity|]. split; [reflexivity|].
  destruct (stop_twice_is_stop_once inputs d (stopped_twice_turn 2)
              [plain_turn 2] 2 eq_refl eq_refl eq_refl eq_refl) as (H1 & _ & H3).
  split; [exact H1|exact H3].
Defined.

(** *** Handlers that stand by *)

Lemma seen_same d :
  set_lastLoopCompletionVersion (lastLoopCompletionVersion d) d = d.
Proof. destruct d; reflexivity. Qed.

Lemma seen_twice a b d :
  set_lastLoopCompletionVersion b (set_lastLoopCompletionVersion a d)
  = set_lastLoopCompletionVersion b d.
Proof. destruct d; reflexivity. Qed.

Lemma bystander_skip : bystander skip.
Proof.
  intros d. exists (lastLoopCompletionVersion d), []. rewrite seen_same.
  split; [reflexivity|apply silent_nil].
Qed.

Lemma bystander_seen v : bystander (update (set_lastLoopCompletionVersion v)).
Proof. intros d. exists v, []. split; [reflexivity|apply silent_nil]. Qed.

Lemma bystander_emit e : silent [e] -> bystander (emit e).
Proof.
  intros He d. exists (lastLoopCompletionVersion d), [e]. rewrite seen_same. auto.
Qed.

Lemma bystander_then m k : bystander m -> bystander k -> bystander (m;; k).
Proof.
  intros Hm Hk d. rewrite bind_run.
  destruct (Hm d) as (seen1 & log1 & -> & H1).
  destruct (Hk (set_lastLoopCompletionVersion seen1 d)) as (seen2 & log2 & -> & H2).
  exists seen2, (log1 ++ log2)%list. rewrite seen_twice.
  split; [reflexivity|apply silent_app; assumption].
Qed.

Lemma bystander_this (k : Dashboard -> M unit) :
  (forall d0, bystander (k d0)) -> bystander (this ≫= k).
Proof.
  intros Hk d. rewrite bind_run, this_run.
  destruct (Hk d d) as (seen & log & -> & ?). eauto.
Qed.

Ltac standing_by :=
  first [ apply bystander_skip
        | apply bystander_seen
        | apply bystander_emit; repeat split ].

Lemma bystander_refresh stats now : bystander (maybeRefreshAfterLoop stats now).
Proof.
  unfold maybeRefreshAfterLoop. destruct stats as [stats|]; [|standing_by].
  destruct (running stats); [standing_by|].
  destruct (negb _); [standing_by|].
  destruct (_ || _); [standing_by|].
  apply bystander_this. intros d0.
  destruct (same_version _ _); [standing_by|].
  apply bystander_then; [standing_by|].
  apply bystander_then; [standing_by|].
  apply bystander_then.
  - destruct (decide _); standing_by.
  - destruct (refreshed_notice _). standing_by.
Qed.

Lemma promise_round seen d :
  statsPromise d = false ->
  set_statsPromise false (set_lastLoopCompletionVersion seen (set_statsPromise true d))
  = set_lastLoopCompletionVersion seen d.
Proof. destruct d; cbn; intros ->; reflexivity. Qed.

Lemma loadStats_begin_run d :
  loadStats_begin d =
  if statsPromise d then (false, d, [])
  else (true, set_statsPromise true d, [Call fetchStats]).
Proof. unfold loadStats_begin. run_m. destruct (statsPromise d); reflexivity. Qed.

Lemma bystander_loadStats answer now : bystander (loadStats answer now).
Proof.
  intros d. unfold loadStats. rewrite bind_run, loadStats_begin_run.
  destruct (statsPromise d) eqn:Hp.
  - exists (lastLoopCompletionVersion d), []. rewrite seen_same.
    split; [reflexivity|apply silent_nil].
  - unfold loadStats_resume. rewrite bind_run.
    assert (Hin : bystander
                    (match answer with
                     | StatsBody stats => maybeRefreshAfterLoop (Some stats) now
                     | StatsEmpty => maybeRefreshAfterLoop None now
                     | StatsRejected => updateStatusBar StatsFailed Error
                     end)).
    { destruct answer; try apply bystander_refresh. standing_by. }
    destruct (Hin (set_statsPromise true d)) as (seen & log & -> & Hlog).
    exists seen, (Call fetchStats :: log ++ [])%list.
    split; [cbn; rewrite (promise_round _ _ Hp); reflexivity|].
    rewrite app_nil_r. apply (silent_app [Call fetchStats] log); [repeat split|exact Hlog].
Qed.

(** The first part of the [done] branch ends the job and, apart from the
    version last seen, leaves the rest as it is. *)
Lemma refresh_frame p stats now d :
  exists seen log,
    streamDone_refresh p stats now d
    = (tt, set_lastLoopCompletionVersion seen (set_enrichmentBusy false d), log)
    /\ silent log.
Proof.
  unfold streamDone_refresh. rewrite bind_run.
  change (update (set_enrichmentBusy false) d)
    with (tt, set_enrichmentBusy false d, @nil Effect).
  assert (Hrest : bystander
            ((if 0 <? p_skipped p
              then updateStatusBar (SkippedRecently (p_skipped p)) Info else skip);;
             loadStats stats now;; loadTable Active;;
             d ← this;
             if decide (activeTab d = Active) then skip else loadTable (activeTab d))).
  { apply bystander_then; [destruct (0 <? _); standing_by|].
    apply bystander_then; [apply bystander_loadStats|].
    apply bystander_then; [standing_by|].
    apply bystander_this. intros d0. destruct (decide _); standing_by. }
  destruct (Hrest (set_enrichmentBusy false d)) as (seen & log & -> & Hlog).
  exists seen, log. auto.
Qed.

(** *** Manual enrichment while a job is active *)

Lemma closeDropdown_run d : closeDropdown EnrichMenu d = (tt, closed d, []).
Proof. unfold closeDropdown, closed. run_m. destruct (decide _); reflexivity. Qed.

Lemma closed_fields d :
  enrichmentBusy (closed d) = enrichmentBusy d
  /\ pendingAutoEnrich (closed d) = pendingAutoEnrich d
  /\ discoveryLoopCompletionPayload (closed d) = discoveryLoopCompletionPayload d
  /\ discoveryLoopActive (closed d) = discoveryLoopActive d
  /\ discoverySettings (closed d) = discoverySettings d.
Proof. unfold closed. destruct (decide _); destruct d; repeat split. Qed.

Lemma closed_only_dropdown d :
  closed d
  = set_activeDropdown
      (if decide (activeDropdown d = Some EnrichMenu) then None else activeDropdown d) d.
Proof. unfold closed. destruct (decide _); destruct d; reflexivity. Qed.

Lemma handleEnrich_begin_busy mode overrides d :
  enrichmentBusy d = true ->
  handleEnrich_begin mode overrides d = (None, closed d, []).
Proof.
  intros Hbusy. unfold handleEnrich_begin. rewrite bind_run, closeDropdown_run.
  destruct (closed_fields d) as (Hsame & _).
  run_m. rewrite Hsame, Hbusy. reflexivity.
Qed.

(** C7, as the code has it.  While a job is active [handleEnrich] does
    nothing but close the enrich menu: no request is sent, nothing is
    queued, nothing is shown, and no field other than [activeDropdown]
    changes. *)
Theorem busy_enrich_is_ignored
        (d : Dashboard) (mode : string) (overrides : Overrides)
        (answer : option EnrichmentJob) :
  enrichmentBusy d = true ->
  handleEnrich mode overrides answer d = (tt, closed d, [])
  /\ closed d
     = set_activeDropdown
         (if decide (activeDropdown d = Some EnrichMenu) then None
          else activeDropdown d) d
  /\ pendingAutoEnrich (closed d) = pendingAutoEnrich d
  /\ enrichmentBusy (closed d) = true.
Proof.
  intros Hbusy. destruct (closed_fields d) as (Hsame & Hqueue & _).
  split; [|split; [apply closed_only_dropdown|split; [exact Hqueue|congruence]]].
  unfold handleEnrich. rewrite bind_run, (handleEnrich_begin_busy _ _ _ Hbusy).
  reflexivity.
Qed.

Lemma busy_enrich_is_ignored_witness :
  let d := set_enrichmentBusy true constructed in
  enrichmentBusy d = true
  /\ handleEnrich "full" ByUser None d = (tt, closed d, []).
Proof.
  split; [reflexivity|].
  apply (busy_enrich_is_ignored (set_enrichmentBusy true constructed)
           "full" ByUser None eq_refl).
Defined.

(** C7, as stated, asks for a notice; with a job active the log of
    [handleEnrich] is empty. *)
Lemma busy_enrich_shows_no_notice :
  let d := set_enrichmentBusy true constructed in
  enrichmentBusy d = true
  /\ log_of (handleEnrich "full" ByUser None) d = [].
Proof. split; reflexivity. Qed.

(** *** The queue of automatic enrichments *)






Lemma handleEnrich_begin_auto mode count d :
  enrichmentBusy d = false -> 0 < count ->
  handleEnrich_begin mode (AutoTriggered count) d =
    (Some (Some (of_Z count)),
     set_autoEnrichQueuedNotified false (set_enrichmentBusy true (closed d)),
     [Call (startEnrichment mode (Some (of_Z count)))]).
Proof.
  intros Hidle Hpos. unfold handleEnrich_begin. rewrite bind_run, closeDropdown_run.
  rewrite bind_run, this_run. cbv beta iota.
  destruct (closed_fields d) as (Hsame & _).
  rewrite Hsame, Hidle, (positive_limit _ Hpos). reflexivity.
Qed.


Lemma trigger_idle count answer d :
  0 < count -> enrichmentBusy d = false -> isAutoEnrichEnabled d = true ->
  triggerAutoEnrich count answer d
  = handleEnrich (autoMode d) (AutoTriggered count) answer d.
Proof.
  intros Hpos Hidle Hon. unfold triggerAutoEnrich, autoMode.
  destruct (Z.leb_spec count 0); [lia|].
  rewrite bind_run, this_run. cbv beta iota.
  rewrite Hon, Hidle. cbn [negb].
  destruct (handleEnrich _ _ _ d) as [[[] d'] log]. reflexivity.
Qed.


Lemma processPending_empty answer d :
  pendingAutoEnrich d <= 0 ->
  processPendingAutoEnrich answer d = (tt, set_pendingAutoEnrich 0 d, []).
Proof.
  intros Hnone. unfold processPendingAutoEnrich.
  rewrite bind_run, this_run. cbv beta iota.
  destruct (Z.leb_spec (pendingAutoEnrich d) 0); [|lia].
  rewrite orb_true_r. reflexivity.
Qed.

(** *** Reporting a finished loop *)

Lemma finalize_begin_deferred d :
  enrichmentBusy d = true \/ 0 < pendingAutoEnrich d \/ discoveryLoopActive d = true ->
  tryFinalizeDiscoveryLoop_begin d = (None, d, []).
Proof.
  intros Hwhy. unfold tryFinalizeDiscoveryLoop_begin.
  rewrite bind_run, this_run. cbv beta iota.
  destruct (discoveryLoopCompletionPayload d); [|reflexivity].
  replace (discoveryLoopActive d || enrichmentBusy d || (0 <? pendingAutoEnrich d))
    with true; [reflexivity|].
  symmetry. destruct Hwhy as [-> | [Hq | ->]]; rewrite ?orb_true_r; try reflexivity.
  apply Z.ltb_lt in Hq. rewrite Hq. apply orb_true_r.
Qed.

Lemma finalize_deferred delivered d :
  enrichmentBusy d = true \/ 0 < pendingAutoEnrich d \/ discoveryLoopActive d = true ->
  tryFinalizeDiscoveryLoop delivered d = (tt, d, []).
Proof.
  intros Hwhy. unfold tryFinalizeDiscoveryLoop.
  rewrite bind_run, (finalize_begin_deferred d Hwhy). reflexivity.
Qed.

Lemma finalize_begin_run d record :
  discoveryLoopCompletionPayload d = Some record ->
  discoveryLoopActive d = false -> enrichmentBusy d = false ->
  pendingAutoEnrich d <= 0 -> finalizingDiscoveryLoop d = false ->
  tryFinalizeDiscoveryLoop_begin d =
    (Some record, set_finalizingDiscoveryLoop true d,
     [Call (notifyDiscoveryLoopComplete record)]).
Proof.
  intros Hp Ha Hb Hq Hf. unfold tryFinalizeDiscoveryLoop_begin.
  rewrite bind_run, this_run. cbv beta iota.
  rewrite Hp, Ha, Hb, Hf. destruct (Z.ltb_spec 0 (pendingAutoEnrich d)); [lia|].
  destruct record; reflexivity.
Qed.

Lemma finalize_run delivered d record :
  discoveryLoopCompletionPayload d = Some record ->
  discoveryLoopActive d = false -> enrichmentBusy d = false ->
  pendingAutoEnrich d <= 0 -> finalizingDiscoveryLoop d = false ->
  tryFinalizeDiscoveryLoop delivered d =
    if delivered
    then (tt,
          set_discoveryLoopCompletionSent true
            (set_discoveryLoopCompletionPayload None d),
          [Call (notifyDiscoveryLoopComplete record)])
    else (tt, d,
          [Call (notifyDiscoveryLoopComplete record); SetTimeout RetryFinalize 3000]).
Proof.
  intros Hp Ha Hb Hq Hf. unfold tryFinalizeDiscoveryLoop.
  rewrite bind_run, (finalize_begin_run d record Hp Ha Hb Hq Hf).
  unfold tryFinalizeDiscoveryLoop_resume. run_m.
  destruct delivered; destruct d; cbn in *; subst; reflexivity.
Qed.

(** However many attempts are rejected, each one sends the record again and
    sets the same timer, and the state stays as it was. *)
Lemma rejected_attempts_run n : forall d record,
  discoveryLoopCompletionPayload d = Some record ->
  discoveryLoopActive d = false -> enrichmentBusy d = false ->
  pendingAutoEnrich d <= 0 -> finalizingDiscoveryLoop d = false ->
  rejected_attempts n d =
    (tt, d,
     concat (repeat [Call (notifyDiscoveryLoopComplete record);
                     SetTimeout RetryFinalize 3000] n)).
Proof.
  induction n as [|n IH]; intros d record Hp Ha Hb Hq Hf; [reflexivity|].
  cbn [rejected_attempts].
  rewrite bind_run, (finalize_run false d record Hp Ha Hb Hq Hf).
  cbv beta iota. rewrite (IH d record Hp Ha Hb Hq Hf). reflexivity.
Qed.

Lemma reports_rejected record n :
  reports (concat (repeat [Call (notifyDiscoveryLoopComplete record);
                           SetTimeout RetryFinalize 3000] n)) = repeat record n
  /\ timers (concat (repeat [Call (notifyDiscoveryLoopComplete record);
                             SetTimeout RetryFinalize 3000] n)) = repeat 3000 n.
Proof.
  induction n as [|n [IHr IHt]]; [split; reflexivity|].
  cbn [repeat concat]. unfold reports, timers in *.
  rewrite !omap_app, IHr, IHt. split; reflexivity.
Qed.



(** *** Calls that land while the [done] branch waits *)

Section Preserved.
Context {V : Type} (view : Dashboard -> V).






End Preserved.













Lemma starts_app l1 l2 : starts (l1 ++ l2) = (starts l1 ++ starts l2)%list.
Proof. apply omap_app. Qed.








(** *** A report that is never made *)

Lemma poll_keeps_report answer now d :
  report_view (state_after (loadStats answer now) d) = report_view d
  /\ reports (log_of (loadStats answer now) d) = []
  /\ timers (log_of (loadStats answer now) d) = [].
Proof.
  unfold state_after, log_of.
  destruct (bystander_loadStats answer now d) as (seen & log & -> & _ & Hr & Ht).
  cbn [fst snd]. split; [destruct d; reflexivity|split; assumption].
Qed.

(** Statistics polls report no loop and set no timer, and leave the record
    and what its report waits for as they are. *)
Lemma polls_keep_report answers : forall d,
  report_view (state_after (interrupts (stats_polls answers)) d) = report_view d
  /\ reports (log_of (interrupts (stats_polls answers)) d) = []
  /\ timers (log_of (interrupts (stats_polls answers)) d) = [].
Proof.
  induction answers as [|[answer now] answers IH]; intros d; [repeat split|].
  cbn [stats_polls List.map interrupts interrupt fst snd].
  rewrite state_after_bind, log_of_bind.
  destruct (poll_keeps_report answer now d) as (Hview & Hr & Ht).
  destruct (IH (state_after (loadStats answer now) d)) as (Hview' & Hr' & Ht').
  fold (stats_polls answers).
  unfold reports, timers in *. rewrite !omap_app, Hr, Hr', Ht, Ht', Hview', Hview.
  repeat split.
Qed.

(** C5, where the code leaves it.  On a controller as constructed, the
    enrich button is pressed while a loop starts, and the job is accepted;
    the loop makes one run, which finds 2 channels, and is stopped during
    it.  The loop ends with the job still active: its record is kept, and
    no report is sent.  Then the stream of the job fails.  The job is let
    go, nothing is queued, no loop runs, and the record is still kept and
    not sent; the error handler has sent nothing and set no timer, and no
    statistics poll that follows sends the record or touches it.  Had the
    job reported [done] instead, the record would have been sent. *)
Theorem stream_error_strands_loop_report :
  let job := {| jobId := "job-1"; total := 3; skipped := 0 |} in
  let script := {| during_start := [EnrichCalled "full" (Some job)];
                   turns := [stopped_turn 2] |} in
  let loop := startDiscoveryLoop None script in
  let record := {| c_runs := 1; c_discovered := 2; c_reason := Some "stopped";
                   c_error := false; c_message := None |} in
  let exited := state_after loop constructed in
  let failed := state_after streamError exited in
  (report_view exited = (Some record, false, true, 0, false, false)
   /\ reports (log_of loop constructed) = []
   /\ timers (log_of loop constructed) = [])
  /\ (report_view failed = (Some record, false, false, 0, false, false)
      /\ reports (log_of streamError exited) = []
      /\ timers (log_of streamError exited) = [])
  /\ (forall answers,
        let later := interrupts (stats_polls answers) in
        report_view (state_after later failed) = report_view failed
        /\ reports (log_of later failed) = []
        /\ timers (log_of later failed) = [])
  /\ reports (log_of (streamProgress finished StatsEmpty 0 None true) exited)
     = [record].
Proof.
  intros job script loop record exited failed.
  split; [vm_compute; repeat split|].
  split; [vm_compute; repeat split|].
  split; [intros answers later; apply polls_keep_report|].
  vm_compute. reflexivity.
Qed.

(** The same end on the [done] branch itself, when the start it makes for
    the queue is rejected: with automatic enrichment on, the run of the
    loop has its 2 channels queued behind the job; the [done] message
    starts an enrichment for them, the server rejects it, the 2 go back
    into the queue, and the report waits for a queue that nothing empties
    any more. *)
Lemma rejected_start_strands_loop_report :
  let job := {| jobId := "job-1"; total := 3; skipped := 0 |} in
  let script := {| during_start := [EnrichCalled "full" (Some job)];
                   turns := [stopped_turn 2] |} in
  let record := {| c_runs := 1; c_discovered := 2; c_reason := Some "stopped";
                   c_error := false; c_message := None |} in
  let exited := state_after (startDiscoveryLoop None script) automatic in
  let done := streamProgress finished StatsEmpty 0 None true in
  report_view exited = (Some record, false, true, 2, false, false)
  /\ starts (log_of done exited) = [("email_only", Some (of_Z 2))]
  /\ report_view (state_after done exited) = (Some record, false, false, 2, false, false)
  /\ reports (log_of done exited) = []
  /\ timers (log_of done exited) = [].
Proof. vm_compute. repeat split. Qed.

(** And a record that waits is dropped when a new loop is started before
    the job ends: [startDiscoveryLoop] clears it, and nothing has been
    sent. *)
Lemma new_loop_drops_loop_report :
  let job := {| jobId := "job-1"; total := 3; skipped := 0 |} in
  let script := {| during_start := [EnrichCalled "full" (Some job)];
                   turns := [stopped_turn 2] |} in
  let record := {| c_runs := 1; c_discovered := 2; c_reason := Some "stopped";
                   c_error := false; c_message := None |} in
  let exited := state_after (startDiscoveryLoop None script) constructed in
  let again := startDiscoveryLoop_begin None in
  discoveryLoopCompletionPayload exited = Some record
  /\ discoveryLoopCompletionPayload (state_after again exited) = None
  /\ discoveryLoopCompletionSent (state_after again exited) = false
  /\ reports (log_of (startDiscoveryLoop None script) constructed) = []
  /\ reports (log_of again exited) = [].
Proof. vm_compute. repeat split. Qed.

(** The retry the code does have.  With a record kept and nothing for its
    report to wait for: however many attempts are rejected in a row, every
    one of them sends the record again and sets a timer of the same
    3000 ms, the state stays as it was, and the first attempt that gets
    through clears the record. *)
Lemma retry_delay_never_grows (d : Dashboard) (record : Completion) (attempts : nat) :
  discoveryLoopCompletionPayload d = Some record ->
  discoveryLoopActive d = false ->
  enrichmentBusy d = false ->
  pendingAutoEnrich d <= 0 ->
  finalizingDiscoveryLoop d = false ->
  state_after (rejected_attempts attempts) d = d
  /\ reports (log_of (rejected_attempts attempts) d) = repeat record attempts
  /\ timers (log_of (rejected_attempts attempts) d) = repeat 3000 attempts
  /\ discoveryLoopCompletionPayload
       (state_after (rejected_attempts attempts;; tryFinalizeDiscoveryLoop true) d)
     = None.
Proof.
  intros Hp Ha Hb Hq Hf.
  pose proof (rejected_attempts_run attempts d record Hp Ha Hb Hq Hf) as Erun.
  destruct (reports_rejected record attempts) as [Hr Ht].
  unfold state_after, log_of. rewrite bind_run, Erun.
  rewrite (finalize_run true d record Hp Ha Hb Hq Hf). cbn [fst snd].
  repeat split; try assumption; destruct d; reflexivity.
Qed.

(** *** The refresh after a loop *)

Lemma nonempty_spec s : Text.nonempty s = true <-> s <> "".
Proof.
  unfold Text.nonempty. rewrite negb_true_iff.
  destruct (String.eqb_spec s ""); split; congruence.
Qed.

Lemma refresh_seen d stats now v :
  version stats = Some v -> lastLoopCompletionVersion d = Some v ->
  maybeRefreshAfterLoop (Some stats) now d = (tt, d, []).
Proof.
  intros Hv Hseen. unfold maybeRefreshAfterLoop.
  destruct (running stats); [reflexivity|].
  destruct (negb _); [reflexivity|].
  destruct (_ || _); [reflexivity|].
  run_m. rewrite Hv, Hseen. cbn. rewrite Z.eqb_refl. reflexivity.
Qed.

Lemma polled_seen polls : forall d v,
  Forall (fun poll : Stats * Z => version poll.1 = Some v) polls ->
  lastLoopCompletionVersion d = Some v ->
  polled polls d = (tt, d, []).
Proof.
  induction polls as [|[stats now] polls IH]; intros d v Hall Hseen; [reflexivity|].
  inversion Hall as [|? ? Hv Hrest]; subst. cbn [polled]. rewrite bind_run.
  rewrite (refresh_seen d stats now v Hv Hseen), (IH d v Hrest Hseen). reflexivity.
Qed.

(** What [maybeRefreshAfterLoop] does, by cases. *)
Lemma refresh_run d stats now v :
  version stats = Some v ->
  maybeRefreshAfterLoop (Some stats) now d =
  if negb (running stats)
     && match last_completed_at stats with
        | Some at_ => Text.nonempty at_
        | None => false
        end
     && negb ((0 <? processing stats) || (0 <? activeJobs stats))
     && negb (same_version (Some v) (lastLoopCompletionVersion d))
  then (tt, set_lastLoopCompletionVersion (Some v) d,
        Call (fetchChannels Active)
        :: (if decide (activeTab d = Active) then []
            else [Call (fetchChannels (activeTab d))])
        ++ [StatusBar (refreshed_notice (last_reason stats)).1
                      (refreshed_notice (last_reason stats)).2])%list
  else (tt, d, []).
Proof.
  intros Hv. unfold maybeRefreshAfterLoop. rewrite Hv.
  destruct (running stats); [reflexivity|]. cbn [negb andb].
  destruct (match last_completed_at stats with
            | Some at_ => Text.nonempty at_
            | None => false
            end); [|reflexivity].
  cbn [negb andb].
  destruct ((0 <? processing stats) || (0 <? activeJobs stats)); [reflexivity|].
  cbn [negb andb]. rewrite bind_run, this_run. cbv beta iota.
  destruct (same_version (Some v) (lastLoopCompletionVersion d)); [reflexivity|].
  cbn [negb]. run_m.
  destruct (refreshed_notice (last_reason stats)) as [notice tone].
  destruct (decide (activeTab d = Active)); reflexivity.
Qed.

(** C6.  For statistics that carry a version number [v]: the tables are
    reloaded and a notice is shown exactly when the loop is not running, a
    completion time is there, nothing is being processed, no job is active
    and [v] is not the version last seen; the version last seen is then
    [v]; when nothing is reloaded the state is as before; and once [v] is
    the version last seen, any number of further calls with statistics of
    version [v] leave the state as it is and do nothing. *)
Theorem refresh_once_per_version (d : Dashboard) (stats : Stats) (now v : Z) :
  version stats = Some v ->
  let first := maybeRefreshAfterLoop (Some stats) now in
  (log_of first d <> [] <->
     running stats = false /\ present stats /\ processing stats <= 0
     /\ activeJobs stats <= 0 /\ lastLoopCompletionVersion d <> Some v)
  /\ (log_of first d <> [] ->
        Call (fetchChannels Active) ∈ log_of first d
        /\ (exists notice tone, StatusBar notice tone ∈ log_of first d)
        /\ lastLoopCompletionVersion (state_after first d) = Some v)
  /\ (log_of first d = [] -> state_after first d = d)
  /\ (forall polls,
        Forall (fun poll : Stats * Z => version poll.1 = Some v) polls ->
        lastLoopCompletionVersion d = Some v ->
        polled polls d = (tt, d, [])).
Proof.
  intros Hv first. subst first. unfold log_of, state_after.
  rewrite (refresh_run d stats now v Hv).
  assert (Hguard :
    negb (running stats)
    && match last_completed_at stats with
       | Some at_ => Text.nonempty at_
       | None => false
       end
    && negb ((0 <? processing stats) || (0 <? activeJobs stats))
    && negb (same_version (Some v) (lastLoopCompletionVersion d)) = true
    <-> running stats = false /\ present stats /\ processing stats <= 0
        /\ activeJobs stats <= 0 /\ lastLoopCompletionVersion d <> Some v).
  { rewrite !andb_true_iff, !negb_true_iff, orb_false_iff, !Z.ltb_ge.
    unfold present, same_version.
    split.
    - intros [[[Hr Hat] [Hp Hj]] Hsame]. repeat split; try assumption.
      + destruct (last_completed_at stats) as [at_|]; [|discriminate].
        exists at_. split; [reflexivity|apply nonempty_spec, Hat].
      + intros Hseen. rewrite Hseen, Z.eqb_refl in Hsame. discriminate.
    - intros (Hr & (at_ & Hat & Hne) & Hp & Hj & Hseen).
      rewrite Hat. repeat split; try assumption.
      + apply nonempty_spec, Hne.
      + destruct (lastLoopCompletionVersion d) as [seen|]; [|reflexivity].
        destruct (Z.eqb_spec v seen); [congruence|reflexivity]. }
  destruct (_ && _) eqn:Hdue; cbn [fst snd].
  - split; [split; [intros _; apply Hguard; reflexivity|discriminate]|].
    split; [|split; [discriminate|intros; eapply polled_seen; eassumption]].
    intros _. split; [left|].
    split; [|destruct d; reflexivity].
    eexists _, _. apply elem_of_cons. right. apply elem_of_app. right. left.
  - split; [split; [congruence|intros H; apply Hguard in H; discriminate]|].
    split; [congruence|].
    split; [reflexivity|intros; eapply polled_seen; eassumption].
Qed.

Lemma refresh_once_per_version_witness :
  let first := maybeRefreshAfterLoop (Some stopped_at_7) 0 in
  version stopped_at_7 = Some 7
  /\ lastLoopCompletionVersion (state_after first constructed) = Some 7
  /\ polled [(stopped_at_7, 1); (stopped_at_7, 2)] (state_after first constructed)
     = (tt, state_after first constructed, []).
Proof.
  split; [reflexivity|].
  destruct (refresh_once_per_version constructed stopped_at_7 0 7 eq_refl)
    as (_ & Hfirst & _ & _).
  destruct Hfirst as (_ & _ & Hseen); [discriminate|].
  split; [exact Hseen|].
  destruct (refresh_once_per_version
              (state_after (maybeRefreshAfterLoop (Some stopped_at_7) 0) constructed)
              stopped_at_7 0 7 eq_refl)
    as (_ & _ & _ & Hagain).
  apply Hagain; [repeat constructor|exact Hseen].
Defined.
End DashFacts.


(* ===================================================================== *)
(** ** Properties of the text parsers                                    *)
(* ===================================================================== *)

Module WordsFacts.
Import JS Settings Words.

(** *** Characters *)

Lemma chars_of_list l : chars (string_of_list_ascii l) = l.
Proof. apply list_ascii_of_string_of_list_ascii. Qed.

Lemma of_chars s : string_of_list_ascii (chars s) = s.
Proof. apply string_of_list_ascii_of_string. Qed.

Lemma chars_inj s t : chars s = chars t -> s = t.
Proof. intros H. rewrite <- (of_chars s), <- (of_chars t), H. reflexivity. Qed.

Lemma append_cons c s t : String c s +:+ t = String c (s +:+ t).
Proof. reflexivity. Qed.

Lemma append_empty t : "" +:+ t = t.
Proof. reflexivity. Qed.

Lemma chars_app s t : chars (s +:+ t) = (chars s ++ chars t)%list.
Proof.
  unfold chars. induction s as [|c s IH]; [reflexivity|].
  rewrite append_cons. cbn. f_equal. exact IH.
Qed.

Lemma chars_nil s : chars s = [] -> s = "".
Proof. destruct s; [reflexivity|discriminate]. Qed.

Lemma free_of_list sep l :
  free_of sep (string_of_list_ascii l) = forallb (fun c => negb (sep c)) l.
Proof. unfold free_of. rewrite chars_of_list. reflexivity. Qed.

(** *** Trimming *)

Lemma after_begins mark : forall cs tail,
  Text.after mark cs = Some tail -> cs = (mark ++ tail)%list.
Proof.
  induction mark as [|m mark IH]; intros cs tail H; cbn in H.
  - injection H as ->. reflexivity.
  - destruct cs as [|c cs]; [discriminate|].
    destruct (Ascii.eqb_spec m c) as [->|]; [|discriminate].
    cbn. f_equal. apply IH, H.
Qed.

Lemma after_app mark suf : forall cs tail,
  Text.after mark cs = Some tail ->
  Text.after mark (cs ++ suf) = Some (tail ++ suf)%list.
Proof.
  induction mark as [|m mark IH]; intros cs tail H; cbn in H.
  - injection H as ->. reflexivity.
  - destruct cs as [|c cs]; [discriminate|]. cbn.
    destruct (Ascii.eqb m c); [apply IH, H|discriminate].
Qed.

Lemma after_one_begins marks : forall cs tail,
  Text.after_one marks cs = Some tail ->
  exists mark, In mark marks /\ cs = (mark ++ tail)%list.
Proof.
  induction marks as [|mark marks IH]; intros cs tail H; cbn in H; [discriminate|].
  destruct (Text.after mark cs) as [tail'|] eqn:E.
  - injection H as ->. exists mark. split; [left; reflexivity|apply after_begins, E].
  - destruct (IH _ _ H) as (mark' & Hin & Hcs).
    exists mark'. split; [right; exact Hin|exact Hcs].
Qed.

(** What begins with a mark still does when it goes on. *)
Lemma after_one_app marks suf : forall cs tail,
  Text.after_one marks cs = Some tail ->
  exists tail', Text.after_one marks (cs ++ suf) = Some tail'.
Proof.
  induction marks as [|mark marks IH]; intros cs tail H; cbn in H; [discriminate|].
  cbn. destruct (Text.after mark (cs ++ suf)) as [tail'|] eqn:E'.
  - exists tail'. reflexivity.
  - destruct (Text.after mark cs) as [tail1|] eqn:E.
    + rewrite (after_app mark suf cs tail1 E) in E'. discriminate.
    + apply (IH _ _ H).
Qed.

Lemma after_one_prefix marks cs suf :
  Text.after_one marks (cs ++ suf) = None -> Text.after_one marks cs = None.
Proof.
  intros H. destruct (Text.after_one marks cs) as [tail|] eqn:E; [|reflexivity].
  destruct (after_one_app marks suf cs tail E) as [tail' E']. congruence.
Qed.

Lemma drop_go_suffix marks fuel : forall cs,
  exists pre, cs = (pre ++ Text.drop_go fuel marks cs)%list.
Proof.
  induction fuel as [|fuel IH]; intros cs; cbn; [exists []; reflexivity|].
  destruct (Text.after_one marks cs) as [tail|] eqn:E; [|exists []; reflexivity].
  destruct (after_one_begins marks cs tail E) as (mark & _ & ->).
  destruct (IH tail) as [pre Hpre].
  exists (mark ++ pre)%list. rewrite <- app_assoc. f_equal. exact Hpre.
Qed.

Lemma drop_go_keep marks fuel cs :
  Text.after_one marks cs = None -> Text.drop_go fuel marks cs = cs.
Proof. intros H. destruct fuel; cbn; [reflexivity|]. rewrite H. reflexivity. Qed.

(** Enough fuel leaves no mark at the head. *)
Lemma drop_go_settled marks :
  Forall (fun mark => mark <> []) marks ->
  forall fuel cs, (length cs <= fuel)%nat ->
  Text.after_one marks (Text.drop_go fuel marks cs) = None.
Proof.
  intros Hmarks. induction fuel as [|fuel IH]; intros cs Hfuel.
  - destruct cs; [|cbn in Hfuel; lia]. cbn.
    destruct (Text.after_one marks []) as [tail|] eqn:E; [|reflexivity].
    destruct (after_one_begins marks [] tail E) as (mark & Hin & Hcs).
    rewrite List.Forall_forall in Hmarks. specialize (Hmarks mark Hin).
    destruct mark; [congruence|discriminate].
  - cbn. destruct (Text.after_one marks cs) as [tail|] eqn:E; [|exact E].
    apply IH. destruct (after_one_begins marks cs tail E) as (mark & Hin & ->).
    rewrite List.Forall_forall in Hmarks. specialize (Hmarks mark Hin).
    rewrite length_app in Hfuel. destruct mark; [congruence|]. cbn in Hfuel. lia.
Qed.

(** More fuel than enough changes nothing. *)
Lemma drop_go_enough marks :
  Forall (fun mark => mark <> []) marks ->
  forall fuel more cs,
    (length cs <= fuel)%nat -> (length cs <= more)%nat ->
    Text.drop_go fuel marks cs = Text.drop_go more marks cs.
Proof.
  intros Hmarks.
  assert (Hnil : Text.after_one marks [] = None).
  { destruct (Text.after_one marks []) as [tail|] eqn:E; [|reflexivity].
    destruct (after_one_begins marks [] tail E) as (mark & Hin & Hcs).
    rewrite List.Forall_forall in Hmarks. specialize (Hmarks mark Hin).
    destruct mark; [congruence|discriminate]. }
  induction fuel as [|fuel IH]; intros more cs Hfuel Hmore.
  - destruct cs; [|cbn in Hfuel; lia]. symmetry. apply drop_go_keep, Hnil.
  - destruct more as [|more].
    + destruct cs; [|cbn in Hmore; lia]. apply drop_go_keep, Hnil.
    + cbn [Text.drop_go]. destruct (Text.after_one marks cs) as [tail|] eqn:E;
        [|reflexivity].
      destruct (after_one_begins marks cs tail E) as (mark & Hin & ->).
      rewrite List.Forall_forall in Hmarks. specialize (Hmarks mark Hin).
      rewrite length_app in Hfuel, Hmore.
      destruct mark as [|m mark]; [congruence|]. cbn [List.length] in Hfuel, Hmore.
      apply IH; lia.
Qed.

Lemma split_marks_go_enough marks :
  Forall (fun mark => mark <> []) marks ->
  forall fuel more cur after_sep cs,
    (length cs < fuel)%nat -> (length cs < more)%nat ->
    Text.split_marks_go fuel marks cur after_sep cs
    = Text.split_marks_go more marks cur after_sep cs.
Proof.
  intros Hmarks. induction fuel as [|fuel IH]; intros more cur after_sep cs Hfuel Hmore;
    [lia|].
  destruct more as [|more]; [lia|].
  destruct cs as [|c rest]; [reflexivity|]. cbn [Text.split_marks_go].
  cbn [List.length] in Hfuel, Hmore.
  destruct (Text.after_one marks (c :: rest)) as [tail|] eqn:E.
  - destruct (after_one_begins marks (c :: rest) tail E) as (mark & Hin & Hcs).
    rewrite List.Forall_forall in Hmarks. specialize (Hmarks mark Hin).
    assert (Hshort : (length tail < S (length rest))%nat).
    { change (S (length rest)) with (length (c :: rest)). rewrite Hcs, length_app.
      destruct mark; [congruence|]. cbn [List.length]. lia. }
    rewrite (IH more [] true tail) by lia. reflexivity.
  - apply IH; lia.
Qed.

Lemma white_space_marks : Forall (fun mark => mark <> []) Text.white_space.
Proof. repeat constructor; discriminate. Qed.

Lemma white_space_back_marks : Forall (fun mark => mark <> []) Text.white_space_back.
Proof. repeat constructor; discriminate. Qed.

Lemma drop_suffix marks cs : exists pre, cs = (pre ++ Text.drop marks cs)%list.
Proof. apply drop_go_suffix. Qed.

Lemma drop_forall (P : ascii -> bool) marks l :
  forallb P l = true -> forallb P (Text.drop marks l) = true.
Proof.
  destruct (drop_suffix marks l) as [pre E]. intros H. rewrite E in H.
  rewrite forallb_app in H. apply andb_prop in H as [_ H]. exact H.
Qed.

Lemma forallb_rev (P : ascii -> bool) l : forallb P (rev l) = forallb P l.
Proof.
  induction l as [|c l IH]; [reflexivity|]. cbn.
  rewrite forallb_app, IH. cbn. rewrite andb_true_r. apply andb_comm.
Qed.

Lemma chars_trim s :
  chars (Text.trim s)
  = rev (Text.drop Text.white_space_back (rev (Text.drop Text.white_space (chars s)))).
Proof. unfold Text.trim. apply chars_of_list. Qed.

Lemma trim_free sep s : free_of sep s = true -> free_of sep (Text.trim s) = true.
Proof.
  unfold free_of. rewrite chars_trim, forallb_rev. intros H.
  apply drop_forall. rewrite forallb_rev. apply drop_forall. exact H.
Qed.

(** What [trim] returns has no white space tail at either end. *)
Lemma trim_settled s :
  Text.after_one Text.white_space (chars (Text.trim s)) = None
  /\ Text.after_one Text.white_space_back (rev (chars (Text.trim s))) = None.
Proof.
  rewrite chars_trim, rev_involutive.
  set (front := Text.drop Text.white_space (chars s)).
  assert (Hfront : Text.after_one Text.white_space front = None)
    by (apply (drop_go_settled _ white_space_marks); reflexivity).
  assert (Hback : Text.after_one Text.white_space_back
                    (Text.drop Text.white_space_back (rev front)) = None)
    by (apply (drop_go_settled _ white_space_back_marks); reflexivity).
  split; [|exact Hback].
  destruct (drop_suffix Text.white_space_back (rev front)) as [pre E].
  apply (after_one_prefix _ _ (rev pre)).
  rewrite <- rev_app_distr, <- E, rev_involutive. exact Hfront.
Qed.

Lemma trim_keep s :
  Text.after_one Text.white_space (chars s) = None ->
  Text.after_one Text.white_space_back (rev (chars s)) = None ->
  Text.trim s = s.
Proof.
  intros Hfront Hback. apply chars_inj. rewrite chars_trim.
  unfold Text.drop. rewrite (drop_go_keep _ _ _ Hfront), (drop_go_keep _ _ _ Hback).
  apply rev_involutive.
Qed.

Lemma trim_trim s : Text.trim (Text.trim s) = Text.trim s.
Proof. destruct (trim_settled s). apply trim_keep; assumption. Qed.

(** A blank before a text is trimmed with the rest. *)
Lemma trim_blank s : Text.trim (String " " s) = Text.trim s.
Proof. reflexivity. Qed.

(** A text that [trim] leaves as it is has no white space at either end. *)
Lemma trimmed_settled s :
  Text.trim s = s ->
  Text.after_one Text.white_space (chars s) = None
  /\ Text.after_one Text.white_space_back (rev (chars s)) = None.
Proof. intros H. rewrite <- H. apply trim_settled. Qed.

Lemma trim_nonempty s : s <> "" -> Text.trim s = s -> Text.nonempty s = true.
Proof.
  intros Hne _. unfold Text.nonempty. apply negb_true_iff.
  apply String.eqb_neq. exact Hne.
Qed.

Lemma nonempty_iff s : Text.nonempty s = true <-> s <> "".
Proof.
  unfold Text.nonempty. rewrite negb_true_iff. apply String.eqb_neq.
Qed.

(** *** Splitting *)

Lemma split_go_free sep s : forall cur after,
  forallb (fun c => negb (sep c)) cur = true ->
  Forall (fun piece => free_of sep piece = true) (Text.split_go sep cur after s).
Proof.
  induction s as [|c s IH]; intros cur after Hcur; cbn [Text.split_go].
  - constructor; [|constructor]. rewrite free_of_list, forallb_rev. exact Hcur.
  - destruct (sep c) eqn:Hc.
    + destruct after; [apply IH; reflexivity|].
      constructor; [|apply IH; reflexivity].
      rewrite free_of_list, forallb_rev. exact Hcur.
    + apply IH. cbn. rewrite Hc. exact Hcur.
Qed.

Lemma split_free sep s :
  Forall (fun piece => free_of sep piece = true) (Text.split sep s).
Proof. apply split_go_free. reflexivity. Qed.

Lemma split_go_through sep w : forall cur s,
  free_of sep w = true ->
  Text.split_go sep cur false (w +:+ s)
  = Text.split_go sep (rev (chars w) ++ cur) false s.
Proof.
  induction w as [|c w IH]; intros cur s Hfree; [reflexivity|].
  unfold free_of in Hfree. cbn in Hfree. apply andb_prop in Hfree as [Hc Hw].
  apply negb_true_iff in Hc.
  rewrite append_cons. cbn [Text.split_go]. rewrite Hc, (IH _ _ Hw).
  unfold chars. cbn [list_ascii_of_string rev]. rewrite <- app_assoc. reflexivity.
Qed.

(** A piece that is not empty is read to its end, whatever came before. *)
Lemma split_go_word sep w cur after s :
  free_of sep w = true -> w <> "" ->
  Text.split_go sep cur after (w +:+ s)
  = Text.split_go sep (rev (chars w) ++ cur) false s.
Proof.
  intros Hfree Hne. destruct w as [|c w]; [congruence|].
  rewrite <- (split_go_through sep (String c w) cur s Hfree).
  unfold free_of in Hfree. cbn in Hfree. apply andb_prop in Hfree as [Hc _].
  apply negb_true_iff in Hc.
  rewrite append_cons. cbn [Text.split_go]. rewrite Hc. reflexivity.
Qed.

Lemma append_empty_r s : s +:+ "" = s.
Proof. induction s as [|c s IH]; [reflexivity|]. rewrite append_cons, IH. reflexivity. Qed.

Lemma split_go_last sep w cur after :
  free_of sep w = true -> w <> "" ->
  Text.split_go sep cur after w
  = [string_of_list_ascii (rev cur ++ chars w)].
Proof.
  intros Hfree Hne. rewrite <- (append_empty_r w) at 1.
  rewrite (split_go_word sep w cur after "" Hfree Hne). cbn [Text.split_go].
  rewrite rev_app_distr, rev_involutive. reflexivity.
Qed.

(** *** Keywords *)

Lemma keywords_pieces text :
  Forall keyword
    (List.filter Text.nonempty
       (List.map Text.trim (Text.split keyword_separator text))).
Proof.
  apply List.Forall_forall. intros w Hw.
  apply List.filter_In in Hw as [Hw Hne].
  apply List.in_map_iff in Hw as (piece & <- & Hpiece).
  pose proof (split_free keyword_separator text) as Hfree.
  rewrite List.Forall_forall in Hfree.
  split; [apply nonempty_iff; exact Hne|]. split; [apply trim_trim|].
  apply trim_free, Hfree, Hpiece.
Qed.

Lemma keywords_clean text : Forall keyword (parseDiscoveryKeywords text).
Proof.
  unfold parseDiscoveryKeywords. destruct (String.eqb text ""); [constructor|].
  apply keywords_pieces.
Qed.

Lemma join_cons sep p q rest :
  join sep (p :: q :: rest) = p +:+ sep +:+ join sep (q :: rest).
Proof. reflexivity. Qed.

Lemma keywords_of_join ks : forall cur after,
  ks <> [] -> Forall keyword ks ->
  cur = [] \/ cur = [" "%char] ->
  List.filter Text.nonempty
    (List.map Text.trim (Text.split_go keyword_separator cur after (join ", " ks)))
  = ks.
Proof.
  induction ks as [|k rest IH]; intros cur after Hne Hall Hcur; [congruence|].
  apply Forall_cons in Hall as [(Hk & Htrim & Hfree) Hrest].
  assert (Hpiece : Text.trim (string_of_list_ascii (rev cur ++ chars k)) = k).
  { destruct Hcur as [-> | ->]; cbn [rev app].
    - rewrite of_chars. exact Htrim.
    - change (string_of_list_ascii (" "%char :: chars k))
        with (String " " (string_of_list_ascii (chars k))).
      rewrite trim_blank, of_chars. exact Htrim. }
  assert (Hkeep : Text.nonempty k = true) by (apply nonempty_iff; exact Hk).
  destruct rest as [|k' rest].
  - cbn [join]. rewrite (split_go_last _ _ _ _ Hfree Hk). cbn [List.map List.filter].
    rewrite Hpiece, Hkeep. reflexivity.
  - rewrite join_cons, (split_go_word _ _ _ _ _ Hfree Hk).
    change (", " +:+ join ", " (k' :: rest))
      with (String "," (String " " (join ", " (k' :: rest)))).
    cbn [Text.split_go].
    change (keyword_separator ",") with true.
    change (keyword_separator " ") with false. cbv beta iota.
    rewrite rev_app_distr, rev_involutive. cbn [List.map List.filter].
    rewrite Hpiece, Hkeep. f_equal.
    apply (IH [" "%char] false); [discriminate|exact Hrest|right; reflexivity].
Qed.

Lemma join_empty_keyword ks :
  Forall keyword ks -> join ", " ks = "" -> ks = [].
Proof.
  intros Hall Hjoin. destruct ks as [|k rest]; [reflexivity|].
  apply Forall_cons in Hall as [(Hk & _) _].
  destruct rest; cbn [join] in Hjoin; [congruence|].
  destruct k; [congruence|discriminate].
Qed.

Lemma keywords_join ks :
  Forall keyword ks -> parseDiscoveryKeywords (join ", " ks) = ks.
Proof.
  intros Hall. unfold parseDiscoveryKeywords.
  destruct (String.eqb (join ", " ks) "") eqn:E.
  - apply String.eqb_eq in E. symmetry. apply (join_empty_keyword ks Hall E).
  - destruct ks as [|k rest]; [discriminate|].
    apply (keywords_of_join (k :: rest) [] false); [discriminate|exact Hall|left; reflexivity].
Qed.

(** *** What the parsers hand out *)

Lemma array_join_strings {host : Host} sep ks :
  array_join sep (List.map VStr ks) = join sep ks.
Proof.
  unfold array_join. rewrite List.map_map. f_equal.
  induction ks as [|k rest IH]; [reflexivity|]. cbn. f_equal. exact IH.
Qed.

(** [parseDiscoveryKeywords] hands out keywords only: none is empty, none
    begins or ends with white space, none holds a comma or a line feed.
    Joined with ', ' and parsed again they come back as they are. *)
Theorem keywords_parsed_are_clean (text : string) :
  Forall keyword (parseDiscoveryKeywords text)
  /\ parseDiscoveryKeywords (join ", " (parseDiscoveryKeywords text))
     = parseDiscoveryKeywords text.
Proof.
  split; [apply keywords_clean|]. apply keywords_join, keywords_clean.
Qed.

(** A stored object whose [keywordsText] is not a string, as a [null]
    is, and whose [keywords] is an array of keywords, is loaded with the
    keywords of the array, and with their text joined by ', '. *)
Theorem keyword_array_is_restored
        {host : Host} (parsed : obj) (v : value) (ks : list string) :
  parsed !! "keywordsText" = Some v ->
  (forall s, v <> VStr s) ->
  parsed !! "keywords" = Some (VArr (List.map VStr ks)) ->
  Forall keyword ks ->
  let loaded := loadDiscoverySettings (JsonObject parsed) in
  keywords loaded = ks /\ keywordsText loaded = join ", " ks.
Proof.
  intros Htext Hother Harray Hall loaded. subst loaded.
  pose proof (array_join_strings ", " ks) as Hjoin.
  unfold loadDiscoverySettings, normalizeDiscoverySettings.
  cbn [keywords keywordsText]. unfold prop, spread.
  rewrite (lookup_union_Some_l _ _ _ _ Htext), (lookup_union_Some_l _ _ _ _ Harray).
  cbn [from_option id].
  destruct v as [| |b|n|s|items|];
    try (rewrite Hjoin; split; [apply keywords_join; exact Hall|reflexivity]).
  exfalso. apply (Hother s). reflexivity.
Qed.

Lemma keyword_array_is_restored_witness :
  keywords
    (loadDiscoverySettings (host := Words.example_host)
       (JsonObject
          (<["keywordsText" := VNull]>
             {["keywords" := VArr [VStr "defi"; VStr "crypto trading"]]})))
  = ["defi"; "crypto trading"].
Proof.
  refine (proj1 (keyword_array_is_restored (host := Words.example_host)
                   (<["keywordsText" := VNull]>
                      {["keywords" := VArr [VStr "defi"; VStr "crypto trading"]]})
                   VNull ["defi"; "crypto trading"] _ _ _ _)).
  - vm_compute. reflexivity.
  - intros s. discriminate.
  - vm_compute. reflexivity.
  - repeat constructor; discriminate.
Defined.

End WordsFacts.


(* ===================================================================== *)
(** ** Properties of [escapeHtml]                                        *)
(* ===================================================================== *)

Module HtmlFacts.
Import JS Words Html WordsFacts.

Lemma append_assoc (s t u : string) : (s +:+ t) +:+ u = s +:+ (t +:+ u).
Proof.
  induction s as [|c s IH]; [reflexivity|]. rewrite !append_cons, IH. reflexivity.
Qed.

Lemma replaceAll_app c by_ s t :
  replaceAll c by_ (s +:+ t) = replaceAll c by_ s +:+ replaceAll c by_ t.
Proof.
  induction s as [|x s IH]; [reflexivity|].
  rewrite append_cons. cbn [replaceAll]. rewrite IH.
  destruct (Ascii.eqb x c); [rewrite append_assoc|rewrite append_cons]; reflexivity.
Qed.

Lemma escaped_app s t : escaped (s +:+ t) = escaped s +:+ escaped t.
Proof. unfold escaped. rewrite !replaceAll_app. reflexivity. Qed.

Lemma escaped_char c : escaped (String c "") = escape_char c.
Proof. destruct c as [[] [] [] [] [] [] [] []]; reflexivity. Qed.

(** The five replacements, one after the other, escape each character
    once. *)
Lemma escaped_each s : escaped s = escape_each s.
Proof.
  induction s as [|c s IH]; [reflexivity|].
  change (String c s) with (String c "" +:+ s).
  rewrite escaped_app, escaped_char, IH. reflexivity.
Qed.

Lemma escape_each_app s t : escape_each (s +:+ t) = escape_each s +:+ escape_each t.
Proof. rewrite <- !escaped_each. apply escaped_app. Qed.

Lemma unescape_char c rest :
  unescape (escape_char c +:+ rest) = String c (unescape rest).
Proof. destruct c as [[] [] [] [] [] [] [] []]; reflexivity. Qed.

Lemma unescape_each s : unescape (escape_each s) = s.
Proof.
  induction s as [|c s IH]; [reflexivity|].
  cbn [escape_each]. rewrite unescape_char, IH. reflexivity.
Qed.

Lemma escape_char_plain c : markup c = false -> c <> "&"%char -> escape_char c = String c "".
Proof.
  destruct c as [[] [] [] [] [] [] [] []]; intros Hm Hc;
    try reflexivity; try discriminate Hm; exfalso; apply Hc; reflexivity.
Qed.

Lemma escape_char_free c : free_of markup (escape_char c) = true.
Proof. destruct c as [[] [] [] [] [] [] [] []]; reflexivity. Qed.

Lemma free_of_app sep s t :
  free_of sep (s +:+ t) = free_of sep s && free_of sep t.
Proof. unfold free_of. rewrite chars_app. apply forallb_app. Qed.

Lemma escape_each_free s : free_of markup (escape_each s) = true.
Proof.
  induction s as [|c s IH]; [reflexivity|].
  cbn [escape_each]. rewrite free_of_app, escape_char_free, IH. reflexivity.
Qed.

(** Whatever is escaped, the text that comes out holds no [<], no [>], no
    double quote and no single quote. *)
Theorem escaped_text_has_no_markup {host : Host} (v : value) :
  free_of markup (escapeHtml v) = true.
Proof.
  unfold escapeHtml.
  destruct v; try reflexivity; rewrite escaped_each; apply escape_each_free.
Qed.

(** The five replacements escape each character of a string once: the
    [&] of an entity they write is not escaped again.  So the escaped text
    of two strings put together is the two escaped texts put together, a
    string without the five characters is left as it is, and two strings
    with the same escaped text are the same string. *)
Theorem escaping_is_character_by_character {host : Host} (s t : string) :
  escapeHtml (VStr s) = escape_each s
  /\ escapeHtml (VStr (s +:+ t)) = escapeHtml (VStr s) +:+ escapeHtml (VStr t)
  /\ (free_of markup s = true -> free_of (Ascii.eqb "&") s = true ->
      escapeHtml (VStr s) = s)
  /\ (escapeHtml (VStr s) = escapeHtml (VStr t) -> s = t).
Proof.
  unfold escapeHtml. cbn [to_string]. rewrite !escaped_each.
  split; [reflexivity|]. split; [apply escape_each_app|]. split.
  - intros Hm Ha. induction s as [|c s IH]; [reflexivity|].
    unfold free_of in Hm, Ha. cbn in Hm, Ha.
    apply andb_prop in Hm as [Hc Hm]. apply andb_prop in Ha as [Hc' Ha].
    cbn [escape_each]. rewrite escape_char_plain, (IH Hm Ha); [reflexivity| |].
    + apply negb_true_iff. exact Hc.
    + intros ->. discriminate Hc'.
  - intros Hsame. rewrite <- (unescape_each s), <- (unescape_each t), Hsame.
    reflexivity.
Qed.

End HtmlFacts.


(* ===================================================================== *)
(** ** Properties of paging                                              *)
(* ===================================================================== *)

Module TableFacts.
Import JS Table.

(** *** The number of pages *)

Lemma quotient_above (n total limit : Z) :
  0 < limit ->
  (inject_Z n < inject_Z total / inject_Z limit)%Q <-> n * limit < total.
Proof.
  intros Hpos.
  assert (Hq : (inject_Z 0 < inject_Z limit)%Q) by (rewrite <- Zlt_Qlt; exact Hpos).
  split.
  - intros Hlt. destruct (Z_lt_le_dec (n * limit) total) as [|Hge]; [assumption|].
    exfalso. apply (Qlt_irrefl (inject_Z n)).
    eapply Qlt_le_trans; [exact Hlt|].
    apply Qle_shift_div_r; [exact Hq|].
    rewrite <- inject_Z_mult. rewrite <- Zle_Qle. exact Hge.
  - intros Hlt. apply Qlt_shift_div_l; [exact Hq|].
    rewrite <- inject_Z_mult. rewrite <- Zlt_Qlt. exact Hlt.
Qed.

(** Page [n], counted from zero, is below the page count when its first
    row is below the total. *)
Lemma pageCount_above (n total limit : Z) :
  0 < limit -> n < pageCount total limit <-> n * limit < total.
Proof.
  intros Hpos. unfold pageCount.
  set (x := (inject_Z total / inject_Z limit)%Q).
  rewrite <- (quotient_above n total limit Hpos). fold x. split.
  - intros Hlt. eapply Qle_lt_trans; [|apply (Qceiling_lt x)].
    rewrite <- Zle_Qle. lia.
  - intros Hlt. rewrite Zlt_Qlt. eapply Qlt_le_trans; [exact Hlt|].
    apply Qle_ceiling.
Qed.

Lemma pageCount_positive total limit :
  0 < limit -> 0 < total -> 1 <= pageCount total limit.
Proof.
  intros Hpos Htotal.
  assert (0 < pageCount total limit); [|lia].
  apply (pageCount_above 0 total limit Hpos). lia.
Qed.

Lemma pageCount_none total limit :
  0 < limit -> total <= 0 -> pageCount total limit <= 0.
Proof.
  intros Hpos Htotal.
  destruct (Z_lt_le_dec 0 (pageCount total limit)) as [Hlt|]; [|assumption].
  apply (pageCount_above 0 total limit Hpos) in Hlt. lia.
Qed.

Lemma maxPage_bounds total limit :
  0 < limit ->
  0 <= maxPage total limit
  /\ (maxPage total limit = 0 \/ maxPage total limit * limit < total).
Proof.
  intros Hpos. unfold maxPage. destruct (0 <? total) eqn:E; [|lia].
  split; [lia|].
  destruct (Z.max_spec 0 (pageCount total limit - 1)) as [[Hlt ->]|[_ ->]]; [|lia].
  right. apply (pageCount_above _ total limit Hpos). lia.
Qed.

(** A page that is one of those the total has is not above the last. *)
Lemma maxPage_covers n total limit :
  0 < limit -> n * limit < total -> 0 <= n -> n <= maxPage total limit.
Proof.
  intros Hpos Hrow Hn. unfold maxPage.
  assert (Htotal : 0 < total) by nia.
  apply Z.ltb_lt in Htotal as E. rewrite E.
  apply (pageCount_above n total limit Hpos) in Hrow. lia.
Qed.

(** *** Moving between pages *)

(** With a limit above zero and a total that is not negative, [changePage]
    refuses a move exactly when it would lead before page 0 or, the total
    being above zero, to a page whose first row is not below the total.  A
    move it makes changes the page and nothing else. *)
Theorem page_change_stays_in_range (delta : Z) (table : TableState) :
  0 < limit table ->
  0 <= total table ->
  let nextPage := page table + delta in
  (changePage_begin delta table = None
   <-> nextPage < 0 \/ (0 < total table /\ total table <= nextPage * limit table))
  /\ (forall moved,
        changePage_begin delta table = Some moved ->
        moved = set_page nextPage table
        /\ 0 <= page moved
        /\ (0 < total table -> page moved * limit moved < total moved)).
Proof.
  intros Hlimit Htotal nextPage. unfold changePage_begin. fold nextPage.
  pose proof (pageCount_above nextPage (total table) (limit table) Hlimit) as Habove.
  destruct (nextPage <? 0) eqn:Hneg.
  { apply Z.ltb_lt in Hneg. split; [|discriminate]. split; auto. }
  apply Z.ltb_ge in Hneg.
  destruct (Z.eq_dec (total table) 0) as [Hzero|Hsome].
  - assert (Hnone : pageCount (total table) (limit table) = 0).
    { rewrite Hzero. unfold pageCount. cbn. unfold Qdiv. rewrite Qmult_0_l. reflexivity. }
    rewrite Hnone. cbn [Z.eqb negb andb]. split.
    + split; [discriminate|]. intros [?|[? _]]; lia.
    + intros moved [= <-]. repeat split; [exact Hneg|lia].
  - pose proof (pageCount_positive (total table) (limit table) Hlimit ltac:(lia)) as Hone.
    destruct (pageCount (total table) (limit table) =? 0) eqn:E;
      [apply Z.eqb_eq in E; lia|]. cbn [negb andb].
    destruct (pageCount (total table) (limit table) <=? nextPage) eqn:Hlast.
    + apply Z.leb_le in Hlast. split; [|discriminate]. split; [|reflexivity].
      intros _. right. split; [lia|].
      destruct (Z_lt_le_dec (nextPage * limit table) (total table)) as [Hlt|]; [|assumption].
      apply Habove in Hlt. lia.
    + apply Z.leb_gt in Hlast. apply Habove in Hlast. split.
      * split; [discriminate|]. intros [?|[_ ?]]; lia.
      * intros moved [= <-]. repeat split; [exact Hneg|]. intros _. exact Hlast.
Qed.

Lemma page_change_stays_in_range_witness :
  let table := set_page 1 (set_total 120 createTableState) in
  changePage_begin 2 table = None
  /\ changePage_begin (-2) table = None
  /\ 2 * limit table < total table.
Proof.
  intros table.
  destruct (page_change_stays_in_range 1 table ltac:(reflexivity) ltac:(discriminate))
    as [_ Hmoved].
  destruct (page_change_stays_in_range 2 table ltac:(reflexivity) ltac:(discriminate))
    as [[_ Hlast] _].
  destruct (page_change_stays_in_range (-2) table ltac:(reflexivity) ltac:(discriminate))
    as [[_ Hfirst] _].
  split; [|split].
  - apply Hlast. right. split; [reflexivity|discriminate].
  - apply Hfirst. left. reflexivity.
  - destruct (Hmoved (set_page 2 table) eq_refl) as (_ & _ & Hrow).
    apply Hrow. reflexivity.
Defined.

(** *** Loading a table *)

Lemma loadTable_first mutate answers table :
  exists later,
    (loadTable mutate answers table).2
    = request_of (set_loading true (mutate table)) :: later.
Proof.
  destruct answers as [|[items total|message] answers]; cbn [loadTable].
  - eexists. reflexivity.
  - destruct (_ <? _); [|eexists; reflexivity].
    destruct (loadTable _ answers _) as [final requests]. eexists. reflexivity.
  - eexists. reflexivity.
Qed.

(** What a load leaves, once enough answers have come. *)
Lemma loadTable_run answers : forall mutate table,
  let snapshot := mutate table in
  let final := (loadTable mutate answers table).1 in
  let requests := (loadTable mutate answers table).2 in
  0 < limit snapshot ->
  0 <= page snapshot ->
  (Z.to_nat (page snapshot) < length answers)%nat ->
  loading final = false
  /\ descending (List.map r_page requests)
  /\ (length requests <= Z.to_nat (page snapshot) + 1)%nat
  /\ limit final = limit snapshot
  /\ filters final = filters snapshot
  /\ sort final = sort snapshot
  /\ order final = order snapshot
  /\ 0 <= page final <= page snapshot
  /\ match error final with
     | None => In (Fetched (rows final) (total final)) answers
     | Some _ => rows final = [] /\ total final = total snapshot
     end
  /\ (error final = None -> in_range final).
Proof.
  induction answers as [|[items count|message] answers IH];
    intros mutate table snapshot final requests Hlimit Hpage Hlength.
  - cbn in Hlength. lia.
  - subst final requests. cbn [loadTable]. fold snapshot.
    change (limit (set_loading true snapshot)) with (limit snapshot).
    change (page (set_loading true snapshot)) with (page snapshot).
    destruct (maxPage_bounds count (limit snapshot) Hlimit) as [Hmin Hmax].
    destruct (maxPage count (limit snapshot) <? page snapshot) eqn:Hclamp.
    + apply Z.ltb_lt in Hclamp.
      rewrite Z.max_r by exact Hmin.
      set (newPage := maxPage count (limit snapshot)) in *.
      set (again := fun state => set_loading true (set_page newPage state)).
      set (nextState := set_loading true (set_page newPage (set_loading true snapshot))).
      specialize (IH again nextState). cbv zeta in IH.
      destruct (loadTable_first again answers nextState) as [later Hfirst].
      destruct (loadTable again answers nextState) as [final requests].
      cbn [fst snd] in *.
      assert (Hlength' : (Z.to_nat newPage < length answers)%nat)
        by (cbn [length] in Hlength; lia).
      destruct (IH Hlimit Hmin Hlength')
        as (Hl & Hd & Hn & Hlim & Hf & Hs & Ho & Hp & He & Hr).
      split; [exact Hl|]. split.
      { rewrite Hfirst in *. cbn [List.map descending r_page request_of page] in *.
        split; [exact Hclamp|exact Hd]. }
      split; [cbn [length]; cbn in Hn; lia|].
      split; [exact Hlim|]. split; [exact Hf|]. split; [exact Hs|].
      split; [exact Ho|]. split; [cbn in Hp; lia|]. split; [|exact Hr].
      destruct (error final); [exact He|]. right. exact He.
    + apply Z.ltb_ge in Hclamp. cbn [fst snd length List.map descending].
      split; [reflexivity|]. split; [exact I|]. split; [lia|].
      split; [reflexivity|]. split; [reflexivity|]. split; [reflexivity|].
      split; [reflexivity|].
      split; [cbn [page set_error set_loading set_rows set_total]; lia|].
      split; [left; reflexivity|].
      intros _. split; [exact Hpage|]. cbn [page limit total set_error set_loading
                                            set_total set_rows].
      destruct Hmax as [Hzero|Hrow]; [left; lia|].
      destruct (Z.eq_dec (page snapshot) 0) as [|Hne]; [left; assumption|right].
      assert (Hle : page snapshot <= maxPage count (limit snapshot)) by lia.
      nia.
  - subst final requests snapshot. cbn [loadTable fst snd length List.map descending].
    split; [reflexivity|]. split; [exact I|]. split; [lia|].
    split; [reflexivity|]. split; [reflexivity|]. split; [reflexivity|].
    split; [reflexivity|].
    split; [cbn [page set_error set_loading set_rows set_total]; lia|].
    split; [split; reflexivity|].
    intros Hnone. discriminate Hnone.
Qed.

(** A load that gets an answer for each of its requests comes to an end,
    after no more requests than the page it was asked for plus one, for
    pages that go down from one request to the next.  When it ends on items
    the table holds the items and the total of one answer, and its page is
    one of those this total has. *)
Theorem load_settles_in_range
        (mutate : TableState -> TableState) (answers : list Answer)
        (table : TableState) :
  let snapshot := mutate table in
  let final := (loadTable mutate answers table).1 in
  let requests := (loadTable mutate answers table).2 in
  0 < limit snapshot ->
  0 <= page snapshot ->
  (Z.to_nat (page snapshot) < length answers)%nat ->
  loading final = false
  /\ (length requests <= Z.to_nat (page snapshot) + 1)%nat
  /\ descending (List.map r_page requests)
  /\ 0 <= page final <= page snapshot
  /\ (error final = None ->
      in_range final /\ In (Fetched (rows final) (total final)) answers).
Proof.
  intros snapshot final requests Hlimit Hpage Hlength.
  destruct (loadTable_run answers mutate table Hlimit Hpage Hlength)
    as (Hl & Hd & Hn & _ & _ & _ & _ & Hp & He & Hr).
  fold final requests in Hl, Hd, Hn, Hp, He, Hr.
  split; [exact Hl|]. split; [exact Hn|]. split; [exact Hd|]. split; [exact Hp|].
  intros Hnone. split; [exact (Hr Hnone)|]. rewrite Hnone in He. exact He.
Qed.

Lemma load_settles_in_range_witness :
  let table := set_page 1 createTableState in
  let answers := [Fetched [] 30; Fetched [∅] 30] in
  let final := (loadTable (fun state => state) answers table).1 in
  loading final = false /\ page final = 0 /\ in_range final.
Proof.
  intros table answers final.
  destruct (load_settles_in_range (fun state => state) answers table
              ltac:(reflexivity) ltac:(discriminate) ltac:(cbn; lia))
    as (Hl & _ & _ & _ & Hr).
  split; [exact Hl|]. split; [reflexivity|]. exact (proj1 (Hr eq_refl)).
Defined.

(** A load that ends on a rejection, at its first request or after the
    page was brought down, leaves no rows and an error, and the total, the
    filters, the order and the limit the table had before. *)
Theorem failed_load_keeps_total
        (mutate : TableState -> TableState) (answers : list Answer)
        (table : TableState) :
  let snapshot := mutate table in
  let final := (loadTable mutate answers table).1 in
  0 < limit snapshot ->
  0 <= page snapshot ->
  (Z.to_nat (page snapshot) < length answers)%nat ->
  error final <> None ->
  rows final = []
  /\ total final = total snapshot
  /\ filters final = filters snapshot
  /\ sort final = sort snapshot
  /\ order final = order snapshot
  /\ limit final = limit snapshot.
Proof.
  intros snapshot final Hlimit Hpage Hlength Herror.
  destruct (loadTable_run answers mutate table Hlimit Hpage Hlength)
    as (_ & _ & _ & Hlim & Hf & Hs & Ho & _ & He & _).
  fold final in Hlim, Hf, Hs, Ho, He.
  destruct (error final) as [message|]; [|congruence].
  destruct He as [Hrows Htotal]. repeat split; assumption.
Qed.

Lemma failed_load_keeps_total_witness :
  let table := set_page 1 (set_total 120 createTableState) in
  let answers := [Fetched [] 30; Rejected None] in
  let final := (loadTable (fun state => state) answers table).1 in
  rows final = [] /\ total final = 120 /\ page final = 0.
Proof.
  intros table answers final.
  destruct (failed_load_keeps_total (fun state => state) answers table
              ltac:(reflexivity) ltac:(discriminate) ltac:(cbn; lia)
              ltac:(discriminate))
    as (Hrows & Htotal & _).
  split; [exact Hrows|]. split; [exact Htotal|reflexivity].
Defined.

(** *** The two page buttons *)

(** On a table whose page is one of those its total has, a page button
    that is not disabled does move: [changePage] goes to the page before
    or to the page after.  With a total above zero, the next button is
    disabled exactly when [changePage(1)] refuses.  The page shown is
    between 1 and the number of pages shown. *)
Theorem enabled_buttons_move (table : TableState) :
  0 < limit table ->
  in_range table ->
  let shown := updatePagination table in
  (prevDisabled shown = false ->
   changePage_begin (-1) table = Some (set_page (page table - 1) table))
  /\ (nextDisabled shown = false ->
      changePage_begin 1 table = Some (set_page (page table + 1) table))
  /\ (0 < total table -> nextDisabled shown = true ->
      changePage_begin 1 table = None)
  /\ 1 <= currentPage shown <= totalPages shown.
Proof.
  intros Hlimit [Hpage Hrange] shown. subst shown.
  unfold updatePagination, changePage_begin.
  cbn [prevDisabled nextDisabled currentPage totalPages].
  pose proof (pageCount_above (page table) (total table) (limit table) Hlimit) as Hhere.
  pose proof (pageCount_above (page table + 1) (total table) (limit table) Hlimit)
    as Hnext.
  set (count := pageCount (total table) (limit table)) in *.
  split; [|split; [|split]].
  - intros Hprev. apply Z.eqb_neq in Hprev.
    destruct Hrange as [|Hrow]; [contradiction|]. apply Hhere in Hrow.
    replace (page table + -1 <? 0) with false by (symmetry; apply Z.ltb_ge; lia).
    replace (count <=? page table + -1) with false by (symmetry; apply Z.leb_gt; lia).
    rewrite andb_false_r. reflexivity.
  - intros Hlast. apply Z.leb_gt in Hlast.
    replace (page table + 1 <? 0) with false by (symmetry; apply Z.ltb_ge; lia).
    replace (count <=? page table + 1) with false by (symmetry; apply Z.leb_gt; lia).
    rewrite andb_false_r. reflexivity.
  - intros Htotal Hlast. apply Z.leb_le in Hlast.
    pose proof (pageCount_positive (total table) (limit table) Hlimit Htotal) as Hone.
    fold count in Hone.
    replace (page table + 1 <? 0) with false by (symmetry; apply Z.ltb_ge; lia).
    replace (count =? 0) with false by (symmetry; apply Z.eqb_neq; lia).
    replace (count <=? page table + 1) with true by (symmetry; apply Z.leb_le; lia).
    reflexivity.
  - lia.
Qed.

Lemma enabled_buttons_move_witness :
  let table := set_page 1 (set_total 120 createTableState) in
  changePage_begin (-1) table = Some (set_page 0 table)
  /\ changePage_begin 1 table = Some (set_page 2 table).
Proof.
  intros table.
  assert (Hrange : in_range table) by (split; [discriminate|right; reflexivity]).
  destruct (enabled_buttons_move table ltac:(reflexivity) Hrange)
    as (Hprev & Hnext & _).
  split; [exact (Hprev eq_refl)|exact (Hnext eq_refl)].
Defined.

End TableFacts.


(* ===================================================================== *)
(** ** Properties of [applyChannelUpdate]                                *)
(* ===================================================================== *)

Module RowsFacts.
Import JS Table Rows.

Section WithHost.
Context {host : Host}.

(** *** The row written *)

Lemma nextRow_writes update current :
  nextRow update current = fold_left write (writes update) current.
Proof. reflexivity. Qed.

Lemma fold_write_patch ws : forall patch current : obj,
  fold_left write ws (patch ∪ current) = fold_left write ws patch ∪ current.
Proof.
  induction ws as [|[[wanted key] v] ws IH]; intros patch current; [reflexivity|].
  cbn [fold_left write]. destruct wanted; [|apply IH].
  rewrite insert_union_l. apply IH.
Qed.

(** The new row is the old one under the fields the update writes. *)
Lemma nextRow_patch update current :
  nextRow update current = nextRow update ∅ ∪ current.
Proof.
  rewrite !nextRow_writes, <- fold_write_patch, (left_id ∅ (∪)). reflexivity.
Qed.

Lemma nextRow_twice update current :
  nextRow update (nextRow update current) = nextRow update current.
Proof.
  rewrite (nextRow_patch update (nextRow update current)), (nextRow_patch update current).
  rewrite (assoc_L (∪)), (idemp_L (∪)). reflexivity.
Qed.

Lemma fold_write_other ws key : forall row : obj,
  Forall (fun w => w.1.2 <> key) ws ->
  fold_left write ws row !! key = row !! key.
Proof.
  induction ws as [|[[wanted name] v] ws IH]; intros row Hall; [reflexivity|].
  apply Forall_cons in Hall as [Hname Hall]. cbn [fold_left write].
  rewrite (IH _ Hall). destruct wanted; [|reflexivity].
  apply lookup_insert_ne. exact Hname.
Qed.

Lemma nextRow_other update current key :
  key ∉ written -> nextRow update current !! key = current !! key.
Proof.
  intros Hkey. unfold written in Hkey.
  repeat (apply not_elem_of_cons in Hkey as [? Hkey]).
  rewrite nextRow_writes. apply fold_write_other.
  unfold writes. repeat (constructor; [cbn; congruence|]). constructor.
Qed.

Lemma nextRow_id update current :
  prop (nextRow update current) "channel_id" = prop current "channel_id".
Proof.
  unfold prop. rewrite nextRow_other; [reflexivity|].
  unfold written. set_solver.
Qed.

(** *** The row found *)

Lemma findIndex_found p rows index :
  findIndex p rows = Some index ->
  exists row,
    rows !! index = Some row /\ p row = true
    /\ forall j earlier, (j < index)%nat -> rows !! j = Some earlier -> p earlier = false.
Proof.
  revert index. induction rows as [|row rest IH]; intros index Hfound; [discriminate|].
  cbn [findIndex] in Hfound. destruct (p row) eqn:Hrow.
  - injection Hfound as <-. exists row. split; [reflexivity|]. split; [exact Hrow|].
    intros j earlier Hj. lia.
  - destruct (findIndex p rest) as [i|] eqn:Hrest; [|discriminate].
    injection Hfound as <-. destruct (IH i eq_refl) as (found & Hat & Hp & Hfirst).
    exists found. split; [exact Hat|]. split; [exact Hp|].
    intros [|j] earlier Hj Hlook; cbn in Hlook.
    + injection Hlook as <-. exact Hrow.
    + apply (Hfirst j earlier); [lia|exact Hlook].
Qed.

Lemma findIndex_none p rows :
  findIndex p rows = None <-> Forall (fun row => p row = false) rows.
Proof.
  induction rows as [|row rest IH]; cbn [findIndex].
  - split; [constructor|reflexivity].
  - destruct (p row) eqn:Hrow.
    + split; [discriminate|]. intros Hall. apply Forall_cons in Hall as [Hno _].
      congruence.
    + destruct (findIndex p rest) as [i|]; cbn.
      * split; [discriminate|]. intros Hall. apply Forall_cons in Hall as [_ Hall].
        apply IH in Hall. discriminate.
      * split; [|reflexivity]. intros _. constructor; [exact Hrow|].
        apply IH. reflexivity.
Qed.

Lemma findIndex_insert p rows index row :
  findIndex p rows = Some index -> p row = true ->
  findIndex p (<[index := row]> rows) = Some index.
Proof.
  revert index. induction rows as [|first rest IH]; intros index Hfound Hrow;
    [discriminate|].
  cbn [findIndex] in Hfound. destruct (p first) eqn:Hfirst.
  - injection Hfound as <-. cbn. rewrite Hrow. reflexivity.
  - destruct (findIndex p rest) as [i|] eqn:Hrest; [|discriminate].
    injection Hfound as <-.
    change (<[S i := row]> (first :: rest)) with (first :: <[i := row]> rest).
    cbn [findIndex]. rewrite Hfirst, (IH i eq_refl Hrow). reflexivity.
Qed.

(** *** One table *)

Lemma updateTable_found update channelId table after :
  updateTable update channelId table = Some after ->
  exists index current,
    rows table !! index = Some current
    /\ strict_eq (prop current "channel_id") channelId = true
    /\ findIndex (fun row => strict_eq (prop row "channel_id") channelId) (rows table)
       = Some index
    /\ after = set_rows (<[index := nextRow update current]> (rows table)) table.
Proof.
  unfold updateTable. intros Hupdate.
  destruct (findIndex _ (rows table)) as [index|] eqn:Hfound; [|discriminate].
  destruct (findIndex_found _ _ _ Hfound) as (current & Hat & Hid & _).
  rewrite Hat in Hupdate. injection Hupdate as <-.
  exists index, current. auto.
Qed.

Lemma updateTable_none update channelId table :
  updateTable update channelId table = None
  <-> Forall (fun row => strict_eq (prop row "channel_id") channelId = false)
             (rows table).
Proof.
  unfold updateTable. rewrite <- findIndex_none.
  destruct (findIndex _ (rows table)) as [index|] eqn:Hfound.
  - destruct (findIndex_found _ _ _ Hfound) as (current & -> & _).
    split; discriminate.
  - split; reflexivity.
Qed.

Lemma updateTable_twice update channelId table after :
  updateTable update channelId table = Some after ->
  updateTable update channelId after = Some after.
Proof.
  intros Hupdate.
  destruct (updateTable_found _ _ _ _ Hupdate)
    as (index & current & Hat & Hid & Hfound & ->).
  unfold updateTable. cbn [rows set_rows].
  rewrite (findIndex_insert _ _ _ (nextRow update current) Hfound)
    by (rewrite nextRow_id; exact Hid).
  rewrite list_lookup_insert_eq by (eapply lookup_lt_Some; exact Hat).
  rewrite nextRow_twice, list_insert_insert_eq. reflexivity.
Qed.

Lemma map_insert_same {A B} (f : A -> B) (l : list A) index x y :
  l !! index = Some y -> f x = f y ->
  List.map f (<[index := x]> l) = List.map f l.
Proof.
  revert index. induction l as [|a l IH]; intros [|index] Hat Hsame;
    try discriminate; cbn in *.
  - injection Hat as ->. rewrite Hsame. reflexivity.
  - f_equal. apply IH; assumption.
Qed.

Lemma ids_insert table index current update :
  rows table !! index = Some current ->
  ids (set_rows (<[index := nextRow update current]> (rows table)) table)
  = ids table.
Proof.
  intros Hat. unfold ids. cbn [rows set_rows].
  apply map_insert_same with (y := current); [exact Hat|apply nextRow_id].
Qed.

(** *** All tables *)

Lemma unchanged_in_place (before : TableState) :
  set_rows (rows before) before = before
  /\ ids before = ids before
  /\ length (rows before) = length (rows before)
  /\ (exists index : nat, forall j, j <> index -> rows before !! j = rows before !! j)
  /\ (forall j old new key,
        rows before !! j = Some old -> rows before !! j = Some new ->
        key ∉ written -> new !! key = old !! key).
Proof.
  split; [destruct before; reflexivity|]. split; [reflexivity|].
  split; [reflexivity|]. split; [exists 0%nat; reflexivity|].
  intros j old new key Hold Hnew _. congruence.
Qed.

(** Whatever the update, every table keeps its rows in place: as many
    rows, with the channel ids they had, in the same order; all rows but
    one, at most, are the rows they were, and in a row that changed no
    field changed but the nine the update writes.  Page, total, filters and
    the rest of the table stay. *)
Theorem channel_update_keeps_rows_in_place
        (update : option obj) (activeTab : Dash.Category)
        (tables : Dash.Category -> TableState) (category : Dash.Category) :
  let before := tables category in
  let after := (applyChannelUpdate update activeTab tables).1 category in
  set_rows (rows before) after = before
  /\ ids after = ids before
  /\ length (rows after) = length (rows before)
  /\ (exists index, forall j, j <> index -> rows after !! j = rows before !! j)
  /\ (forall j old new key,
        rows before !! j = Some old -> rows after !! j = Some new ->
        key ∉ written -> new !! key = old !! key).
Proof.
  intros before after. subst after. unfold applyChannelUpdate.
  destruct update as [update|]; [|exact (unchanged_in_place before)].
  destruct (truthy (prop update "channelId")); [|exact (unchanged_in_place before)].
  cbn [negb fst]. fold before.
  destruct (updateTable update (prop update "channelId") before) as [after|] eqn:Hupdate;
    [|exact (unchanged_in_place before)].
  cbn [from_option id].
  destruct (updateTable_found _ _ _ _ Hupdate)
    as (index & current & Hat & _ & _ & ->).
  split; [destruct before; reflexivity|].
  split; [apply ids_insert; exact Hat|]. cbn [rows set_rows].
  split; [apply length_insert|].
  split.
  - exists index. intros j Hj. apply list_lookup_insert_ne. congruence.
  - intros j old new key Hold Hnew Hkey.
    destruct (decide (j = index)) as [->|Hj].
    + rewrite list_lookup_insert_eq in Hnew by (eapply lookup_lt_Some; exact Hat).
      injection Hnew as <-. rewrite Hat in Hold. injection Hold as <-.
      apply nextRow_other. exact Hkey.
    + rewrite list_lookup_insert_ne in Hnew by congruence. congruence.
Qed.

(** An update that comes twice changes nothing the second time: the
    tables after the two are the tables after the first, and the table
    shown is drawn again both times or neither. *)
Theorem channel_update_twice_is_once
        (update : option obj) (activeTab : Dash.Category)
        (tables : Dash.Category -> TableState) (category : Dash.Category) :
  let once := applyChannelUpdate update activeTab tables in
  let twice := applyChannelUpdate update activeTab once.1 in
  twice.1 category = once.1 category /\ twice.2 = once.2.
Proof.
  cbv zeta. unfold applyChannelUpdate.
  destruct update as [update|]; [|split; reflexivity].
  destruct (truthy (prop update "channelId")); [|split; reflexivity].
  cbn [negb fst snd]. split.
  - destruct (updateTable update _ (tables category)) as [after|] eqn:Hupdate;
      cbn [from_option id].
    + rewrite (updateTable_twice _ _ _ _ Hupdate). reflexivity.
    + rewrite Hupdate. reflexivity.
  - destruct (updateTable update _ (tables activeTab)) as [after|] eqn:Hupdate;
      cbn [from_option id].
    + rewrite (updateTable_twice _ _ _ _ Hupdate). reflexivity.
    + rewrite Hupdate. reflexivity.
Qed.

(** A table in which no row has the channel id of the update is left as it
    is, and so is every table when the update is missing or names no
    channel; the table shown is drawn again exactly when the update names a
    channel and one of its rows has that id. *)
Theorem channel_update_without_target
        (update : option obj) (activeTab : Dash.Category)
        (tables : Dash.Category -> TableState) :
  let channelId := prop (default ∅ update) "channelId" in
  let result := applyChannelUpdate update activeTab tables in
  (forall category,
      truthy channelId = false
      \/ Forall (fun row => strict_eq (prop row "channel_id") channelId = false)
                (rows (tables category)) ->
      result.1 category = tables category)
  /\ (result.2 = true
      <-> truthy channelId = true
          /\ Exists (fun row => strict_eq (prop row "channel_id") channelId = true)
                    (rows (tables activeTab))).
Proof.
  cbv zeta. unfold applyChannelUpdate.
  destruct update as [update|]; cbn [from_option id].
  2:{ split; [reflexivity|]. split; [discriminate|]. intros [Hid _].
      unfold prop in Hid. rewrite lookup_empty in Hid. discriminate Hid. }
  destruct (truthy (prop update "channelId")) eqn:Hid; cbn [negb fst snd].
  2:{ split; [reflexivity|]. split; [discriminate|]. intros [? _]. discriminate. }
  split.
  - intros category [Hno|Hno]; [discriminate|].
    apply updateTable_none with (update := update) in Hno. rewrite Hno. reflexivity.
  - destruct (updateTable update _ (tables activeTab)) as [after|] eqn:Hupdate.
    + split; [|reflexivity]. intros _. split; [reflexivity|].
      destruct (updateTable_found _ _ _ _ Hupdate) as (index & current & Hat & Hsame & _).
      apply Exists_exists. exists current. split; [|exact Hsame].
      eapply list_elem_of_lookup_2. exact Hat.
    + split; [discriminate|]. intros [_ Hsome].
      apply updateTable_none in Hupdate.
      apply Exists_exists in Hsome as (row & Hin & Hrow).
      rewrite Forall_forall in Hupdate. rewrite (Hupdate row Hin) in Hrow.
      discriminate.
Qed.

End WithHost.

End RowsFacts.


(* ===================================================================== *)
(** ** Properties of the requests                                        *)
(* ===================================================================== *)

Module FlowFacts.
Import JS Settings Dash Flow DashFacts.

Lemma progress_app l1 l2 : progress (l1 ++ l2) = (progress l1 ++ progress l2)%list.
Proof. apply omap_app. Qed.

(** *** Handlers that start nothing *)

Lemma startless_ret {A} (a : A) : startless (mret a).
Proof. intros d. reflexivity. Qed.

Lemma startless_this : startless this.
Proof. intros d. reflexivity. Qed.

Lemma startless_update f : startless (update f).
Proof. intros d. reflexivity. Qed.

Lemma startless_emit e : starts [e] = [] -> startless (emit e).
Proof. intros He d. exact He. Qed.

Lemma startless_bind {A B} (m : M A) (k : A -> M B) :
  startless m -> (forall a, startless (k a)) -> startless (m ≫= k).
Proof.
  intros Hm Hk d. rewrite log_of_bind, starts_app, (Hm d), (Hk _ _). reflexivity.
Qed.

Ltac startlessness :=
  repeat first
    [ apply startless_ret
    | apply startless_this
    | apply startless_update
    | apply startless_emit; reflexivity
    | apply startless_bind; [|intros ?]
    | match goal with
      | |- startless (if ?c then _ else _) => destruct c
      | |- startless (match ?x with _ => _ end) => destruct x
      end ].

Lemma startless_closeDropdown menu : startless (closeDropdown menu).
Proof. unfold closeDropdown, skip. startlessness. Qed.

Lemma startless_refresh stats now : startless (maybeRefreshAfterLoop stats now).
Proof.
  unfold maybeRefreshAfterLoop, loadTable, updateStatusBar, skip.
  destruct stats as [stats|]; [|startlessness].
  destruct (running stats); [startlessness|]. destruct (negb _); [startlessness|].
  destruct (_ || _); [startlessness|].
  apply startless_bind; [startlessness|intros d0].
  destruct (same_version _ _); [startlessness|].
  destruct (refreshed_notice _). startlessness.
Qed.

Lemma startless_loadStats answer now : startless (loadStats answer now).
Proof.
  unfold loadStats, loadStats_begin, loadStats_resume, updateStatusBar, skip.
  apply startless_bind; [startlessness|intros sent]. destruct sent; [|startlessness].
  apply startless_bind; [|intros ?; startlessness].
  destruct answer; try apply startless_refresh. startlessness.
Qed.

Lemma startless_finalize delivered : startless (tryFinalizeDiscoveryLoop delivered).
Proof.
  unfold tryFinalizeDiscoveryLoop, tryFinalizeDiscoveryLoop_begin,
    tryFinalizeDiscoveryLoop_resume, skip.
  startlessness.
Qed.

Lemma startless_streamError : startless streamError.
Proof. unfold streamError, updateStatusBar. startlessness. Qed.

Lemma startless_stop : startless stopDiscoveryLoop.
Proof. unfold stopDiscoveryLoop, updateStatusBar, skip. startlessness. Qed.

Lemma startless_start initialInputs : startless (startDiscoveryLoop_begin initialInputs).
Proof.
  unfold startDiscoveryLoop_begin, setDiscoveryLoopRunningState, updateStatusBar, skip.
  startlessness.
Qed.

Lemma startless_resume overrides limitValue answer :
  startless (handleEnrich_resume overrides limitValue answer).
Proof. unfold handleEnrich_resume, updateStatusBar, skip. startlessness. Qed.

Lemma startless_refreshed p stats now : startless (streamDone_refresh p stats now).
Proof.
  unfold streamDone_refresh, loadTable, updateStatusBar, skip.
  apply startless_bind; [startlessness|intros ?].
  apply startless_bind; [startlessness|intros ?].
  apply startless_bind; [apply startless_loadStats|intros ?]. startlessness.
Qed.

(** *** Handlers that start one enrichment at most *)

Lemma tidy_startless {A} (m : M A) : startless m -> tidy m.
Proof. intros Hm d. rewrite (Hm d). split; [cbn [List.length]; lia|constructor]. Qed.

Lemma tidy_then {A B} (m : M A) (k : A -> M B) :
  tidy m -> (forall a, startless (k a)) -> tidy (m ≫= k).
Proof.
  intros Hm Hk d. rewrite log_of_bind, starts_app, (Hk _ _), app_nil_r. apply Hm.
Qed.

Lemma tidy_after {A B} (m : M A) (k : A -> M B) :
  startless m -> (forall a, tidy (k a)) -> tidy (m ≫= k).
Proof.
  intros Hm Hk d. rewrite log_of_bind, starts_app, (Hm d). apply Hk.
Qed.

Lemma tidy_begin mode overrides : tidy (handleEnrich_begin mode overrides).
Proof.
  unfold handleEnrich_begin.
  apply tidy_after; [apply startless_closeDropdown|intros _].
  apply tidy_after; [apply startless_this|intros d0].
  destruct (enrichmentBusy d0); [apply tidy_startless, startless_ret|].
  destruct (non_positive _) eqn:Hlimit.
  - apply tidy_startless. unfold updateStatusBar. startlessness.
  - intros d. unfold log_of. run_m. split; [lia|]. repeat constructor. exact Hlimit.
Qed.

Lemma tidy_handleEnrich mode overrides answer :
  tidy (handleEnrich mode overrides answer).
Proof.
  unfold handleEnrich. apply tidy_then; [apply tidy_begin|intros sent].
  destruct sent; [apply startless_resume|apply startless_ret].
Qed.

Lemma tidy_trigger count answer : tidy (triggerAutoEnrich count answer).
Proof.
  unfold triggerAutoEnrich.
  destruct (count <=? 0); [apply tidy_startless, startless_ret|].
  apply tidy_after; [apply startless_this|intros d0].
  destruct (negb _); [apply tidy_startless, startless_update|].
  destruct (enrichmentBusy d0); [|apply tidy_handleEnrich].
  apply tidy_startless. unfold updateStatusBar, skip. startlessness.
Qed.

Lemma tidy_processPending answer : tidy (processPendingAutoEnrich answer).
Proof.
  unfold processPendingAutoEnrich.
  apply tidy_after; [apply startless_this|intros d0].
  destruct (_ || _); [apply tidy_startless, startless_update|].
  destruct (negb _); [apply tidy_startless, startless_update|].
  apply tidy_after; [apply startless_update|intros _].
  apply tidy_after; [apply startless_update|intros _].
  apply tidy_trigger.
Qed.

Lemma tidy_streamProgress p stats now answer delivered :
  tidy (streamProgress p stats now answer delivered).
Proof.
  unfold streamProgress, streamDone_settle.
  destruct (p_done p); [|apply tidy_startless, startless_ret].
  apply tidy_after; [apply startless_refreshed|intros _].
  apply tidy_after; [apply startless_update|intros _].
  apply tidy_then; [apply tidy_processPending|intros _]. apply startless_finalize.
Qed.

Lemma tidy_run_resume label defer answer stats now enrich :
  tidy (performDiscoveryRun_resume label defer answer stats now enrich).
Proof.
  unfold performDiscoveryRun_resume, loadTable, updateStatusBar, skip.
  destruct answer as [response|]; [|apply tidy_startless; startlessness].
  apply tidy_after; [startlessness|intros _].
  apply tidy_after; [apply startless_loadStats|intros _].
  apply tidy_after; [startlessness|intros _].
  apply tidy_then; [apply tidy_trigger|intros _]. apply startless_ret.
Qed.

(** Whatever is called on the controller, in whatever state, it asks the
    server for one enrichment at most, and never with a limit that is not
    a number, that is zero or that is negative.  The same holds of a
    discovery run from its answer on. *)
Theorem enrichment_requests_are_single_and_sound
        (i : Interruption) (d : Dashboard)
        (label : option Z) (defer : bool) (answer : option Discovery)
        (stats : StatsAnswer) (now : Z) (enrich : option EnrichmentJob) :
  let called := starts (log_of (interrupt i) d) in
  let run := starts (log_of (performDiscoveryRun_resume label defer answer stats now
                                                         enrich) d) in
  (length called <= 1)%nat /\ Forall sound called
  /\ (length run <= 1)%nat /\ Forall sound run.
Proof.
  cbv zeta.
  assert (Hcalled : tidy (interrupt i)).
  { destruct i; cbn [interrupt].
    - apply tidy_startless, startless_stop.
    - apply tidy_startless, startless_bind; [apply startless_start|intros _].
      apply startless_ret.
    - apply tidy_handleEnrich.
    - apply tidy_trigger.
    - apply tidy_streamProgress.
    - apply tidy_startless, startless_streamError.
    - apply tidy_startless, startless_loadStats.
    - apply tidy_startless, startless_finalize. }
  destruct (Hcalled d) as [H1 H2].
  destruct (tidy_run_resume label defer answer stats now enrich d) as [H3 H4].
  auto.
Qed.

(** *** While a job is active *)

Lemma busy_after_seen seen d :
  enrichmentBusy (set_lastLoopCompletionVersion seen d) = enrichmentBusy d.
Proof. destruct d; reflexivity. Qed.

(** While a job is active, nothing that is called on the controller asks
    for another enrichment, except the handling of the message that ends
    the job; and nothing but that message and an error of the stream lets
    the job go. *)
Theorem busy_job_blocks_other_starts (i : Interruption) (d : Dashboard) :
  enrichmentBusy d = true ->
  (forall p stats now answer delivered,
      i = StreamProgressed p stats now answer delivered -> p_done p = false) ->
  starts (log_of (interrupt i) d) = []
  /\ (i <> StreamFailed -> enrichmentBusy (state_after (interrupt i) d) = true).
Proof.
  intros Hbusy Hdone. unfold log_of, state_after.
  destruct i as [|initialInputs|mode answer|count answer|p stats now answer delivered
                 | |answer now|delivered]; cbn [interrupt].
  - unfold stopDiscoveryLoop. run_m.
    destruct (negb (discoveryLoopActive d) || discoveryLoopStopping d); cbn;
      (split; [reflexivity|intros _; destruct d; exact Hbusy]).
  - rewrite bind_run. unfold startDiscoveryLoop_begin. run_m.
    destruct (discoveryLoopActive d); cbn; [split; [reflexivity|intros _; exact Hbusy]|].
    destruct initialInputs as [given|]; cbn.
    + split; [reflexivity|intros _; destruct d; exact Hbusy].
    + destruct (collectDiscoveryInputsFromSettings (discoverySettings d)); cbn;
        (split; [reflexivity|intros _; destruct d; exact Hbusy]).
  - unfold handleEnrich. rewrite bind_run, (handleEnrich_begin_busy _ _ _ Hbusy).
    cbn. split; [reflexivity|]. intros _.
    destruct (closed_fields d) as (-> & _). exact Hbusy.
  - unfold triggerAutoEnrich. destruct (count <=? 0); [split; [reflexivity|auto]|].
    run_m. rewrite Hbusy. destruct (isAutoEnrichEnabled d); cbn.
    + destruct (autoEnrichQueuedNotified d); cbn;
        (split; [reflexivity|intros _; destruct d; exact Hbusy]).
    + split; [reflexivity|intros _; destruct d; exact Hbusy].
  - unfold streamProgress.
    rewrite (Hdone p stats now answer delivered eq_refl).
    split; [reflexivity|intros _; exact Hbusy].
  - split; [reflexivity|]. intros Hno. exfalso. apply Hno. reflexivity.
  - destruct (bystander_loadStats answer now d) as (seen & log & -> & Hs & _).
    cbn [fst snd]. split; [exact Hs|]. intros _. rewrite busy_after_seen. exact Hbusy.
  - rewrite finalize_deferred by (left; exact Hbusy).
    split; [reflexivity|intros _; exact Hbusy].
Qed.

Lemma busy_job_blocks_other_starts_witness :
  let d := set_enrichmentBusy true automatic in
  starts (log_of (interrupt (AutoEnrichCalled 4 None)) d) = []
  /\ enrichmentBusy (state_after (interrupt (AutoEnrichCalled 4 None)) d) = true.
Proof.
  intros d.
  destruct (busy_job_blocks_other_starts (AutoEnrichCalled 4 None) d eq_refl
              ltac:(discriminate)) as [Hnone Hkept].
  split; [exact Hnone|]. apply Hkept. discriminate.
Defined.

(** *** An automatic start *)

(** With automatic enrichment on and no job active, a request with a
    count above zero asks for one enrichment, limited to the count, in the
    mode of the settings.  If the server accepts it the job is active and
    its stream is opened; if the server rejects it no job is active and the
    count is added to the queue. *)
Theorem rejected_automatic_start_is_queued
        (d : Dashboard) (count : Z) (answer : option EnrichmentJob) :
  0 < count ->
  enrichmentBusy d = false ->
  isAutoEnrichEnabled d = true ->
  let after := state_after (triggerAutoEnrich count answer) d in
  let log := log_of (triggerAutoEnrich count answer) d in
  starts log = [(autoMode d, Some (of_Z count))]
  /\ match answer with
     | Some job =>
         enrichmentBusy after = true
         /\ pendingAutoEnrich after = pendingAutoEnrich d
         /\ In (OpenStream (jobId job) (total job)) log
     | None =>
         enrichmentBusy after = false
         /\ pendingAutoEnrich after = pendingAutoEnrich d + count
         /\ In (StatusBar EnrichmentFailed Error) log
     end.
Proof.
  intros Hpos Hidle Hon after log. subst after log. unfold state_after, log_of.
  rewrite (trigger_idle count answer d Hpos Hidle Hon). unfold handleEnrich.
  rewrite bind_run, (handleEnrich_begin_auto _ count d Hidle Hpos).
  destruct (closed_fields d) as (_ & Hpending & _).
  destruct answer as [job|]; unfold handleEnrich_resume.
  - run_m. split; [reflexivity|]. split; [destruct (closed d); reflexivity|].
    split; [destruct (closed d); cbn in *; exact Hpending|]. right. right. left.
    reflexivity.
  - rewrite (SettingsFacts.gt_of_Z count 0). destruct (Z.ltb_spec 0 count); [|lia].
    run_m. split; [reflexivity|]. split; [destruct (closed d); reflexivity|].
    split; [destruct (closed d); cbn in *; lia|]. right. left. reflexivity.
Qed.

Lemma rejected_automatic_start_is_queued_witness :
  let m := triggerAutoEnrich 3 None in
  starts (log_of m automatic) = [("email_only", Some (of_Z 3))]
  /\ enrichmentBusy (state_after m automatic) = false
  /\ pendingAutoEnrich (state_after m automatic) = 3.
Proof.
  intros m.
  destruct (rejected_automatic_start_is_queued automatic 3 None
              eq_refl eq_refl eq_refl) as (Hstart & Hidle & Hqueue & _).
  split; [exact Hstart|]. split; [exact Hidle|exact Hqueue].
Defined.

(** *** Switching automatic enrichment off *)

Lemma settings_set normalized d :
  let after := state_after (setDiscoverySettings normalized) d in
  discoverySettings after = normalized
  /\ pendingAutoEnrich after
     = (if autoEnrichEnabled normalized then pendingAutoEnrich d else 0)
  /\ (autoEnrichEnabled normalized = false -> autoEnrichQueuedNotified after = false).
Proof.
  unfold state_after, setDiscoverySettings. run_m.
  destruct (autoEnrichEnabled normalized); cbn;
    (split; [reflexivity|split; [reflexivity|]]); [discriminate|reflexivity].
Qed.

(** Settings that switch automatic enrichment off empty the queue: the
    message that ends the job then asks for no enrichment, and a request
    made meanwhile is not queued.  Settings that leave it on leave the
    queue as it is. *)
Theorem switching_off_empties_the_queue
        (d : Dashboard) (normalized : DiscoverySettings) :
  let after := state_after (setDiscoverySettings normalized) d in
  discoverySettings after = normalized
  /\ (autoEnrichEnabled normalized = true ->
      pendingAutoEnrich after = pendingAutoEnrich d)
  /\ (autoEnrichEnabled normalized = false ->
      pendingAutoEnrich after = 0
      /\ autoEnrichQueuedNotified after = false
      /\ (forall p stats now answer delivered,
            starts (log_of (streamProgress p stats now answer delivered) after) = [])
      /\ (forall count answer,
            starts (log_of (triggerAutoEnrich count answer) after) = []
            /\ pendingAutoEnrich (state_after (triggerAutoEnrich count answer) after)
               = 0)).
Proof.
  intros after. destruct (settings_set normalized d) as (Hsettings & Hqueue & Hnote).
  fold after in Hsettings, Hqueue, Hnote. clearbody after.
  split; [exact Hsettings|]. split.
  { intros Hon. rewrite Hon in Hqueue. exact Hqueue. }
  intros Hon. rewrite Hon in Hqueue.
  split; [exact Hqueue|]. split; [exact (Hnote Hon)|].
  assert (Hoff : isAutoEnrichEnabled after = false)
    by (unfold isAutoEnrichEnabled; rewrite Hsettings; exact Hon).
  rename after into off. rename Hqueue into Hempty. split.
    + intros p stats now answer delivered. unfold log_of, streamProgress.
      destruct (p_done p); [|reflexivity].
      rewrite bind_run.
      destruct (refresh_frame p stats now off) as (seen & log1 & -> & Hs1 & _).
      set (d1 := set_lastLoopCompletionVersion seen (set_enrichmentBusy false off)).
      assert (Hq1 : pendingAutoEnrich d1 = 0) by (destruct off; exact Hempty).
      unfold streamDone_settle. rewrite bind_run.
      change (update (set_autoEnrichQueuedNotified false) d1)
        with (tt, set_autoEnrichQueuedNotified false d1, @nil Effect).
      cbv beta iota. rewrite bind_run.
      rewrite processPending_empty by (destruct d1; cbn in *; lia).
      pose proof (startless_finalize delivered
                    (set_pendingAutoEnrich 0 (set_autoEnrichQueuedNotified false d1)))
        as Hfinal.
      unfold log_of in Hfinal.
      destruct (tryFinalizeDiscoveryLoop delivered _) as [[[] d3] log3].
      cbn [fst snd] in *. rewrite !starts_app, Hs1, Hfinal. reflexivity.
    + intros count answer. unfold log_of, state_after, triggerAutoEnrich.
      destruct (count <=? 0); [split; [reflexivity|exact Hempty]|].
      run_m. rewrite Hoff. cbn. split; [reflexivity|]. destruct off; reflexivity.
Qed.

(** *** Statistics *)

Lemma polls_app l1 l2 : polls (l1 ++ l2) = (polls l1 + polls l2)%nat.
Proof. unfold polls. rewrite List.filter_app, length_app. reflexivity. Qed.

Lemma refresh_polls stats now d : polls (log_of (maybeRefreshAfterLoop stats now) d) = 0%nat.
Proof.
  unfold log_of, maybeRefreshAfterLoop, loadTable, updateStatusBar, skip.
  destruct stats as [stats|]; [|reflexivity].
  destruct (running stats); [reflexivity|]. destruct (negb _); [reflexivity|].
  destruct (_ || _); [reflexivity|]. run_m.
  destruct (same_version _ _); [reflexivity|].
  destruct (refreshed_notice _). cbn.
  destruct (decide _); reflexivity.
Qed.

(** While a statistics request is in flight another call of [loadStats]
    asks nothing and changes nothing.  A call made when none is in flight
    sends one request and, whatever the answer, leaves none in flight. *)
Theorem statistics_requests_do_not_overlap
        (d : Dashboard) (answer : StatsAnswer) (now : Z) :
  (statsPromise d = true -> loadStats answer now d = (tt, d, []))
  /\ (statsPromise d = false ->
      polls (log_of (loadStats answer now) d) = 1%nat
      /\ statsPromise (state_after (loadStats answer now) d) = false).
Proof.
  unfold loadStats. split; intros Hp.
  - rewrite bind_run, loadStats_begin_run, Hp. reflexivity.
  - rewrite log_of_bind, state_after_bind.
    assert (Hbegin : loadStats_begin d = (true, set_statsPromise true d, [Call fetchStats]))
      by (rewrite loadStats_begin_run, Hp; reflexivity).
    assert (Hlog : log_of loadStats_begin d = [Call fetchStats])
      by (unfold log_of; rewrite Hbegin; reflexivity).
    assert (Hsent : result_of loadStats_begin d = true)
      by (unfold result_of; rewrite Hbegin; reflexivity).
    assert (Hstate : state_after loadStats_begin d = set_statsPromise true d)
      by (unfold state_after; rewrite Hbegin; reflexivity).
    rewrite Hlog, Hsent, Hstate.
    unfold loadStats_resume. rewrite log_of_bind, state_after_bind, !polls_app.
    split.
    + replace (polls (log_of _ (set_statsPromise true d))) with 0%nat; [reflexivity|].
      symmetry. destruct answer; try apply refresh_polls. reflexivity.
    + unfold state_after at 1, update. cbn [fst snd].
      destruct (state_after _ (set_statsPromise true d)). reflexivity.
Qed.

(** *** The progress of a loop *)

Lemma reportless_ret {A} (a : A) : reportless (mret a).
Proof. intros d. reflexivity. Qed.

Lemma reportless_this : reportless this.
Proof. intros d. reflexivity. Qed.

Lemma reportless_update f : reportless (update f).
Proof. intros d. reflexivity. Qed.

Lemma reportless_emit e : progress [e] = [] -> reportless (emit e).
Proof. intros He d. exact He. Qed.

Lemma reportless_bind {A B} (m : M A) (k : A -> M B) :
  reportless m -> (forall a, reportless (k a)) -> reportless (m ≫= k).
Proof.
  intros Hm Hk d. rewrite log_of_bind, progress_app, (Hm d), (Hk _ _). reflexivity.
Qed.

Ltac reportlessness :=
  repeat first
    [ apply reportless_ret
    | apply reportless_this
    | apply reportless_update
    | apply reportless_emit; reflexivity
    | apply reportless_bind; [|intros ?]
    | match goal with
      | |- reportless (if ?c then _ else _) => destruct c
      | |- reportless (match ?x with _ => _ end) => destruct x
      end ].

Lemma reportless_handleEnrich mode overrides answer :
  reportless (handleEnrich mode overrides answer).
Proof.
  unfold handleEnrich, handleEnrich_begin, handleEnrich_resume, closeDropdown,
    updateStatusBar, skip.
  apply reportless_bind; [reportlessness|intros sent]. reportlessness.
Qed.

Lemma reportless_trigger count answer : reportless (triggerAutoEnrich count answer).
Proof.
  unfold triggerAutoEnrich, updateStatusBar, skip.
  destruct (count <=? 0); [reportlessness|].
  apply reportless_bind; [reportlessness|intros d0].
  destruct (negb _); [reportlessness|]. destruct (enrichmentBusy d0); [reportlessness|].
  apply reportless_handleEnrich.
Qed.

Lemma reportless_processPending answer : reportless (processPendingAutoEnrich answer).
Proof.
  unfold processPendingAutoEnrich.
  apply reportless_bind; [reportlessness|intros d0].
  destruct (_ || _); [reportlessness|]. destruct (negb _); [reportlessness|].
  apply reportless_bind; [reportlessness|intros ?].
  apply reportless_bind; [reportlessness|intros ?].
  apply reportless_trigger.
Qed.

Lemma reportless_finalize delivered : reportless (tryFinalizeDiscoveryLoop delivered).
Proof.
  unfold tryFinalizeDiscoveryLoop, tryFinalizeDiscoveryLoop_begin,
    tryFinalizeDiscoveryLoop_resume, skip.
  reportlessness.
Qed.

Lemma reportless_refresh stats now : reportless (maybeRefreshAfterLoop stats now).
Proof.
  unfold maybeRefreshAfterLoop, loadTable, updateStatusBar, skip.
  destruct stats as [stats|]; [|reportlessness].
  destruct (running stats); [reportlessness|]. destruct (negb _); [reportlessness|].
  destruct (_ || _); [reportlessness|].
  apply reportless_bind; [reportlessness|intros d0].
  destruct (same_version _ _); [reportlessness|].
  destruct (refreshed_notice _). reportlessness.
Qed.

Lemma reportless_loadStats answer now : reportless (loadStats answer now).
Proof.
  unfold loadStats, loadStats_begin, loadStats_resume, updateStatusBar, skip.
  apply reportless_bind; [reportlessness|intros sent]. destruct sent; [|reportlessness].
  apply reportless_bind; [|intros ?; reportlessness].
  destruct answer; try apply reportless_refresh. reportlessness.
Qed.

Lemma reportless_streamProgress p stats now answer delivered :
  reportless (streamProgress p stats now answer delivered).
Proof.
  unfold streamProgress, streamDone_refresh, streamDone_settle, loadTable,
    updateStatusBar, skip.
  destruct (p_done p); [|reportlessness].
  apply reportless_bind.
  - apply reportless_bind; [reportlessness|intros ?].
    apply reportless_bind; [reportlessness|intros ?].
    apply reportless_bind; [apply reportless_loadStats|intros ?]. reportlessness.
  - intros ?. apply reportless_bind; [reportlessness|intros ?].
    apply reportless_bind; [apply reportless_processPending|intros ?].
    apply reportless_finalize.
Qed.

Lemma reportless_run_resume label defer answer stats now enrich :
  reportless (performDiscoveryRun_resume label defer answer stats now enrich).
Proof.
  unfold performDiscoveryRun_resume, loadTable, updateStatusBar, skip.
  destruct answer as [response|]; [|reportlessness].
  apply reportless_bind; [reportlessness|intros ?].
  apply reportless_bind; [apply reportless_loadStats|intros ?].
  apply reportless_bind; [reportlessness|intros ?].
  apply reportless_bind; [apply reportless_trigger|intros ?]. reportlessness.
Qed.

Lemma reportless_start initialInputs : reportless (startDiscoveryLoop_begin initialInputs).
Proof.
  unfold startDiscoveryLoop_begin, setDiscoveryLoopRunningState, updateStatusBar, skip.
  reportlessness.
Qed.

Lemma reportless_leave loopError : reportless (leaveDiscoveryLoop loopError).
Proof.
  unfold leaveDiscoveryLoop, queueDiscoveryLoopCompletion,
    tryFinalizeDiscoveryLoop_begin, setDiscoveryLoopRunningState, updateStatusBar, skip.
  reportlessness.
Qed.

Lemma reportless_interrupt i : reportless (interrupt i).
Proof.
  destruct i; cbn [interrupt].
  - unfold stopDiscoveryLoop, updateStatusBar, skip. reportlessness.
  - apply reportless_bind; [apply reportless_start|intros ?]. apply reportless_ret.
  - apply reportless_handleEnrich.
  - apply reportless_trigger.
  - apply reportless_streamProgress.
  - unfold streamError, updateStatusBar. reportlessness.
  - apply reportless_loadStats.
  - apply reportless_finalize.
Qed.

Lemma reportless_interrupts l : reportless (interrupts l).
Proof.
  induction l as [|i l IH]; cbn [interrupts]; [apply reportless_ret|].
  apply reportless_bind; [apply reportless_interrupt|intros ?; exact IH].
Qed.

Lemma progress_report runs discovered l :
  progress (Call (notifyDiscoveryLoopProgress runs discovered) :: l)
  = (runs, discovered) :: progress l.
Proof. reflexivity. Qed.

Lemma progress_other e l : progress [e] = [] -> progress (e :: l) = progress l.
Proof.
  intros He. change (e :: l)%list with ([e] ++ l)%list.
  rewrite progress_app, He. reflexivity.
Qed.

Ltac count_reports :=
  repeat first
    [ rewrite progress_app
    | rewrite progress_report
    | rewrite progress_other by reflexivity ].

Lemma interrupts_quiet l d u d1 log1 :
  interrupts l d = (u, d1, log1) -> progress log1 = [].
Proof.
  intros Hrun. pose proof (reportless_interrupts l d) as Hlog.
  unfold log_of in Hlog. rewrite Hrun in Hlog. exact Hlog.
Qed.

Lemma resume_quiet label defer answer stats now enrich d result d2 log2 :
  performDiscoveryRun_resume label defer answer stats now enrich d
  = (result, d2, log2) ->
  progress log2 = [].
Proof.
  intros Hrun.
  pose proof (reportless_run_resume label defer answer stats now enrich d) as Hlog.
  unfold log_of in Hlog. rewrite Hrun in Hlog. exact Hlog.
Qed.

Lemma totals_cons st turn n used :
  run_found turn = Some n ->
  totals st (completed (turn :: used))
  = (runs st + 1, found st + n)
    :: totals {| runs := runs st + 1; found := found st + n |} (completed used).
Proof. intros H. rewrite (completed_cons_some _ _ _ H). reflexivity. Qed.

(** The loop reports the counters after each run that came back, and asks
    for each run with the inputs it was given. *)
Lemma discovery_while_reports inputs ts : forall d,
  discoveryLoopActive d = true ->
  Forall (eq inputs) (discoveries (log_of (discovery_while inputs ts) d))
  /\ match result_of (discovery_while inputs ts) d with
     | Waiting =>
         progress (log_of (discovery_while inputs ts) d)
         = totals (discoveryLoopStats d) (completed ts)
     | Left _ unused =>
         exists used,
           ts = (used ++ unused)%list
           /\ progress (log_of (discovery_while inputs ts) d)
              = totals (discoveryLoopStats d) (completed used)
     end.
Proof.
  induction ts as [|turn rest IH]; intros d Ha; unfold log_of, result_of.
  - rewrite discovery_while_nil.
    destruct (discoveryLoopStopping d); cbn [fst snd].
    + split; [constructor|]. exists []. split; reflexivity.
    + split; [repeat constructor|reflexivity].
  - rewrite discovery_while_step.
    destruct (discoveryLoopStopping d) eqn:Hs; cbn [fst snd].
    { split; [constructor|]. exists []. split; reflexivity. }
    cbv zeta.
    destruct (interrupts (during_run turn) d) as [[u1 d1] log1] eqn:E1.
    destruct (interrupts_run _ _ _ _ _ Ha E1) as (Ha1 & _ & Hst1 & L1).
    pose proof (interrupts_quiet _ _ _ _ _ E1) as Q1.
    destruct (performDiscoveryRun_resume _ _ _ _ _ _ d1) as [[result d2] log2] eqn:E2.
    destruct (resume_run _ _ _ _ _ _ _ _ _ _ E2) as (-> & Ha2 & _ & Hst2 & L2).
    pose proof (resume_quiet _ _ _ _ _ _ _ _ _ _ E2) as Q2.
    rewrite Ha1 in Ha2. rewrite Hst1 in Hst2.
    destruct (discovered turn) as [response|] eqn:Hanswer.
    2:{ cbn [fst snd]. split.
        - count_requests. rewrite L1, L2. repeat constructor.
        - exists [turn]. split; [reflexivity|].
          assert (Hfound : run_found turn = None)
            by (unfold run_found; rewrite Hanswer; reflexivity).
          rewrite (completed_cons_none _ _ Hfound).
          count_reports. rewrite Q1, Q2. reflexivity. }
    assert (Hfound : run_found turn = Some (d_found response))
      by (unfold run_found; rewrite Hanswer; reflexivity).
    rewrite Hst2.
    set (counted := {| runs := runs (discoveryLoopStats d) + 1;
                       found := found (discoveryLoopStats d) + d_found response |}).
    destruct (counted_view counted d2) as (Ha3 & _ & Hst3). rewrite Ha2 in Ha3.
    destruct (interrupts (during_report turn) _) as [[u4 d4] log4] eqn:E4.
    destruct (interrupts_run _ _ _ _ _ Ha3 E4) as (Ha4 & _ & Hst4 & L4).
    pose proof (interrupts_quiet _ _ _ _ _ E4) as Q4. rewrite Hst3 in Hst4.
    destruct (discoveryLoopStopping d4).
    { cbn [fst snd]. split.
      - count_requests. rewrite L1, L2, L4. repeat constructor.
      - exists [turn]. split; [reflexivity|].
        rewrite (totals_cons _ _ _ _ Hfound). count_reports.
        rewrite Q1, Q2, Q4. reflexivity. }
    destruct (interrupts (during_delay turn) d4) as [[u5 d5] log5] eqn:E5.
    destruct (interrupts_run _ _ _ _ _ Ha4 E5) as (Ha5 & _ & Hst5 & L5).
    pose proof (interrupts_quiet _ _ _ _ _ E5) as Q5. rewrite Hst4 in Hst5.
    destruct (discoveryLoopStopping d5).
    { cbn [fst snd]. split.
      - count_requests. rewrite L1, L2, L4, L5. repeat constructor.
      - exists [turn]. split; [reflexivity|].
        rewrite (totals_cons _ _ _ _ Hfound). count_reports.
        rewrite Q1, Q2, Q4, Q5. reflexivity. }
    destruct (IH d5 Ha5) as [Hrequests Hreports].
    unfold log_of, result_of in Hrequests, Hreports.
    destruct (discovery_while inputs rest d5) as [[exit d6] log6].
    cbn [fst snd] in *. rewrite Hst5 in Hreports. split.
    + count_requests. rewrite L1, L2, L4, L5. cbn [app]. constructor; [reflexivity|].
      exact Hrequests.
    + destruct exit as [|err unused].
      * rewrite (totals_cons _ _ _ _ Hfound). count_reports.
        rewrite Q1, Q2, Q4, Q5, Hreports. reflexivity.
      * destruct Hreports as (used & -> & Hreports). exists (turn :: used).
        split; [reflexivity|].
        rewrite (totals_cons _ _ _ _ Hfound). count_reports.
        rewrite Q1, Q2, Q4, Q5, Hreports. reflexivity.
Qed.

Lemma begin_inputs initialInputs d inputs d1 log :
  startDiscoveryLoop_begin initialInputs d = (Some inputs, d1, log) ->
  match initialInputs with
  | Some given => inputs = given
  | None => collectDiscoveryInputsFromSettings (discoverySettings d) = Some inputs
  end
  /\ discoveries log = [] /\ progress log = [].
Proof.
  unfold startDiscoveryLoop_begin. run_m.
  destruct (discoveryLoopActive d); cbn; [discriminate|].
  destruct initialInputs as [given|]; cbn.
  - intros [= <- <- <-]. repeat split.
  - destruct (collectDiscoveryInputsFromSettings (discoverySettings d)) as [collected|];
      cbn; [|discriminate].
    intros [= <- <- <-]. repeat split.
Qed.

Lemma leave_quiet loopError d :
  discoveries (log_of (leaveDiscoveryLoop loopError) d) = []
  /\ progress (log_of (leaveDiscoveryLoop loopError) d) = [].
Proof.
  split; [|apply reportless_leave].
  unfold log_of, leaveDiscoveryLoop, queueDiscoveryLoopCompletion,
    tryFinalizeDiscoveryLoop_begin. run_m.
  destruct d as [tab menu busy active stopping [r f] pending notified settings
                 promise seen payload finalizing sent].
  destruct loopError, stopping, busy, finalizing; cbn;
    destruct (0 <? r); cbn; destruct (0 <? pending); reflexivity.
Qed.

(** What a whole call of [startDiscoveryLoop] asks and reports. *)
Lemma loop_log initialInputs script d0 :
  discoveryLoopActive d0 = false ->
  let log := log_of (startDiscoveryLoop initialInputs script) d0 in
  Forall (fun inputs =>
            match initialInputs with
            | Some given => inputs = given
            | None =>
                collectDiscoveryInputsFromSettings (discoverySettings d0) = Some inputs
            end) (discoveries log)
  /\ match result_of (startDiscoveryLoop initialInputs script) d0 with
     | NotStarted => progress log = [] /\ discoveries log = []
     | StillLooping =>
         progress log = totals {| runs := 0; found := 0 |} (completed (turns script))
     | Exited unused =>
         exists used,
           turns script = (used ++ unused)%list
           /\ progress log = totals {| runs := 0; found := 0 |} (completed used)
     end.
Proof.
  intros Hidle log. subst log. unfold log_of, result_of, startDiscoveryLoop.
  rewrite bind_run.
  pose proof (begin_inactive initialInputs d0 Hidle) as Hbegin.
  destruct (can_start initialInputs d0).
  2:{ destruct Hbegin as [log0 Ebegin].
      pose proof (reportless_start initialInputs d0) as Hquiet.
      assert (Hnone : discoveries (log_of (startDiscoveryLoop_begin initialInputs) d0) = []).
      { unfold log_of, startDiscoveryLoop_begin. run_m. rewrite Hidle. cbn.
        destruct initialInputs; cbn; [reflexivity|].
        destruct (collectDiscoveryInputsFromSettings _); reflexivity. }
      unfold log_of in Hquiet, Hnone. rewrite Ebegin in *. cbn [fst snd] in *.
      unfold mret, M_ret. cbv beta iota zeta. cbn [fst snd].
      rewrite ?app_nil_r, Hnone, Hquiet. split; [constructor|split; reflexivity]. }
  destruct Hbegin as (inputs & d1 & log0 & Ebegin & Hview1). rewrite Ebegin.
  destruct (begin_inputs _ _ _ _ _ Ebegin) as (Hinputs & D0 & Q0).
  unfold loop_view in Hview1. injection Hview1 as Ha1 Hs1 Hst1.
  rewrite bind_run.
  destruct (interrupts (during_start script) d1) as [[u2 d2] log2] eqn:E2.
  destruct (interrupts_run _ _ _ _ _ Ha1 E2) as (Ha2 & _ & Hst2 & D2).
  pose proof (interrupts_quiet _ _ _ _ _ E2) as Q2. rewrite Hst1 in Hst2.
  rewrite bind_run.
  destruct (discovery_while_reports inputs (turns script) d2 Ha2) as [Hrequests Hreports].
  unfold log_of, result_of in Hrequests, Hreports. rewrite Hst2 in Hreports.
  destruct (discovery_while inputs (turns script) d2) as [[exit d3] log3].
  cbn [fst snd] in Hrequests, Hreports.
  assert (Hall : Forall (fun x =>
                   match initialInputs with
                   | Some given => x = given
                   | None => collectDiscoveryInputsFromSettings (discoverySettings d0)
                             = Some x
                   end) (discoveries log3)).
  { eapply Forall_impl; [exact Hrequests|]. cbn. intros x <-. exact Hinputs. }
  destruct exit as [|err unused].
  - unfold mret, M_ret. cbv beta iota zeta. cbn [fst snd].
    rewrite !discoveries_app, !progress_app, D0, D2, Q0, Q2, ?app_nil_r.
    split; [exact Hall|exact Hreports].
  - rewrite bind_run.
    destruct (leave_quiet err d3) as [D4 Q4]. unfold log_of in D4, Q4.
    destruct (leaveDiscoveryLoop err d3) as [[sent d4] log4].
    unfold mret, M_ret. cbv beta iota zeta. cbn [fst snd] in *.
    rewrite !discoveries_app, !progress_app, D0, D2, D4, Q0, Q2, Q4, ?app_nil_r.
    split; [exact Hall|exact Hreports].
Qed.

(** A call of [startDiscoveryLoop] made while no loop runs reports to the
    server, run after run, the number of runs that came back and the sum
    of what they found, and nothing else: nothing for a run that failed,
    nothing when no loop began. *)
Theorem loop_progress_is_the_running_total
        (initialInputs : option DiscoveryInputs) (script : Script) (d0 : Dashboard) :
  discoveryLoopActive d0 = false ->
  let log := log_of (startDiscoveryLoop initialInputs script) d0 in
  match result_of (startDiscoveryLoop initialInputs script) d0 with
  | NotStarted => progress log = []
  | StillLooping =>
      progress log = totals {| runs := 0; found := 0 |} (completed (turns script))
  | Exited unused =>
      exists used,
        turns script = (used ++ unused)%list
        /\ progress log = totals {| runs := 0; found := 0 |} (completed used)
  end.
Proof.
  intros Hidle log. destruct (loop_log initialInputs script d0 Hidle) as [_ Hreports].
  fold log in Hreports.
  destruct (result_of (startDiscoveryLoop initialInputs script) d0);
    [exact (proj1 Hreports)|exact Hreports|exact Hreports].
Qed.

Lemma loop_progress_is_the_running_total_witness :
  progress (log_of (startDiscoveryLoop None three_runs_stop_in_second) constructed)
  = [(1, 2); (2, 4)].
Proof.
  pose proof (loop_progress_is_the_running_total None three_runs_stop_in_second
                constructed eq_refl) as Hreports.
  cbv zeta in Hreports.
  change (result_of (startDiscoveryLoop None three_runs_stop_in_second) constructed)
    with (Exited [plain_turn 2]) in Hreports.
  destruct Hreports as (used & Hsplit & Hprogress).
  assert (Hused : used = [plain_turn 2; stopped_turn 2]).
  { change (turns three_runs_stop_in_second)
      with ([plain_turn 2; stopped_turn 2] ++ [plain_turn 2])%list in Hsplit.
    apply app_inj_tail in Hsplit as [Hsame _]. symmetry. exact Hsame. }
  rewrite Hprogress, Hused. reflexivity.
Defined.

(** *** The inputs of a loop *)

Lemma max_one_whole z : max (of_Z 1) (of_Z z) = of_Z (Z.max 1 z).
Proof.
  unfold max. cbn [isNaN of_Z orb]. rewrite (SettingsFacts.lt_of_Z 1 z).
  destruct (Z.ltb_spec 1 z); f_equal; lia.
Qed.

Lemma collected_inputs settings inputs :
  collectDiscoveryInputsFromSettings settings = Some inputs ->
  in_keywords inputs = keywords settings
  /\ in_keywords inputs <> []
  /\ in_denyLanguages inputs = denyLanguages settings
  /\ in_lastUploadMaxAgeDays inputs = lastUploadMaxAgeDays settings
  /\ (in_perKeyword inputs = PosInf \/ whole_positive (in_perKeyword inputs)).
Proof.
  unfold collectDiscoveryInputsFromSettings.
  destruct (keywords settings) as [|k ks] eqn:Hk; [discriminate|].
  intros [= <-]. cbn [in_keywords in_denyLanguages in_lastUploadMaxAgeDays in_perKeyword].
  split; [reflexivity|]. split; [discriminate|]. split; [reflexivity|].
  split; [reflexivity|].
  destruct (perKeyword settings) as [| | |q]; cbn [truthy floor].
  - right. exists 1. split; [reflexivity|lia].
  - left. reflexivity.
  - right. exists 1. split; [reflexivity|lia].
  - right. destruct (negb (Qeq_bool q 0)).
    + cbn [floor]. change (Fin (inject_Z (Qfloor q))) with (of_Z (Qfloor q)).
      rewrite max_one_whole. eexists. split; [reflexivity|lia].
    + rewrite SettingsFacts.floor_of_Z, max_one_whole. eexists.
      split; [reflexivity|lia].
Qed.

(** Every discovery request of a loop carries the inputs the loop began
    with: those passed to [startDiscoveryLoop], or else those collected
    from the settings as they were then, which have the keywords of the
    settings, one at least, and a number per keyword that is whole and one
    or more, or infinite. *)
Theorem loop_requests_carry_its_inputs
        (initialInputs : option DiscoveryInputs) (script : Script) (d0 : Dashboard) :
  discoveryLoopActive d0 = false ->
  Forall (fun inputs =>
            match initialInputs with
            | Some given => inputs = given
            | None =>
                in_keywords inputs = keywords (discoverySettings d0)
                /\ in_keywords inputs <> []
                /\ in_denyLanguages inputs = denyLanguages (discoverySettings d0)
                /\ in_lastUploadMaxAgeDays inputs
                   = lastUploadMaxAgeDays (discoverySettings d0)
                /\ (in_perKeyword inputs = PosInf
                    \/ whole_positive (in_perKeyword inputs))
            end)
         (discoveries (log_of (startDiscoveryLoop initialInputs script) d0)).
Proof.
  intros Hidle. destruct (loop_log initialInputs script d0 Hidle) as [Hall _].
  eapply Forall_impl; [exact Hall|]. cbn. intros inputs Hinputs.
  destruct initialInputs; [exact Hinputs|]. apply collected_inputs. exact Hinputs.
Qed.

Lemma loop_requests_carry_its_inputs_witness :
  Forall (fun inputs => in_keywords inputs = keywords (discoverySettings constructed))
         (discoveries (log_of (startDiscoveryLoop None three_runs_stop_in_second)
                              constructed)).
Proof.
  eapply Forall_impl;
    [exact (loop_requests_carry_its_inputs None three_runs_stop_in_second constructed
              eq_refl)|].
  cbn beta. intros inputs (Hkeywords & _). exact Hkeywords.
Defined.

(** With no inputs passed and no keyword in the settings, no loop begins:
    the controller is left as it was, the server is asked nothing, and the
    notice 'Please provide at least one keyword.' is shown. *)
Theorem loop_needs_a_keyword (script : Script) (d : Dashboard) :
  discoveryLoopActive d = false ->
  keywords (discoverySettings d) = [] ->
  startDiscoveryLoop None script d = (NotStarted, d, [StatusBar ProvideKeyword Error]).
Proof.
  intros Hidle Hnone.
  unfold startDiscoveryLoop, startDiscoveryLoop_begin, collectDiscoveryInputsFromSettings.
  run_m. rewrite Hidle, Hnone. reflexivity.
Qed.

Lemma loop_needs_a_keyword_witness :
  let d := state_after (setDiscoverySettings
                          (normalizeDiscoverySettings (host := Words.example_host)
                             {["keywordsText" := VStr " , "]})) constructed in
  startDiscoveryLoop None three_runs_stop_in_second d
  = (NotStarted, d, [StatusBar ProvideKeyword Error]).
Proof.
  intros d. apply loop_needs_a_keyword; reflexivity.
Defined.

End FlowFacts.


(* ===================================================================== *)
(** ** Properties of the dropdown menus                                  *)
(* ===================================================================== *)

Module MenusFacts.
Import Dash Menus.

Lemma closeDropdown_consistent menu s :
  consistent s -> consistent (closeDropdown menu s).
Proof.
  intros Hs m. unfold closeDropdown. cbn [drawn active].
  destruct (decide (m = menu)) as [->|Hm], (decide (active s = Some menu)) as [Ha|Ha].
  - split; discriminate.
  - split; [discriminate|]. intros Hactive. destruct (Ha Hactive).
  - rewrite (Hs m), Ha. split; [intros [= ?]; congruence|discriminate].
  - apply Hs.
Qed.

Lemma closeAllDropdowns_consistent s :
  consistent s -> consistent (closeAllDropdowns s) /\ active (closeAllDropdowns s) = None.
Proof.
  intros Hs. unfold closeAllDropdowns.
  destruct (active s) as [menu|] eqn:Ha; [|split; [exact Hs|exact Ha]].
  split; [apply closeDropdown_consistent; exact Hs|].
  unfold closeDropdown. cbn [active]. rewrite Ha.
  destruct (decide (Some menu = Some menu)); [reflexivity|contradiction].
Qed.

Lemma act_consistent a s : consistent s -> consistent (act a s).
Proof.
  intros Hs. destruct a as [disabled menu|menu| |inside|key]; cbn [act].
  - unfold toggleDropdown. destruct disabled; [exact Hs|].
    destruct (decide (active s = Some menu)); [apply closeDropdown_consistent, Hs|].
    destruct (closeAllDropdowns_consistent s Hs) as [Hclosed Hnone].
    intros m. cbn [drawn active].
    destruct (decide (m = menu)) as [->|Hm]; [split; reflexivity|].
    rewrite (Hclosed m), Hnone. split; [discriminate|intros [= ?]; congruence].
  - apply closeDropdown_consistent, Hs.
  - apply closeAllDropdowns_consistent, Hs.
  - unfold handleDocumentClick. destruct (active s); [|exact Hs].
    destruct inside; [exact Hs|]. apply closeAllDropdowns_consistent, Hs.
  - unfold handleDocumentKeydown.
    destruct (String.eqb key "Escape"); [|exact Hs].
    apply closeAllDropdowns_consistent, Hs.
Qed.

(** Once the menu drawn is the active one and no other, as on a page
    whose menus are hidden, it stays so whatever is done to the menus: two
    menus are never open together, and Escape leaves none open. *)
Theorem one_menu_open_at_most (l : list Action) (s : Dropdowns) :
  consistent s ->
  consistent (acts l s)
  /\ (forall m m', drawn (acts l s) m = true -> drawn (acts l s) m' = true -> m = m')
  /\ (forall m, drawn (handleDocumentKeydown "Escape" (acts l s)) m = false).
Proof.
  intros Hs.
  assert (Hall : consistent (acts l s)).
  { revert s Hs. unfold acts. induction l as [|a l IH]; intros s Hs; [exact Hs|].
    cbn [fold_left]. apply IH, act_consistent, Hs. }
  split; [exact Hall|]. split.
  - intros m m' Hm Hm'. apply Hall in Hm, Hm'. congruence.
  - intros m. unfold handleDocumentKeydown. cbn [String.eqb Ascii.eqb Bool.eqb].
    destruct (closeAllDropdowns_consistent _ Hall) as [Hclosed Hnone].
    destruct (drawn (closeAllDropdowns (acts l s)) m) eqn:E; [|reflexivity].
    apply Hclosed in E. congruence.
Qed.

Lemma one_menu_open_at_most_witness :
  let s := acts [Toggle false EnrichMenu; Toggle false ImportExportMenu] loaded in
  active s = Some ImportExportMenu /\ drawn s EnrichMenu = false.
Proof.
  intros s.
  assert (Hloaded : consistent loaded) by (intros m; split; discriminate).
  destruct (one_menu_open_at_most
              [Toggle false EnrichMenu; Toggle false ImportExportMenu] loaded Hloaded)
    as (Hconsistent & _ & _).
  split; [reflexivity|].
  destruct (drawn s EnrichMenu) eqn:E; [|reflexivity].
  apply Hconsistent in E. discriminate E.
Defined.

(** An open menu is closed by its own toggle; a closed one is opened by
    it and closed again by a second press; and opening a menu closes the
    other. *)
Theorem toggle_opens_and_closes (menu other : Menu) (s : Dropdowns) :
  consistent s ->
  let once := toggleDropdown false menu s in
  let twice := toggleDropdown false menu once in
  (active s = Some menu -> active once = None /\ drawn once menu = false)
  /\ (active s <> Some menu ->
      active once = Some menu /\ drawn once menu = true
      /\ (other <> menu -> drawn once other = false)
      /\ active twice = None /\ drawn twice menu = false).
Proof.
  intros Hs once twice. subst once twice. unfold toggleDropdown.
  destruct (decide (active s = Some menu)) as [Ha|Ha].
  - split; [|intros Hno; contradiction]. intros _.
    unfold closeDropdown. cbn [drawn active].
    destruct (decide (active s = Some menu)); [|contradiction].
    destruct (decide (menu = menu)); [split; reflexivity|contradiction].
  - split; [intros Hyes; contradiction|]. intros _. cbn [drawn active].
    destruct (closeAllDropdowns_consistent s Hs) as [Hclosed Hnone].
    destruct (decide (Some menu = Some menu)); [|contradiction].
    destruct (decide (menu = menu)); [|contradiction].
    split; [reflexivity|]. split; [reflexivity|]. split.
    + intros Hother. destruct (decide (other = menu)); [contradiction|].
      destruct (drawn (closeAllDropdowns s) other) eqn:E; [|reflexivity].
      apply Hclosed in E. congruence.
    + unfold closeDropdown. cbn [drawn active].
      destruct (decide (Some menu = Some menu)); [|contradiction].
      destruct (decide (menu = menu)); [split; reflexivity|contradiction].
Qed.

Lemma toggle_opens_and_closes_witness :
  let once := toggleDropdown false EnrichMenu loaded in
  active once = Some EnrichMenu
  /\ drawn once ImportExportMenu = false
  /\ active (toggleDropdown false EnrichMenu once) = None.
Proof.
  intros once.
  assert (Hloaded : consistent loaded) by (intros m; split; discriminate).
  destruct (toggle_opens_and_closes EnrichMenu ImportExportMenu loaded Hloaded)
    as [_ Hclosed].
  destruct (Hclosed ltac:(discriminate)) as (Hactive & _ & Hother & Hagain & _).
  split; [exact Hactive|]. split; [apply Hother; discriminate|exact Hagain].
Defined.

End MenusFacts.


(* ===================================================================== *)
(** ** Properties of the settings dialog                                 *)
(* ===================================================================== *)

Module DialogFacts.
Import JS Settings Dash Dialog.

Section WithHost.
Context {host : Host}.

(** *** Numbers after normalisation *)

Lemma positive_floor_is_whole (p n : num) :
  positiveOrNull (VNum p) = Some n -> whole n.
Proof.
  unfold positiveOrNull. destruct (gt p (of_Z 0)) eqn:Hpos; [|discriminate].
  intros [= <-]. destruct p as [| | |q]; try discriminate.
  - left. reflexivity.
  - right. exists (Qfloor q). split; [reflexivity|].
    cbn in Hpos. apply negb_true_iff in Hpos.
    destruct (Z_lt_le_dec (Qfloor q) 0) as [Hneg|]; [|assumption].
    exfalso. assert (Hle : Qle_bool q (inject_Z 0) = true); [|congruence].
    apply Qle_bool_iff. apply Qlt_le_weak.
    eapply Qlt_le_trans; [apply Qlt_floor|].
    rewrite <- Zle_Qle. lia.
Qed.

Lemma positiveOrNull_is_whole (raw : value) (n : num) :
  positiveOrNull raw = Some n -> whole n.
Proof.
  destruct raw as [| |b|p|s|items|]; try discriminate.
  - apply positive_floor_is_whole.
  - unfold positiveOrNull. destruct (Text.nonempty _); [|discriminate].
    destruct (negb _ && gt _ _) eqn:Hok; [|discriminate].
    apply andb_prop in Hok as [_ Hpos]. intros Hn.
    apply (positive_floor_is_whole (to_number (VStr s))).
    unfold positiveOrNull. rewrite Hpos. exact Hn.
Qed.

Lemma perKeyword_counting n :
  counting (if isNaN n || le n (of_Z 0) then of_Z 5 else max (of_Z 1) (floor n)).
Proof.
  destruct n as [| | |q]; cbn [isNaN orb le of_Z].
  - right. exists 5. split; [reflexivity|lia].
  - left. reflexivity.
  - right. exists 5. split; [reflexivity|lia].
  - destruct (Qle_bool q (inject_Z 0)); [right; exists 5; split; [reflexivity|lia]|].
    right. cbn [floor]. change (Fin (inject_Z (Qfloor q))) with (of_Z (Qfloor q)).
    rewrite FlowFacts.max_one_whole. eexists. split; [reflexivity|lia].
Qed.

(** Whatever object is normalised, the numbers of the settings are whole:
    [perKeyword] is one or more, or infinite; each of the two limits is
    null, or a whole number that is not negative, or infinite.  None is
    NaN, none is negative, none has a fraction. *)
Theorem normalized_numbers_are_whole (raw : obj) :
  counting (perKeyword (normalizeDiscoverySettings raw))
  /\ (forall n, lastUploadMaxAgeDays (normalizeDiscoverySettings raw) = Some n -> whole n)
  /\ (forall n, enrichLimit (normalizeDiscoverySettings raw) = Some n -> whole n).
Proof.
  unfold normalizeDiscoverySettings.
  cbn [perKeyword lastUploadMaxAgeDays enrichLimit defaultDiscoverySettingsState].
  split; [apply perKeyword_counting|].
  split; intros n; apply positiveOrNull_is_whole.
Qed.

(** *** What the dialog sets *)

Lemma kept_prop current settings key v :
  as_object settings !! key = Some v ->
  prop (spread (as_object current) (as_object settings)) key = v.
Proof.
  intros Hkey. unfold prop, spread.
  rewrite (lookup_union_Some_l _ _ _ _ Hkey). reflexivity.
Qed.

(** A number rounded down that passes the test of [positiveOrNull] is one
    or more. *)
Lemma positive_floor_counts (p n : num) :
  positiveOrNull (VNum (floor p)) = Some n -> counting n.
Proof.
  unfold positiveOrNull. destruct (gt (floor p) (of_Z 0)) eqn:Hpos; [|discriminate].
  intros [= <-]. destruct p as [| | |q]; try discriminate.
  - left. reflexivity.
  - right. change (floor (Fin q)) with (of_Z (Qfloor q)) in *.
    rewrite SettingsFacts.floor_of_Z. rewrite SettingsFacts.gt_of_Z in Hpos.
    apply Z.ltb_lt in Hpos. exists (Qfloor q). split; [reflexivity|lia].
Qed.

Lemma kept_limit (limit : option num) (n : num) :
  (forall x, limit = Some x -> exists p, x = floor p) ->
  positiveOrNull (nullable limit) = Some n -> counting n.
Proof.
  intros Hfloor. destruct limit as [x|]; [|discriminate].
  destruct (Hfloor x eq_refl) as [p ->]. apply positive_floor_counts.
Qed.

(** The two numbers read from the text fields are rounded down. *)
Lemma typed_age_is_rounded (text : string) (x : num) :
  (if Text.nonempty (Text.trim text) then
     let parsed := to_number (VStr text) in
     if isNaN parsed || lt parsed (of_Z 0) then None
     else Some (if gt parsed (of_Z 0) then Some (floor parsed) else None)
   else Some None) = Some (Some x) ->
  exists p, x = floor p.
Proof.
  cbv zeta. destruct (Text.nonempty (Text.trim text)); [|intros [=]].
  destruct (isNaN _ || lt _ _); [intros [=]|].
  destruct (gt _ _); [|intros [=]]. intros [= <-]. eexists. reflexivity.
Qed.

Lemma typed_limit_is_rounded (text : string) (x : num) :
  (if Text.nonempty (Text.trim text) then
     let parsed := to_number (VStr text) in
     if isNaN parsed || le parsed (of_Z 0) then None
     else Some (Some (floor parsed))
   else Some None) = Some (Some x) ->
  exists p, x = floor p.
Proof.
  cbv zeta. destruct (Text.nonempty (Text.trim text)); [|intros [=]].
  destruct (isNaN _ || le _ _); [intros [=]|].
  intros [= <-]. eexists. reflexivity.
Qed.

(** When the dialog is accepted, the settings set have the keywords typed,
    one at least, so that inputs are always collected from them and the
    discovery goes on; the loop is chosen by the check box; and every
    number of the settings counts: [perKeyword] and, when they are not
    null, the two limits are whole and one or more, or infinite. *)
Theorem dialog_sets_counting_numbers
        (form : Form) (d : Dashboard) (set : DiscoverySettings)
        (inputs : option DiscoveryInputs) (loop : bool) :
  handleDiscoverSettingsSubmit_begin form d = Accepted set inputs loop ->
  keywordsText set = f_keywords form
  /\ keywords set = parseDiscoveryKeywords (f_keywords form)
  /\ keywords set <> []
  /\ (exists collected, inputs = Some collected /\ in_keywords collected = keywords set)
  /\ loop = f_runUntilStopped form
  /\ runUntilStopped set = f_runUntilStopped form
  /\ autoEnrichEnabled set = f_autoEnrichToggle form
  /\ counting (perKeyword set)
  /\ (forall n, lastUploadMaxAgeDays set = Some n -> counting n)
  /\ (forall n, enrichLimit set = Some n -> counting n).
Proof.
  unfold handleDiscoverSettingsSubmit_begin.
  destruct (discoveryLoopActive d); [discriminate|].
  destruct (collectDiscoverySettingsFromDialog form (discoverySettings d))
    as [why|settings] eqn:Hcollect; [discriminate|].
  intros [= <- <- <-].
  unfold collectDiscoverySettingsFromDialog in Hcollect.
  destruct (parseDiscoveryKeywords (f_keywords form)) as [|k ks] eqn:Hkeywords;
    [discriminate|].
  cbv zeta in Hcollect.
  destruct (if Text.nonempty (Text.trim (f_lastUploadMaxAge form)) then _ else _)
    as [maxAge|] eqn:Hage; [|discriminate].
  destruct (if Text.nonempty (Text.trim (f_enrichLimit form)) then _ else _)
    as [limit|] eqn:Hlimit; [|discriminate].
  injection Hcollect as <-.
  assert (Hage' : forall x, maxAge = Some x -> exists p, x = floor p).
  { intros x ->. exact (typed_age_is_rounded _ _ Hage). }
  assert (Hlimit' : forall x, limit = Some x -> exists p, x = floor p).
  { intros x ->. exact (typed_limit_is_rounded _ _ Hlimit). }
  clear Hage Hlimit.
  unfold kept, normalizeDiscoverySettings.
  repeat match goal with
         | |- context [prop (spread (as_object ?c) (as_object ?s)) ?key] =>
             rewrite (kept_prop c s key _ eq_refl)
         end.
  cbn [keywordsText keywords perKeyword lastUploadMaxAgeDays enrichLimit
       denyLanguagesText denyLanguages autoEnrichEnabled autoEnrichMode
       runUntilStopped truthy to_number].
  rewrite Hkeywords.
  split; [reflexivity|]. split; [reflexivity|]. split; [discriminate|].
  split.
  { unfold collectDiscoveryInputsFromSettings. cbn [keywords].
    eexists. split; reflexivity. }
  split; [reflexivity|]. split; [reflexivity|]. split; [reflexivity|].
  split; [apply perKeyword_counting|].
  split; intros n; [apply kept_limit, Hage'|apply kept_limit, Hlimit'].
Qed.

End WithHost.

Lemma dialog_sets_counting_numbers_witness :
  exists set inputs,
    handleDiscoverSettingsSubmit_begin (host := Words.example_host) (typed_limit "25")
                                       constructed
    = Accepted set inputs false
    /\ enrichLimit set = Some (of_Z 25)
    /\ counting (perKeyword set).
Proof.
  eexists _, _.
  split; [vm_compute; reflexivity|]. split; [vm_compute; reflexivity|].
  refine (proj1 (proj2 (proj2 (proj2 (proj2 (proj2 (proj2 (proj2
            (dialog_sets_counting_numbers (host := Words.example_host) (typed_limit "25")
               constructed _ _ false _))))))))).
  vm_compute; reflexivity.
Defined.

End DialogFacts.

(* ===================================================================== *)
(** ** Properties of the earlier table                                   *)
(* ===================================================================== *)

Module LegacyFacts.
Import JS Table Emails Legacy TableFacts.

Section WithHost.
Context {host : Host}.

Lemma sublist_shorter {A} (l k : list A) : sublist l k -> (length l <= length k)%nat.
Proof. induction 1; cbn [List.length]; lia. Qed.

Lemma mapM_length {A B} (f : A -> option B) (l : list A) (k : list B) :
  mapM f l = Some k -> length k = length l.
Proof. intros H. apply mapM_Some_1 in H. symmetry. eapply Forall2_length, H. Qed.

Lemma uniqueRows_shorter items rows :
  uniqueRows items = Some rows -> (length rows <= length items)%nat.
Proof.
  unfold uniqueRows. destruct (mapM as_row items) as [read|] eqn:Hread; [|discriminate].
  cbn. intros [= <-]. rewrite <- (mapM_length _ _ _ Hread).
  unfold applyUniqueEmailFilter.
  rewrite length_map, (EmailsFacts.outer_loop read ∅ []).
  cbn [app]. rewrite length_map.
  pose proof (sublist_shorter _ _ (EmailsFacts.retained_sublist read ∅)) as Hshort.
  rewrite !length_map in Hshort. exact Hshort.
Qed.

Lemma uniqueRows_readable items :
  Forall (fun item => is_Some (as_row item)) items -> is_Some (uniqueRows items).
Proof.
  intros Hall. unfold uniqueRows.
  destruct (mapM as_row items) as [read|] eqn:Hread; [eexists; reflexivity|].
  exfalso. assert (Hsome : is_Some (mapM as_row items)); [|rewrite Hread in Hsome; destruct Hsome; discriminate].
  apply mapM_is_Some. exact Hall.
Qed.

Lemma one_page total limit :
  0 < limit -> total <= limit -> maxPage total limit = 0.
Proof.
  intros Hlimit Hfew. unfold maxPage. destruct (0 <? total); [|reflexivity].
  assert (Hone : ~ 1 < pageCount total limit).
  { rewrite (pageCount_above 1 total limit Hlimit). lia. }
  lia.
Qed.

(** With the two filters [emailsOnly] and [uniqueEmails] on, and a server
    that sends no more items than the limit, a load ends after two
    requests at most.  It ends on the first page whatever page it was
    asked for, with a total that is the number of its rows, or else on the
    error of the filter, with no rows; and it does not end on an error
    when the [emails] of every item is a string or falsy. *)
Theorem unique_emails_stay_on_first_page
        (thrown : string) (mutate : TableState -> TableState)
        (answers : list Answer) (table : TableState) :
  let snapshot := mutate table in
  let final := (Legacy.loadTable thrown mutate answers table).1 in
  let requests := (Legacy.loadTable thrown mutate answers table).2 in
  emailsOnly (filters snapshot) = true ->
  uniqueEmails (filters snapshot) = true ->
  0 < limit snapshot ->
  0 <= page snapshot ->
  within (limit snapshot) answers ->
  (2 <= length answers)%nat ->
  loading final = false
  /\ (length requests <= 2)%nat
  /\ (error final = None ->
      page final = 0
      /\ total final = Z.of_nat (length (rows final))
      /\ total final <= limit snapshot)
  /\ (error final <> None -> error final = Some thrown /\ rows final = [])
  /\ (readable answers -> error final = None).
Proof.
  intros snapshot final requests Hemails Hunique Hlimit Hpage Hwithin Hlength.
  subst final requests.
  destruct answers as [|first [|second rest]]; cbn [List.length] in Hlength; try lia.
  apply Forall_cons in Hwithin as [Hfirst Hwithin].
  apply Forall_cons in Hwithin as [Hsecond _].
  destruct first as [items1 total1|]; [|contradiction].
  destruct second as [items2 total2|]; [|contradiction].
  assert (Hrows : forall items rows,
            Z.of_nat (length items) <= limit snapshot ->
            uniqueRows items = Some rows ->
            maxPage (Z.of_nat (length rows)) (limit snapshot) = 0
            /\ Z.of_nat (length rows) <= limit snapshot).
  { intros items rows Hfew Hsome. pose proof (uniqueRows_shorter items rows Hsome).
    split; [apply one_page; [exact Hlimit|lia]|lia]. }
  cbn [Legacy.loadTable]. fold snapshot.
  change (filters (set_loading true snapshot)) with (filters snapshot).
  change (limit (set_loading true snapshot)) with (limit snapshot).
  change (page (set_loading true snapshot)) with (page snapshot).
  rewrite Hemails, Hunique. cbn [andb].
  destruct (uniqueRows items1) as [rows1|] eqn:Hread1.
  - destruct (Hrows items1 rows1 Hfirst Hread1) as [Hmax1 Hfew1]. rewrite Hmax1.
    destruct (0 <? page snapshot) eqn:Hmoved.
    + cbn [Z.max set_page set_loading filters limit page].
      rewrite Hemails, Hunique. cbn [andb].
      destruct (uniqueRows items2) as [rows2|] eqn:Hread2.
      * destruct (Hrows items2 rows2 Hsecond Hread2) as [Hmax2 Hfew2]. rewrite Hmax2.
        change (0 `max` 0) with 0. change (0 <? 0) with false.
        cbn [fst snd set_error set_loading set_total set_rows page loading error
             total rows List.length].
        split; [reflexivity|]. split; [lia|]. split; [intros _; repeat split; lia|].
        split; [congruence|reflexivity].
      * cbn [fst snd set_error set_loading set_total set_rows page loading error
             total rows List.length].
        split; [reflexivity|]. split; [lia|]. split; [discriminate|].
        split; [intros _; split; reflexivity|]. intros Hreadable.
        apply Forall_cons in Hreadable as [_ Hreadable].
        apply Forall_cons in Hreadable as [Hitems _].
        destruct (uniqueRows_readable items2 Hitems) as [rows2 Hsome]. congruence.
    + apply Z.ltb_ge in Hmoved.
      cbn [fst snd set_error set_loading set_total set_rows page loading error total
           rows List.length].
      split; [reflexivity|]. split; [lia|]. split; [intros _; repeat split; lia|].
      split; [congruence|reflexivity].
  - cbn [fst snd set_error set_loading set_total set_rows page loading error total
         rows List.length].
    split; [reflexivity|]. split; [lia|]. split; [discriminate|].
    split; [intros _; split; reflexivity|]. intros Hreadable.
    apply Forall_cons in Hreadable as [Hitems _].
    destruct (uniqueRows_readable items1 Hitems) as [rows1 Hsome]. congruence.
Qed.

End WithHost.

Lemma unique_emails_stay_on_first_page_witness :
  let unique := {| query := ""; languages := []; statuses := [];
                   minSubscribers := None; maxSubscribers := None;
                   emailsOnly := true; uniqueEmails := true;
                   emailGateOnly := false |} in
  let table := {| filters := unique; sort := "created_at"; order := "desc";
                  page := 3; limit := 50; rows := []; total := 500;
                  loading := false; error := None |} in
  let answers := [Fetched two_channels 500; Fetched two_channels 500] in
  let final := (Legacy.loadTable (host := Words.example_host) "text.match is not a function"
                                 (fun state => state) answers table).1 in
  page final = 0 /\ total final = 1.
Proof.
  intros unique table answers final.
  destruct (unique_emails_stay_on_first_page (host := Words.example_host)
              "text.match is not a function" (fun state => state) answers table
              eq_refl eq_refl eq_refl ltac:(discriminate)
              ltac:(repeat constructor; discriminate) ltac:(cbn; lia))
    as (_ & _ & Hfirst & _ & Hreadable).
  assert (Hitems : Forall (fun item => is_Some (as_row item)) two_channels).
  { constructor; [vm_compute; eexists; reflexivity|].
    constructor; [vm_compute; eexists; reflexivity|constructor]. }
  assert (Hread : readable answers).
  { constructor; [exact Hitems|]. constructor; [exact Hitems|constructor]. }
  destruct (Hfirst (Hreadable Hread)) as (Hpage & _ & _).
  split; [exact Hpage|]. vm_compute. reflexivity.
Defined.

End LegacyFacts.
